(** * Face tracker: the identity registry, the landmark extractors and the
      pose smoothing, embedded from the application source.

    JavaScript numbers are IEEE 754 binary64 values: they are modelled by
    Rocq's primitive floats, whose operations are the same correctly rounded
    ones.  Counters that only ever hold small non-negative integers
    ([nextFaceId], [maskNumber], [framesMissing], array indices) are [nat];
    millisecond clock readings are [Z]. *)

From Stdlib Require Import List String Ascii Bool Arith ZArith Lia.
From Stdlib Require Import Floats QArith Qabs Qpower Lqa DecimalString DecimalNat.
From Stdlib Require Import Permutation.
From Stdlib Require DecimalZ DecimalPos.
Import ListNotations.
Close Scope Q_scope.

Set Warnings "-inexact-float".

(** ** [Math]: the library functions the source calls *)

Module Math.

(** [Math.abs], [Math.sqrt]: the IEEE operations. *)
Definition abs (v : float) : float := PrimFloat.abs v.
Definition sqrt (v : float) : float := PrimFloat.sqrt v.

(** [Math.max(a, b)]: NaN if either argument is NaN; [+0] is larger than
    [-0]. *)
Definition max (a b : float) : float :=
  if is_nan a || is_nan b then nan
  else if (a <? b)%float then b
  else if (b <? a)%float then a
  else if get_sign a then b else a.

(** [Math.min(a, b)]: NaN if either argument is NaN; [-0] is smaller than
    [+0]. *)
Definition min (a b : float) : float :=
  if is_nan a || is_nan b then nan
  else if (a <? b)%float then a
  else if (b <? a)%float then b
  else if get_sign a then a else b.

(** [Math.PI]. *)
Definition PI : float := 0x1.921fb54442d18p+1%float.

End Math.

(** The source's [a > b] on numbers. *)
Definition gt (a b : float) : bool := (b <? a)%float.
Infix ">?" := gt (at level 70, no associativity) : float_scope.

(** ** Completions: a call returns normally or throws *)

Inductive JsError : Type := TypeError.

Inductive completion (A : Type) : Type :=
| Normal (v : A)
| Throw (e : JsError).
Arguments Normal {A} v.
Arguments Throw {A} e.

Definition bind {A B : Type} (c : completion A) (k : A -> completion B)
  : completion B :=
  match c with
  | Normal v => k v
  | Throw e => Throw e
  end.

Notation "x <- c ;; k" := (bind c (fun x => k))
  (at level 61, c at next level, right associativity).

(** [try { body } catch (error) { handler }]. *)
Definition try_catch {A : Type} (body : completion A)
  (handler : JsError -> completion A) : completion A :=
  match body with
  | Normal v => Normal v
  | Throw e => handler e
  end.

(** [xs.map(f)] where [f] may throw: the first throw aborts the map. *)
Fixpoint mapM {A B : Type} (f : A -> completion B) (xs : list A)
  : completion (list B) :=
  match xs with
  | [] => Normal []
  | a :: rest => b <- f a ;; bs <- mapM f rest ;; Normal (b :: bs)
  end.

(** ** Landmarks *)

(** A landmark point; the source reads only [x] and [y]. *)
Record Point : Type := mkPoint { x : float; y : float }.

(** One slot of a landmark array: [None] is [undefined]/[null] (a hole, or
    an index past the end). *)
Definition Landmark : Type := option Point.

(** A detection as the detector hands it over: [None] is a [null] or
    [undefined] landmark array. *)
Definition Landmarks : Type := option (list Landmark).

(** [landmarks[i]]. *)
Definition at_index (landmarks : list Landmark) (i : nat) : Landmark :=
  match nth_error landmarks i with
  | Some (Some p) => Some p
  | _ => None
  end.

(** [!v] on a landmark slot. *)
Definition falsy (v : Landmark) : bool :=
  match v with Some _ => false | None => true end.

(** [v.x], [v.y]: reading a property of [undefined] throws a TypeError. *)
Definition prop {A : Type} (v : Landmark) (field : Point -> A)
  : completion A :=
  match v with
  | Some p => Normal (field p)
  | None => Throw TypeError
  end.

(** [{ x: (a.x + b.x) / 2, y: (a.y + b.y) / 2 }]. *)
Definition midpoint (a b : Landmark) : completion Point :=
  ax <- prop a x ;; bx <- prop b x ;;
  ay <- prop a y ;; by_ <- prop b y ;;
  Normal {| x := (ax + bx) / 2; y := (ay + by_) / 2 |}%float.

(** ** Records of the registry *)

(** A detection after extraction and after the [center !== null] filter:
    [{ landmarks, center, size, rotation, originalIndex }]. *)
Module NewFace.
Record t : Type := mk {
  landmarks : Landmarks;
  center : Point;
  size : float;
  rotation : float;
  originalIndex : nat
}.
End NewFace.

(** A value of [trackedFaces]. *)
Module TrackedFace.
Record t : Type := mk {
  faceId : string;
  maskNumber : nat;
  center : Point;
  size : float;
  rotation : float;
  landmarks : Landmarks;
  framesMissing : nat;
  firstSeen : Z;
  lastSeen : Z
}.
End TrackedFace.

(** An entry of the list [processDetections] returns:
    [{ ...newFace, faceId, maskNumber }]. *)
Module Tagged.
Record t : Type := mk {
  landmarks : Landmarks;
  center : Point;
  size : float;
  rotation : float;
  originalIndex : nat;
  faceId : string;
  maskNumber : nat
}.
End Tagged.

(** ** The [Map] of tracked faces

    A JavaScript [Map] iterates in insertion order, and [findBestMatch]
    depends on that order: the map is an association list, oldest key
    first, with at most one entry per key. *)

Module JsMap.
Section Ops.
Variable V : Type.

Definition t : Type := list (string * V).

Definition keys (m : t) : list string := List.map fst m.
Definition values (m : t) : list V := List.map snd m.

Fixpoint get (m : t) (k : string) : option V :=
  match m with
  | [] => None
  | (k', v) :: rest => if String.eqb k k' then Some v else get rest k
  end.

Definition has (m : t) (k : string) : bool :=
  match get m k with Some _ => true | None => false end.

(** [m.set(k, v)]: an existing key keeps its position. *)
Fixpoint set (m : t) (k : string) (v : V) : t :=
  match m with
  | [] => [(k, v)]
  | (k', v') :: rest =>
      if String.eqb k k' then (k', v) :: rest else (k', v') :: set rest k v
  end.

(** [m.delete(k)]. *)
Fixpoint delete (m : t) (k : string) : t :=
  match m with
  | [] => []
  | (k', v') :: rest =>
      if String.eqb k k' then rest else (k', v') :: delete rest k
  end.

End Ops.
Arguments keys {V} m.
Arguments values {V} m.
Arguments get {V} m k.
Arguments has {V} m k.
Arguments set {V} m k v.
Arguments delete {V} m k.
End JsMap.

(** A [Set] of face ids, as [matchedFaceIds]. *)
Definition Set_has (s : list string) (k : string) : bool :=
  existsb (String.eqb k) s.
Definition Set_add (s : list string) (k : string) : list string :=
  if Set_has s k then s else s ++ [k].

(** The registry object: the fields the constructor sets. *)
Record FaceRegistry : Type := mkRegistry {
  trackedFaces : JsMap.t TrackedFace.t;
  nextFaceId : nat;
  maxFaces : nat;
  matchThreshold : float;
  maxFramesMissing : nat;
  maxFaceAge : Z
}.

(** [new FaceRegistry()]. *)
Definition constructor : FaceRegistry :=
  {| trackedFaces := [];
     nextFaceId := 1;
     maxFaces := 5;
     matchThreshold := 0.15;
     maxFramesMissing := 1;
     maxFaceAge := 2000 |}.

Definition set_trackedFaces (r : FaceRegistry) (m : JsMap.t TrackedFace.t)
  : FaceRegistry :=
  {| trackedFaces := m;
     nextFaceId := nextFaceId r;
     maxFaces := maxFaces r;
     matchThreshold := matchThreshold r;
     maxFramesMissing := maxFramesMissing r;
     maxFaceAge := maxFaceAge r |}.

Definition set_nextFaceId (r : FaceRegistry) (n : nat) : FaceRegistry :=
  {| trackedFaces := trackedFaces r;
     nextFaceId := n;
     maxFaces := maxFaces r;
     matchThreshold := matchThreshold r;
     maxFramesMissing := maxFramesMissing r;
     maxFaceAge := maxFaceAge r |}.

(** [`face_${n}`]. *)
Definition face_ (n : nat) : string :=
  ("face_" ++ NilEmpty.string_of_uint (Nat.to_uint n))%string.

(** ** Matching *)

Section Matching.
Local Open Scope float_scope.

(** [calculateDistance(face1, face2)]. *)
Definition calculateDistance (face1 : NewFace.t) (face2 : TrackedFace.t)
  : float :=
  let dx := x (NewFace.center face1) - x (TrackedFace.center face2) in
  let dy := y (NewFace.center face1) - y (TrackedFace.center face2) in
  Math.sqrt (dx * dx + dy * dy).

(** [calculateSimilarity(face1, face2)]: [face1] is the new detection,
    [face2] the tracked face. *)
Definition calculateSimilarity (r : FaceRegistry) (face1 : NewFace.t)
  (face2 : TrackedFace.t) : float :=
  let distance := calculateDistance face1 face2 in
  let distanceScore := Math.max 0 (1 - distance / matchThreshold r) in
  let sizeDiff :=
    Math.abs (NewFace.size face1 - TrackedFace.size face2)
    / Math.max (NewFace.size face1) (TrackedFace.size face2) in
  let sizeScore := Math.max 0 (1 - sizeDiff) in
  distanceScore * 0.7 + sizeScore * 0.3.

(** [{ faceId, trackedFace, score }]. *)
Record Match : Type := mkMatch {
  m_faceId : string;
  m_trackedFace : TrackedFace.t;
  score : float
}.

(** The body of the [for ... of this.trackedFaces] loop of [findBestMatch],
    on the loop variables [(bestMatch, bestScore)]. *)
Definition findBestMatch_step (r : FaceRegistry) (newFace : NewFace.t)
  (acc : option Match * float) (entry : string * TrackedFace.t)
  : option Match * float :=
  let '(bestMatch, bestScore) := acc in
  let '(faceId, trackedFace) := entry in
  let similarity := calculateSimilarity r newFace trackedFace in
  if (similarity >? bestScore) && (similarity >? 0.6)
  then (Some (mkMatch faceId trackedFace similarity), similarity)
  else (bestMatch, bestScore).

(** [findBestMatch(newFace)]. *)
Definition findBestMatch (r : FaceRegistry) (newFace : NewFace.t)
  : option Match :=
  fst (fold_left (findBestMatch_step r newFace) (trackedFaces r) (None, 0)).

End Matching.

(** [getNextMaskNumber()]: [usedMasks] is the list of the mask numbers of
    the tracked faces; the loop tries [i = 1 .. maxFaces]. *)
Definition usedMasks (r : FaceRegistry) : list nat :=
  List.map TrackedFace.maskNumber (JsMap.values (trackedFaces r)).

Definition usedMasks_has (used : list nat) (i : nat) : bool :=
  existsb (Nat.eqb i) used.

(** The [for (let i = ...; i <= maxFaces; i++)] loop, with [fuel] iterations
    left, falling through to the fallback [return 1]. *)
Fixpoint firstUnused (used : list nat) (i fuel : nat) : nat :=
  match fuel with
  | O => 1
  | S fuel' => if negb (usedMasks_has used i) then i
               else firstUnused used (S i) fuel'
  end.

Definition getNextMaskNumber (r : FaceRegistry) : nat :=
  firstUnused (usedMasks r) 1 (maxFaces r).

(** ** The extractors and [processDetections]

    [Math.atan2] is only specified up to an implementation-chosen
    approximation, so it is a parameter of the model.  [Date.now()] is read
    several times during one call; the model takes one reading [now] per
    call. *)

Section Registry.
Variable Math_atan2 : float -> float -> float.

Local Open Scope float_scope.

(** [calculateFaceCenter(landmarks)] (the method of [FaceRegistry]). *)
Definition calculateFaceCenter (landmarks : Landmarks)
  : completion (option Point) :=
  match landmarks with
  | None => Normal None
  | Some landmarks =>
    if (List.length landmarks =? 0)%nat then Normal None else
    try_catch
      (let leftEyeLeft := at_index landmarks 33 in
       let leftEyeRight := at_index landmarks 133 in
       let rightEyeLeft := at_index landmarks 362 in
       let rightEyeRight := at_index landmarks 263 in
       if falsy leftEyeLeft || falsy leftEyeRight
          || falsy rightEyeLeft || falsy rightEyeRight
       then Normal None
       else
         leftEyeCenter <- midpoint leftEyeLeft leftEyeRight ;;
         rightEyeCenter <- midpoint rightEyeLeft rightEyeRight ;;
         let eyeCenter :=
           {| x := (x leftEyeCenter + x rightEyeCenter) / 2;
              y := (y leftEyeCenter + y rightEyeCenter) / 2 |} in
         let noseTip := at_index landmarks 1 in
         eyeToNoseDistance <-
           (if falsy noseTip then Normal 0.03
            else noseTip_y <- prop noseTip y ;;
                 Normal (noseTip_y - y eyeCenter)) ;;
         Normal (Some {| x := x eyeCenter;
                         y := y eyeCenter + eyeToNoseDistance * 0.6 |}))
      (fun error => Normal None)
  end.

(** [calculateFaceSize(landmarks)] (the method of [FaceRegistry]). *)
Definition calculateFaceSize (landmarks : Landmarks) : completion float :=
  match landmarks with
  | None => Normal 0.2
  | Some landmarks =>
    if (List.length landmarks =? 0)%nat then Normal 0.2 else
    try_catch
      (let topPoint := at_index landmarks 10 in
       let bottomPoint := at_index landmarks 152 in
       let leftPoint := at_index landmarks 234 in
       let rightPoint := at_index landmarks 454 in
       if falsy topPoint || falsy bottomPoint
          || falsy leftPoint || falsy rightPoint
       then Normal 0.2
       else
         bottom_y <- prop bottomPoint y ;; top_y <- prop topPoint y ;;
         let height := Math.abs (bottom_y - top_y) in
         right_x <- prop rightPoint x ;; left_x <- prop leftPoint x ;;
         let width := Math.abs (right_x - left_x) in
         Normal (Math.max height width))
      (fun error => Normal 0.2)
  end.

(** [calculateHeadRotation(landmarks)] (the method of [FaceRegistry]): the
    eye landmarks are read without a guard, inside the [try]. *)
Definition calculateHeadRotation (landmarks : Landmarks) : completion float :=
  match landmarks with
  | None => Normal 0
  | Some landmarks =>
    if (List.length landmarks =? 0)%nat then Normal 0 else
    try_catch
      (let leftEyeLeft := at_index landmarks 33 in
       let leftEyeRight := at_index landmarks 133 in
       let rightEyeLeft := at_index landmarks 362 in
       let rightEyeRight := at_index landmarks 263 in
       leftEyeCenter <- midpoint leftEyeLeft leftEyeRight ;;
       rightEyeCenter <- midpoint rightEyeLeft rightEyeRight ;;
       let deltaX := x rightEyeCenter - x leftEyeCenter in
       let deltaY := y rightEyeCenter - y leftEyeCenter in
       Normal (Math_atan2 deltaY deltaX * (180 / Math.PI)))
      (fun error => Normal 0)
  end.

(** The object built by the callback of [currentFaces.map]; [center] may
    still be [null] here. *)
Record Extracted : Type := mkExtracted {
  e_landmarks : Landmarks;
  e_center : option Point;
  e_size : float;
  e_rotation : float;
  e_originalIndex : nat
}.

Definition extract (entry : nat * Landmarks) : completion Extracted :=
  let '(index, landmarks) := entry in
  center <- calculateFaceCenter landmarks ;;
  size <- calculateFaceSize landmarks ;;
  rotation <- calculateHeadRotation landmarks ;;
  Normal (mkExtracted landmarks center size rotation index).

(** [.filter(face => face.center !== null)]. *)
Definition centered (face : Extracted) : list NewFace.t :=
  match e_center face with
  | Some center =>
      [NewFace.mk (e_landmarks face) center (e_size face) (e_rotation face)
         (e_originalIndex face)]
  | None => []
  end.

(** [newDetections]. *)
Definition newDetections (currentFaces : list Landmarks)
  : completion (list NewFace.t) :=
  extracted <-
    mapM extract (combine (seq 0 (List.length currentFaces)) currentFaces) ;;
  Normal (flat_map centered extracted).

(** The variables of the matching loop: the registry, [results] and
    [matchedFaceIds]. *)
Record Loop : Type := mkLoop {
  registry : FaceRegistry;
  results : list Tagged.t;
  matchedFaceIds : list string
}.

(** [{ ...newFace, faceId, maskNumber }]. *)
Definition tag (newFace : NewFace.t) (faceId : string) (maskNumber : nat)
  : Tagged.t :=
  Tagged.mk (NewFace.landmarks newFace) (NewFace.center newFace)
    (NewFace.size newFace) (NewFace.rotation newFace)
    (NewFace.originalIndex newFace) faceId maskNumber.

(** The assignments to the matched tracked face. *)
Definition refresh (now : Z) (trackedFace : TrackedFace.t)
  (newFace : NewFace.t) : TrackedFace.t :=
  TrackedFace.mk (TrackedFace.faceId trackedFace)
    (TrackedFace.maskNumber trackedFace)
    (NewFace.center newFace) (NewFace.size newFace)
    (NewFace.rotation newFace) (NewFace.landmarks newFace)
    0 (TrackedFace.firstSeen trackedFace) now.

(** The object stored for a new face. *)
Definition newTrackedFace (now : Z) (faceId : string) (maskNumber : nat)
  (newFace : NewFace.t) : TrackedFace.t :=
  TrackedFace.mk faceId maskNumber
    (NewFace.center newFace) (NewFace.size newFace)
    (NewFace.rotation newFace) (NewFace.landmarks newFace)
    0 now now.

(** The body of [for (const newFace of newDetections)]. *)
Definition matchDetection (now : Z) (st : Loop) (newFace : NewFace.t)
  : Loop :=
  let r := registry st in
  match findBestMatch r newFace with
  | Some match_ =>
      let faceId := m_faceId match_ in
      let trackedFace := m_trackedFace match_ in
      mkLoop
        (set_trackedFaces r
           (JsMap.set (trackedFaces r) faceId
              (refresh now trackedFace newFace)))
        (results st
           ++ [tag newFace faceId (TrackedFace.maskNumber trackedFace)])
        (Set_add (matchedFaceIds st) faceId)
  | None =>
      let maskNumber := getNextMaskNumber r in
      let faceId := face_ (nextFaceId r) in
      mkLoop
        (set_trackedFaces (set_nextFaceId r (S (nextFaceId r)))
           (JsMap.set (trackedFaces r) faceId
              (newTrackedFace now faceId maskNumber newFace)))
        (results st ++ [tag newFace faceId maskNumber])
        (matchedFaceIds st)
  end.

(** [trackedFace.framesMissing++]. *)
Definition missedFrame (trackedFace : TrackedFace.t) : TrackedFace.t :=
  TrackedFace.mk (TrackedFace.faceId trackedFace)
    (TrackedFace.maskNumber trackedFace)
    (TrackedFace.center trackedFace) (TrackedFace.size trackedFace)
    (TrackedFace.rotation trackedFace) (TrackedFace.landmarks trackedFace)
    (S (TrackedFace.framesMissing trackedFace))
    (TrackedFace.firstSeen trackedFace) (TrackedFace.lastSeen trackedFace).

(** The body of the clean-up loop for one entry: the entry as the loop
    leaves it, and the ids it pushes on [facesToRemove]. *)
Definition sweepEntry (r : FaceRegistry) (matched : list string)
  (currentTime : Z) (entry : string * TrackedFace.t)
  : (string * TrackedFace.t) * list string :=
  let '(faceId, trackedFace) := entry in
  let missed := negb (Set_has matched faceId) in
  let trackedFace' := if missed then missedFrame trackedFace
                      else trackedFace in
  let tooLong :=
    if missed
       && (maxFramesMissing r <? TrackedFace.framesMissing trackedFace')%nat
    then [faceId] else [] in
  let faceAge := (currentTime - TrackedFace.lastSeen trackedFace')%Z in
  let stale := if (maxFaceAge r <? faceAge)%Z then [faceId] else [] in
  ((faceId, trackedFace'), tooLong ++ stale).

(** The clean-up loop followed by
    [facesToRemove.forEach(faceId => this.trackedFaces.delete(faceId))]. *)
Definition sweep (r : FaceRegistry) (matched : list string)
  (currentTime : Z) : FaceRegistry :=
  let swept := List.map (sweepEntry r matched currentTime) (trackedFaces r) in
  let facesToRemove := List.concat (List.map snd swept) in
  set_trackedFaces r
    (fold_left JsMap.delete facesToRemove
       (List.map fst swept)).

(** [if (this.trackedFaces.size > 0) this.trackedFaces.clear()]. *)
Definition clear (r : FaceRegistry) : FaceRegistry :=
  if (0 <? List.length (trackedFaces r))%nat then set_trackedFaces r [] else r.

(** The part of [processDetections] after [newDetections] is built: the
    matching loop, the clean-up, and the test on [currentFaces.length]. *)
Definition trackDetections (now : Z) (r : FaceRegistry)
  (currentFaces_length : nat) (detections : list NewFace.t)
  : FaceRegistry * list Tagged.t :=
  let st := fold_left (matchDetection now) detections (mkLoop r [] []) in
  let r' := sweep (registry st) (matchedFaceIds st) now in
  if (currentFaces_length =? 0)%nat
  then (clear r', [])
  else (r', results st).

(** [processDetections(currentFaces)] on the registry [r], at clock reading
    [now]: the registry after the call and the returned list. *)
Definition processDetections (now : Z) (r : FaceRegistry)
  (currentFaces : list Landmarks)
  : completion (FaceRegistry * list Tagged.t) :=
  detections <- newDetections currentFaces ;;
  Normal (trackDetections now r (List.length currentFaces) detections).

(** [processDetections(currentFaces)] for any argument: [None] is an
    argument that is not an array ([null], [undefined]).  The first use of
    the argument, [currentFaces.map], is outside any [try]: on such an
    argument it throws a TypeError, before the registry is touched. *)
Definition processDetections_any (now : Z) (r : FaceRegistry)
  (currentFaces : option (list Landmarks))
  : completion (FaceRegistry * list Tagged.t) :=
  match currentFaces with
  | Some currentFaces => processDetections now r currentFaces
  | None => Throw TypeError
  end.

(** [reset()]: of the two methods of that name in the class, the later one
    is the one the object has. *)
Definition reset (r : FaceRegistry) : FaceRegistry :=
  set_nextFaceId (set_trackedFaces r []) 1.

(** A session: the calls of [processDetections] on one registry, each with
    its clock reading and its detections. *)
Definition Frame : Type := (Z * list Landmarks)%type.

Fixpoint session (r : FaceRegistry) (frames : list Frame)
  : completion FaceRegistry :=
  match frames with
  | [] => Normal r
  | (now, currentFaces) :: rest =>
      out <- processDetections now r currentFaces ;;
      session (fst out) rest
  end.

End Registry.

(** ** Smoothing *)

(** The arithmetic [lerp] uses.  It is read twice: over the numbers of the
    program, and over the rationals, where no operation rounds. *)
Class Arithmetic (N : Type) : Type := {
  add : N -> N -> N;
  sub : N -> N -> N;
  mul : N -> N -> N
}.

#[export] Instance number_arithmetic : Arithmetic float :=
  {| add := PrimFloat.add; sub := PrimFloat.sub; mul := PrimFloat.mul |}.

#[export] Instance exact_arithmetic : Arithmetic Q :=
  {| add := Qplus; sub := Qminus; mul := Qmult |}.

(** [lerp = (a, b, t) => a + (b - a) * t]. *)
Definition lerp {N : Type} `{Arithmetic N} (a b t : N) : N :=
  add a (mul (sub b a) t).

(** The value cached for one identity after [n] frames in which the raw
    value is [target] each time, starting from the cached value [s0]. *)
Definition held {N : Type} `{Arithmetic N} (smoothingFactor target : N)
  (n : nat) (s0 : N) : N :=
  Nat.iter n (fun prev => lerp prev target smoothingFactor) s0.

(** The exact value of a number of the program: the rational a finite
    double stands for, sign times mantissa times a power of two.  The
    infinities and NaN stand for no rational and are given 0; statements
    about them are made with [SF_finite]. *)
Definition SF2Q (x : spec_float) : Q :=
  match x with
  | S754_finite s m e => (inject_Z (cond_Zopp s (Z.pos m)) * 2 ^ e)%Q
  | _ => 0%Q
  end.

Definition SF_finite (x : spec_float) : bool :=
  match x with
  | S754_zero _ | S754_finite _ _ _ => true
  | _ => false
  end.

Definition number_value (a : float) : Q := SF2Q (Prim2SF a).

(** What the rounding of the IEEE operations returns for the mantissa [m2]
    and the exponent [e2] it arrives at. *)
Definition rounded (s : bool) (m2 e2 : Z) : spec_float :=
  match m2 with
  | 0%Z => S754_zero s
  | Z.pos m =>
      if (e2 <=? emax - prec)%Z then S754_finite s m e2 else S754_infinity s
  | Z.neg _ => S754_nan
  end.

(** [canvasRect.width], [canvasRect.height], [videoElement.videoWidth] and
    [videoElement.videoHeight]. *)
Record Geometry : Type := mkGeometry {
  rect_width : float;
  rect_height : float;
  videoWidth : float;
  videoHeight : float
}.

(** An entry of [prevFaceData.current]. *)
Module PrevData.
Record t : Type := mk {
  faceId : string;
  x : float;
  y : float;
  rotation : float;
  size : float
}.
End PrevData.

(** An entry of [newSmoothFaces]. *)
Module SmoothData.
Record t : Type := mk {
  x : float;
  y : float;
  rotation : float;
  size : float;
  maskNumber : nat;
  faceId : string
}.
End SmoothData.

(** The raw values of one face: [pixelX], [pixelY], [mirroredRotation] and
    [scaledMaskSize]. *)
Record Projected : Type := mkProjected {
  pixelX : float;
  pixelY : float;
  mirroredRotation : float;
  scaledMaskSize : float
}.

Section Engine.
Local Open Scope float_scope.

Definition smoothingFactor : float := 0.2.

(** The projection of a face into the displayed video. *)
Definition project (g : Geometry) (faceData : Tagged.t) : Projected :=
  let faceCenter := Tagged.center faceData in
  let faceSize := Tagged.size faceData in
  let videoAspectRatio := videoWidth g / videoHeight g in
  let displayAspectRatio := rect_width g / rect_height g in
  let '(displayedVideoWidth, displayedVideoHeight, offsetX, offsetY) :=
    if videoAspectRatio >? displayAspectRatio
    then
      let displayedVideoHeight := rect_height g in
      let displayedVideoWidth := rect_height g * videoAspectRatio in
      (displayedVideoWidth, displayedVideoHeight,
       (displayedVideoWidth - rect_width g) / 2, 0)
    else
      let displayedVideoWidth := rect_width g in
      let displayedVideoHeight := rect_width g / videoAspectRatio in
      (displayedVideoWidth, displayedVideoHeight,
       0, (displayedVideoHeight - rect_height g) / 2) in
  let mirroredX := 1 - x faceCenter in
  let baseMaskSize := faceSize * displayedVideoHeight * 2.5 in
  let maskSize := Math.max 100 (Math.min 800 baseMaskSize) in
  {| pixelX := mirroredX * displayedVideoWidth - offsetX;
     pixelY := y faceCenter * displayedVideoHeight - offsetY;
     mirroredRotation := - Tagged.rotation faceData;
     scaledMaskSize := maskSize |}.

(** [prevFaceData.current.find(data => data.faceId === faceData.faceId)]. *)
Definition findPrev (prevFaceData : list PrevData.t) (faceId : string)
  : option PrevData.t :=
  find (fun data => String.eqb (PrevData.faceId data) faceId) prevFaceData.

(** The callback of [trackedFaces.map] in [applySmoothInterpolation].  An
    entry of [trackedFaces] always has a centre, so the callback never
    returns [null] and the [filter] after the [map] keeps every entry. *)
Definition smooth (prevFaceData : list PrevData.t) (g : Geometry)
  (faceData : Tagged.t) : SmoothData.t :=
  let raw := project g faceData in
  let maskNumber := Tagged.maskNumber faceData in
  match findPrev prevFaceData (Tagged.faceId faceData) with
  | Some prevData =>
      SmoothData.mk
        (lerp (PrevData.x prevData) (pixelX raw) smoothingFactor)
        (lerp (PrevData.y prevData) (pixelY raw) smoothingFactor)
        (lerp (PrevData.rotation prevData) (mirroredRotation raw)
           smoothingFactor)
        (lerp (PrevData.size prevData) (scaledMaskSize raw) smoothingFactor)
        maskNumber (Tagged.faceId faceData)
  | None =>
      SmoothData.mk (pixelX raw) (pixelY raw) (mirroredRotation raw)
        (scaledMaskSize raw) maskNumber (Tagged.faceId faceData)
  end.

(** The entry of [prevFaceData.current] kept for a smoothed face. *)
Definition remember (face : SmoothData.t) : PrevData.t :=
  PrevData.mk (SmoothData.faceId face) (SmoothData.x face)
    (SmoothData.y face) (SmoothData.rotation face) (SmoothData.size face).

(** The part of [applySmoothInterpolation] after the call of
    [processDetections]: the new [prevFaceData.current] and the list handed
    to [setSmoothFaces]. *)
Definition smoothFaces (prevFaceData : list PrevData.t) (g : Geometry)
  (trackedFaces : list Tagged.t) : list PrevData.t * list SmoothData.t :=
  let newSmoothFaces := List.map (smooth prevFaceData g) trackedFaces in
  let prevFaceData' := List.map remember newSmoothFaces in
  (if (List.length trackedFaces =? 0)%nat then [] else prevFaceData',
   newSmoothFaces).

End Engine.

Section Interpolation.
Variable Math_atan2 : float -> float -> float.

(** [applySmoothInterpolation(currentFaces)]: the registry and
    [prevFaceData.current] after the call, and the smoothed faces. *)
Definition applySmoothInterpolation (now : Z) (g : Geometry)
  (state : FaceRegistry * list PrevData.t) (currentFaces : list Landmarks)
  : completion ((FaceRegistry * list PrevData.t) * list SmoothData.t) :=
  let '(r, prevFaceData) := state in
  out <- processDetections Math_atan2 now r currentFaces ;;
  let '(prevFaceData', newSmoothFaces) :=
    smoothFaces prevFaceData g (snd out) in
  Normal ((fst out, prevFaceData'), newSmoothFaces).

(** Successive calls of [applySmoothInterpolation], one for each frame, on
    the same display: the state after them and the list each call hands to
    [setSmoothFaces]. *)
Fixpoint smoothSession (g : Geometry) (frames : list Frame)
  (state : FaceRegistry * list PrevData.t)
  : completion ((FaceRegistry * list PrevData.t)
                * list (list SmoothData.t)) :=
  match frames with
  | [] => Normal (state, [])
  | (now, currentFaces) :: rest =>
      out <- applySmoothInterpolation now g state currentFaces ;;
      later <- smoothSession g rest (fst out) ;;
      Normal (fst later, snd out :: snd later)
  end.

End Interpolation.

(** ** Example inputs

    A detector-shaped face: 478 landmarks, the eye corners level at height
    [cy] and [eye] to each side of [cx], the nose tip and every other point at
    [(cx, cy)], the forehead, chin and cheek points [half] away from it. *)

Definition landmarkAt (cx cy half eye : float) (i : nat) : Landmark :=
  Some (if (i =? 10)%nat then mkPoint cx (cy - half)
        else if (i =? 152)%nat then mkPoint cx (cy + half)
        else if (i =? 234)%nat then mkPoint (cx - half) cy
        else if (i =? 454)%nat then mkPoint (cx + half) cy
        else if (i =? 33)%nat || (i =? 133)%nat then mkPoint (cx - eye) cy
        else if (i =? 362)%nat || (i =? 263)%nat then mkPoint (cx + eye) cy
        else mkPoint cx cy)%float.

Definition faceAt (cx cy : float) : Landmarks :=
  Some (List.map (landmarkAt cx cy 0.125 0.03125) (seq 0 478)).

(** The same face with no nose tip: a hole at index 1. *)
Definition noseless (cx cy : float) : Landmarks :=
  Some (List.map
          (fun i => if (i =? 1)%nat then None
                    else landmarkAt cx cy 0.125 0.03125 i)
          (seq 0 478)).

(** In every example below the eyes are level, so each call of [Math.atan2]
    is [Math.atan2(+0, deltaX)] with [deltaX] positive, whose value the
    language fixes to [+0]. *)
Definition atan2_level (deltaY deltaX : float) : float := 0%float.

Definition faceA : Landmarks := faceAt 0.125 0.25.
Definition faceB : Landmarks := faceAt 0.375 0.25.
Definition faceC : Landmarks := faceAt 0.625 0.25.
Definition faceD : Landmarks := faceAt 0.875 0.25.
Definition faceE : Landmarks := faceAt 0.125 0.75.
Definition faceF : Landmarks := faceAt 0.375 0.75.

(** A detection that yields no centre: an empty landmark array. *)
Definition noFace : Landmarks := Some [].

(** The detection the extractors build from [faceA], and the loop state
    after a first frame that held only that face. *)
Definition detectionA : NewFace.t :=
  NewFace.mk faceA (mkPoint 0.125 0.25) 0.25 0 0.

Definition afterFaceA : FaceRegistry :=
  fst (trackDetections 0 constructor 1 [detectionA]).

Definition matchA : Match :=
  mkMatch "face_1" (missedFrame (newTrackedFace 0 "face_1" 1 detectionA)) 1.

(** The detection the extractors build from [faceB]. *)
Definition detectionB : NewFace.t :=
  NewFace.mk faceB (mkPoint 0.375 0.25) 0.25 0 1.

(** The same face a little to the right: within matching range of a
    tracked [faceA]. *)
Definition faceA' : Landmarks := faceAt 0.1328125 0.25.

(** The session that overflows the masks with at most five faces in a
    frame: five faces tracked over two frames, then the fifth replaced by a
    face elsewhere while its tracked face is still kept. *)
Definition overflowSession : list Frame :=
  [ (0%Z, [faceA; faceB; faceC; faceD; faceE]);
    (33%Z, [faceA; faceB; faceC; faceD; faceE]);
    (66%Z, [faceA; faceB; faceC; faceD; faceF]) ].

(** The overflow session with its last frame repeated: the face with the
    second mask 1, [face_6], has been matched once. *)
Definition sharedMaskSession : list Frame :=
  overflowSession ++ [(99%Z, [faceA; faceB; faceC; faceD; faceF])].

(** Two faces tracked over two frames, then only the first one seen. *)
Definition departureSession : list Frame :=
  [ (0%Z, [faceA; faceB]); (33%Z, [faceA; faceB]); (66%Z, [faceA]) ].

(** The tracked [faceB] after [departureSession]: missing for one frame. *)
Definition departedB : TrackedFace.t :=
  missedFrame (refresh 33 (newTrackedFace 0 "face_2" 2 detectionB) detectionB).

(** The session that tracks [faceA] over two frames. *)
Definition steadySession : list Frame :=
  [ (0%Z, [faceA]); (33%Z, [faceA]) ].

(** The tracked [faceA] after [steadySession]. *)
Definition steadyA : TrackedFace.t :=
  refresh 33 (newTrackedFace 0 "face_1" 1 detectionA) detectionA.

Definition afterSteady : FaceRegistry :=
  mkRegistry [("face_1"%string, steadyA)] 2 5 0.15 1 2000.

(** A display as large as the video, a cache that holds [face_1], and the
    entry [processDetections] returns for [faceA]. *)
Definition sameSize : Geometry := mkGeometry 640 480 640 480.
Definition cachedA : PrevData.t := PrevData.mk "face_1" 500 100 0 250.
Definition taggedA : Tagged.t := tag detectionA "face_1" 1.

(** ** Predicates and measures of the properties *)

(** What the loop of [findBestMatch] knows after the entries [seen]. *)
Definition best_so_far (r : FaceRegistry) (f : NewFace.t)
  (seen : JsMap.t TrackedFace.t) (acc : option Match * float) : Prop :=
  match fst acc with
  | None =>
      snd acc = 0%float
      /\ forall id t, In (id, t) seen ->
           (calculateSimilarity r f t >? 0.6)%float = false
  | Some m =>
      In (m_faceId m, m_trackedFace m) seen
      /\ score m = calculateSimilarity r f (m_trackedFace m)
      /\ snd acc = score m
      /\ (score m >? 0.6)%float = true
      /\ forall id t, In (id, t) seen ->
           (calculateSimilarity r f t >? score m)%float = false
  end.

(** Every key of the map was made from a counter value already passed. *)
Definition ids_below (r : FaceRegistry) : Prop :=
  forall k, In k (JsMap.keys (trackedFaces r)) ->
    exists n, n < nextFaceId r /\ k = face_ n.

(** The mask numbers of a map of tracked faces, in map order. *)
Definition masksOf (m : JsMap.t TrackedFace.t) : list nat :=
  List.map TrackedFace.maskNumber (JsMap.values m).

(** The mask numbers other than the fallback 1. *)
Definition aboveOne (masks : list nat) : list nat :=
  filter (fun m => negb (m =? 1)%nat) masks.

(** What every registry of a session satisfies: one entry per key, keys
    made from passed counter values, at least one mask, every mask number
    within [1 .. maxFaces], and no mask number other than 1 carried by two
    tracked faces. *)
Record consistent (r : FaceRegistry) : Prop := mkConsistent {
  keys_unique : NoDup (JsMap.keys (trackedFaces r));
  keys_issued : ids_below r;
  some_mask : 1 <= maxFaces r;
  masks_in_range : forall m, In m (usedMasks r) -> 1 <= m <= maxFaces r;
  only_one_shared : NoDup (aboveOne (usedMasks r))
}.
Arguments keys_unique {r} _.
Arguments keys_issued {r} _.
Arguments some_mask {r} _.
Arguments masks_in_range {r} _ m _.
Arguments only_one_shared {r} _.

(** The settings of the constructor stay as they are. *)
Definition same_settings (r r' : FaceRegistry) : Prop :=
  maxFaces r' = maxFaces r
  /\ matchThreshold r' = matchThreshold r
  /\ maxFramesMissing r' = maxFramesMissing r
  /\ maxFaceAge r' = maxFaceAge r.

(** The map as the clean-up loop leaves it, before the deletions. *)
Definition aged (r : FaceRegistry) (matched : list string) (now : Z)
  : JsMap.t TrackedFace.t :=
  List.map fst (List.map (sweepEntry r matched now) (trackedFaces r)).

(** The ids the clean-up loop pushes on [facesToRemove]. *)
Definition facesToRemove (r : FaceRegistry) (matched : list string) (now : Z)
  : list string :=
  List.concat
    (List.map snd (List.map (sweepEntry r matched now) (trackedFaces r))).

(** The tracked faces seen in the latest call: [framesMissing = 0]. *)
Definition unmissed (m : JsMap.t TrackedFace.t) : nat :=
  List.length
    (filter (fun e => (TrackedFace.framesMissing (snd e) =? 0)%nat) m).

(** An entry the clean-up loop cannot remove for missing frames when
    [maxFramesMissing = 1]: matched in this call, or not missing before. *)
Definition keepable (matched : list string) (e : string * TrackedFace.t)
  : bool :=
  Set_has matched (fst e) || (TrackedFace.framesMissing (snd e) =? 0)%nat.

(** The ids a call matched: [matchedFaceIds] when the matching loop ends. *)
Definition matchedIn (now : Z) (r : FaceRegistry) (ds : list NewFace.t)
  : list string :=
  matchedFaceIds (fold_left (matchDetection now) ds (mkLoop r [] [])).

(** One frame with the single face [faceData]: the new cache. *)
Definition nextCache (g : Geometry) (faceData : Tagged.t)
  (prevFaceData : list PrevData.t) : list PrevData.t :=
  fst (smoothFaces prevFaceData g [faceData]).

(** Every mask number of [1 .. maxFaces] is carried by a tracked face. *)
Definition poolFull (r : FaceRegistry) : bool :=
  forallb (usedMasks_has (usedMasks r)) (seq 1 (maxFaces r)).

(** Some detection of the frame is given a new tracked face while every
    mask number is in use. *)
Fixpoint overflowsIn (now : Z) (detections : list NewFace.t) (st : Loop)
  : bool :=
  match detections with
  | [] => false
  | newFace :: rest =>
      match findBestMatch (registry st) newFace with
      | Some _ => false
      | None => poolFull (registry st)
      end
      || overflowsIn now rest (matchDetection now st newFace)
  end.

Section Overflow.
Variable Math_atan2 : float -> float -> float.

(** Some call of the session gives a new tracked face the fallback mask
    number: it creates the face while every mask number is in use. *)
Fixpoint sessionOverflows (r : FaceRegistry) (frames : list Frame) : bool :=
  match frames with
  | [] => false
  | (now, currentFaces) :: rest =>
      match newDetections Math_atan2 currentFaces with
      | Normal detections =>
          overflowsIn now detections (mkLoop r [] [])
          || sessionOverflows
               (fst (trackDetections now r (List.length currentFaces)
                       detections))
               rest
      | Throw _ => false
      end
  end.

End Overflow.

(** A cached pose and a face far outside the picture, both near the
    largest number. *)
Definition farCache : PrevData.t := PrevData.mk "face_1" (-1e308) 100 0 250.
Definition farFace : Tagged.t :=
  tag (NewFace.mk faceA (mkPoint (-1.5e305) 0.25) 0.25 0 0) "face_1" 1.

(** ** The rest of the registry and of the component *)

(** An entry of [maskAssignments] in the object [getStats] returns:
    [{ id, mask, missing }]. *)
Module MaskAssignment.
Record t : Type := mk {
  id : string;
  mask : nat;
  missing : nat
}.
End MaskAssignment.

(** The object [getStats] returns. *)
Module Stats.
Record t : Type := mk {
  trackedFaces : nat;
  faceIds : list string;
  maskAssignments : list MaskAssignment.t
}.
End Stats.

(** [getStats()]. *)
Definition getStats (r : FaceRegistry) : Stats.t :=
  Stats.mk
    (List.length (trackedFaces r))
    (JsMap.keys (trackedFaces r))
    (List.map
       (fun f => MaskAssignment.mk (TrackedFace.faceId f)
                   (TrackedFace.maskNumber f) (TrackedFace.framesMissing f))
       (JsMap.values (trackedFaces r))).

(** The helpers the component [PhotoBooth] declares beside the registry's
    methods of the same names. *)
Module PhotoBooth.
Section Helpers.
Variable Math_atan2 : float -> float -> float.
Local Open Scope float_scope.

(** [calculateHeadRotation(landmarks)] of the component: the eye landmarks
    are read with neither a guard nor a [try]. *)
Definition calculateHeadRotation (landmarks : Landmarks) : completion float :=
  match landmarks with
  | None => Normal 0
  | Some landmarks =>
    if (List.length landmarks =? 0)%nat then Normal 0 else
    let leftEyeLeft := at_index landmarks 33 in
    let leftEyeRight := at_index landmarks 133 in
    let rightEyeLeft := at_index landmarks 362 in
    let rightEyeRight := at_index landmarks 263 in
    leftEyeCenter <- midpoint leftEyeLeft leftEyeRight ;;
    rightEyeCenter <- midpoint rightEyeLeft rightEyeRight ;;
    let deltaX := x rightEyeCenter - x leftEyeCenter in
    let deltaY := y rightEyeCenter - y leftEyeCenter in
    let rotationAngle := Math_atan2 deltaY deltaX * (180 / Math.PI) in
    Normal rotationAngle
  end.

(** [calculateFaceCenter(landmarks)] of the component. *)
Definition calculateFaceCenter (landmarks : Landmarks)
  : completion (option Point) :=
  match landmarks with
  | None => Normal None
  | Some landmarks =>
    if (List.length landmarks =? 0)%nat then Normal None else
    try_catch
      (let leftEyeLeft := at_index landmarks 33 in
       let leftEyeRight := at_index landmarks 133 in
       let rightEyeLeft := at_index landmarks 362 in
       let rightEyeRight := at_index landmarks 263 in
       if falsy leftEyeLeft || falsy leftEyeRight
          || falsy rightEyeLeft || falsy rightEyeRight
       then Normal None
       else
         leftEyeCenter <- midpoint leftEyeLeft leftEyeRight ;;
         rightEyeCenter <- midpoint rightEyeLeft rightEyeRight ;;
         let eyeCenter :=
           {| x := (x leftEyeCenter + x rightEyeCenter) / 2;
              y := (y leftEyeCenter + y rightEyeCenter) / 2 |} in
         let noseTip := at_index landmarks 1 in
         eyeToNoseDistance <-
           (if falsy noseTip then Normal 0.03
            else noseTip_y <- prop noseTip y ;;
                 Normal (noseTip_y - y eyeCenter)) ;;
         let center := {| x := x eyeCenter;
                          y := y eyeCenter + eyeToNoseDistance * 0.6 |} in
         Normal (Some center))
      (fun error => Normal None)
  end.

(** [calculateFaceSize(landmarks)] of the component: the default is 200. *)
Definition calculateFaceSize (landmarks : Landmarks) : completion float :=
  match landmarks with
  | None => Normal 200
  | Some landmarks =>
    if (List.length landmarks =? 0)%nat then Normal 200 else
    try_catch
      (let topPoint := at_index landmarks 10 in
       let bottomPoint := at_index landmarks 152 in
       let leftPoint := at_index landmarks 234 in
       let rightPoint := at_index landmarks 454 in
       if falsy topPoint || falsy bottomPoint
          || falsy leftPoint || falsy rightPoint
       then Normal 200
       else
         bottom_y <- prop bottomPoint y ;; top_y <- prop topPoint y ;;
         let height := Math.abs (bottom_y - top_y) in
         right_x <- prop rightPoint x ;; left_x <- prop leftPoint x ;;
         let width := Math.abs (right_x - left_x) in
         let size := Math.max height width in
         Normal size)
      (fun error => Normal 200)
  end.

End Helpers.
End PhotoBooth.

(** ** The state of the component

    The values the component keeps between frames: the registry
    ([faceRegistryRef.current]), [prevFaceData.current], and the React
    state the functions below set. *)
Record AppState : Type := mkApp {
  faceRegistry : FaceRegistry;
  prevFaceData : list PrevData.t;
  app_smoothFaces : list SmoothData.t;
  faces : list Landmarks;
  currentScreen : string;
  countdown : nat;
  capturedImage : option string;
  capturedVideoOnly : option string;
  capturedMaskData : list SmoothData.t;
  firebaseUrl : string
}.

Section FrameLoop.
Variable Math_atan2 : float -> float -> float.

(** The part of [detectFaces] that follows the detector's answer
    [results], inside its [try]: [results.faceLandmarks] may be
    [undefined].  Drawing the video and scheduling the next frame are left
    out; they touch none of the values of [AppState]. *)
Definition detectFaces (now : Z) (g : Geometry)
  (results_faceLandmarks : option (list Landmarks)) (s : AppState)
  : AppState :=
  let faceLandmarks :=
    match results_faceLandmarks with
    | Some l => l
    | None => []
    end in
  let s1 :=
    mkApp (faceRegistry s) (prevFaceData s) (app_smoothFaces s)
      faceLandmarks (currentScreen s) (countdown s) (capturedImage s)
      (capturedVideoOnly s) (capturedMaskData s) (firebaseUrl s) in
  if (0 <? List.length faceLandmarks)%nat
  then
    match applySmoothInterpolation Math_atan2 now g
            (faceRegistry s1, prevFaceData s1) faceLandmarks with
    | Normal ((r', prevFaceData'), newSmoothFaces) =>
        mkApp r' prevFaceData' newSmoothFaces
          faceLandmarks (currentScreen s) (countdown s) (capturedImage s)
          (capturedVideoOnly s) (capturedMaskData s) (firebaseUrl s)
    | Throw error => s1
    end
  else
    mkApp (faceRegistry s) (prevFaceData s) []
      faceLandmarks (currentScreen s) (countdown s) (capturedImage s)
      (capturedVideoOnly s) (capturedMaskData s) (firebaseUrl s).

(** The frames of the detection loop, each with its clock reading, the
    geometry of the display and the detector's answer. *)
Definition LoopFrame : Type := (Z * Geometry * option (list Landmarks))%type.

Definition detectionLoop (frames : list LoopFrame) (s : AppState)
  : AppState :=
  fold_left
    (fun s frame =>
       let '(now, g, results_faceLandmarks) := frame in
       detectFaces now g results_faceLandmarks s)
    frames s.

End FrameLoop.

(** [takeNewPhoto()]. *)
Definition takeNewPhoto (s : AppState) : AppState :=
  mkApp (reset (faceRegistry s)) (prevFaceData s) []
    (faces s) "camera" (countdown s) None None [] "".

(** [`/mask/mask${maskNumber}.png`], the image drawn for a smoothed face. *)
Definition maskSrc (faceData : SmoothData.t) : string :=
  ("/mask/mask"
   ++ NilEmpty.string_of_uint (Nat.to_uint (SmoothData.maskNumber faceData))
   ++ ".png")%string.

(** ** The photo flow of the component

    The handlers are embedded as functions on [AppState].  What an awaited
    library call ([html2canvas], [uploadString], [getDownloadURL]) does is
    outside the program: its outcome is an input. *)

(** The outcome of an awaited promise. *)
Inductive Settled (A : Type) : Type :=
| Fulfilled (v : A)
| Rejected.
Arguments Fulfilled {A} v.
Arguments Rejected {A}.

(** The state a new component starts with. *)
Definition initialApp : AppState :=
  mkApp constructor [] [] [] "camera" 5 None None [] "".

Definition setCurrentScreen (screen : string) (s : AppState) : AppState :=
  mkApp (faceRegistry s) (prevFaceData s) (app_smoothFaces s) (faces s)
    screen (countdown s) (capturedImage s) (capturedVideoOnly s)
    (capturedMaskData s) (firebaseUrl s).

Definition setCountdown (value : nat) (s : AppState) : AppState :=
  mkApp (faceRegistry s) (prevFaceData s) (app_smoothFaces s) (faces s)
    (currentScreen s) value (capturedImage s) (capturedVideoOnly s)
    (capturedMaskData s) (firebaseUrl s).

Definition setFirebaseUrl (url : string) (s : AppState) : AppState :=
  mkApp (faceRegistry s) (prevFaceData s) (app_smoothFaces s) (faces s)
    (currentScreen s) (countdown s) (capturedImage s) (capturedVideoOnly s)
    (capturedMaskData s) url.

(** [startPhotoCapture()], up to the call of [startCountdown]. *)
Definition startPhotoCapture (s : AppState) : AppState :=
  setCountdown 5 (setCurrentScreen "countdown" s).

(** The updater [startCountdown] hands to [setCountdown]: the new value,
    and whether it cleared the interval and scheduled the capture. *)
Definition countdownUpdater (prev : nat) : nat * bool :=
  if (prev <=? 1)%nat then (0, true) else (prev - 1, false).

(** The interval of [startCountdown] over [periods] timer periods, the
    updater run once in each until the interval is cleared: the value of
    [countdown] and the number of captures scheduled. *)
Fixpoint countdownInterval (periods prev : nat) : nat * nat :=
  match periods with
  | O => (prev, 0)
  | S periods' =>
      let '(value, cleared) := countdownUpdater prev in
      if cleared then (value, 1) else countdownInterval periods' value
  end.

(** [capturePhoto()] in its parts: the first statement, the statements
    after the capture area is rendered to [imageData], the [catch], and
    the timer that shows the result. *)
Definition captureStarted (s : AppState) : AppState :=
  setCurrentScreen "loading" s.

Definition captureRendered (imageData : string) (s : AppState) : AppState :=
  mkApp (faceRegistry s) (prevFaceData s) (app_smoothFaces s) (faces s)
    (currentScreen s) (countdown s) (Some imageData) (Some imageData)
    [] (firebaseUrl s).

Definition captureFailed (s : AppState) : AppState :=
  setCurrentScreen "camera" s.

Definition resultTimer (s : AppState) : AppState :=
  setCurrentScreen "result" s.

(** [s.split(separator)] for a separator of one character. *)
Fixpoint split (separator : ascii) (s : string) : list string :=
  match s with
  | EmptyString => [EmptyString]
  | String c rest =>
      if Ascii.eqb c separator then EmptyString :: split separator rest
      else match split separator rest with
           | head :: tail => String c head :: tail
           | [] => [String c EmptyString]
           end
  end.

(** [`photo-${timestamp}.png`] and [`photos/${fileName}`]. *)
Definition fileName (timestamp : Z) : string :=
  ("photo-" ++ NilZero.string_of_int (Z.to_int timestamp) ++ ".png")%string.

Definition storagePath (timestamp : Z) : string :=
  ("photos/" ++ fileName timestamp)%string.

(** [imageData.split(',')[1]]; [None] is [undefined]. *)
Definition base64Data (imageData : string) : option string :=
  nth_error (split "," imageData) 1.

Definition placeholderUrl : string :=
  "https://placeholder-image-url.com/photo.png".

Section Upload.
Variable uploadString : string -> option string -> Settled unit.
Variable getDownloadURL : string -> Settled string.

(** [uploadToFirebase(imageData)], with [timestamp] the reading of
    [Date.now()]. *)
Definition uploadToFirebase (timestamp : Z) (imageData : string)
  (s : AppState) : AppState :=
  let storageRef := storagePath timestamp in
  match uploadString storageRef (base64Data imageData) with
  | Fulfilled _ =>
      match getDownloadURL storageRef with
      | Fulfilled downloadURL => setFirebaseUrl downloadURL s
      | Rejected => setFirebaseUrl placeholderUrl s
      end
  | Rejected => setFirebaseUrl placeholderUrl s
  end.

End Upload.

(** The clean-up of the effect that starts the detection loop. *)
Definition effectCleanup (s : AppState) : AppState :=
  mkApp (reset (faceRegistry s)) (prevFaceData s) (app_smoothFaces s)
    (faces s) (currentScreen s) (countdown s) (capturedImage s)
    (capturedVideoOnly s) (capturedMaskData s) (firebaseUrl s).

(** The screens [renderScreen] chooses from. *)
Inductive Screen : Type :=
| CameraScreen | CountdownScreen | LoadingScreen | ResultScreen.

(** [renderScreen()]: the [default] of the [switch] is the camera
    screen. *)
Definition renderScreen (s : AppState) : Screen :=
  if String.eqb (currentScreen s) "camera" then CameraScreen
  else if String.eqb (currentScreen s) "countdown" then CountdownScreen
  else if String.eqb (currentScreen s) "loading" then LoadingScreen
  else if String.eqb (currentScreen s) "result" then ResultScreen
  else CameraScreen.

(** What can happen to the component, one event for each piece of code
    that runs without interruption. *)
Inductive Event : Type :=
| DetectFaces (now : Z) (g : Geometry)
    (results_faceLandmarks : option (list Landmarks))
| StartPhotoCapture
| CountdownTick
| CaptureStarted
| CaptureRendered (imageData : string)
| CaptureFailed
| ResultTimer
| UploadToFirebase (timestamp : Z) (imageData : string)
| TakeNewPhoto
| EffectCleanup.

Section Flow.
Variable Math_atan2 : float -> float -> float.
Variable uploadString : string -> option string -> Settled unit.
Variable getDownloadURL : string -> Settled string.

Definition step (s : AppState) (event : Event) : AppState :=
  match event with
  | DetectFaces now g results_faceLandmarks =>
      detectFaces Math_atan2 now g results_faceLandmarks s
  | StartPhotoCapture => startPhotoCapture s
  | CountdownTick => setCountdown (fst (countdownUpdater (countdown s))) s
  | CaptureStarted => captureStarted s
  | CaptureRendered imageData => captureRendered imageData s
  | CaptureFailed => captureFailed s
  | ResultTimer => resultTimer s
  | UploadToFirebase timestamp imageData =>
      uploadToFirebase uploadString getDownloadURL timestamp imageData s
  | TakeNewPhoto => takeNewPhoto s
  | EffectCleanup => effectCleanup s
  end.

(** The component after the events [events], in any order. *)
Definition run (events : list Event) : AppState :=
  fold_left step events initialApp.

End Flow.

(** What holds of the flow in every state: a screen that [renderScreen]
    names, a countdown of at most 5, the same image in [capturedImage] and
    [capturedVideoOnly], no captured mask data, and a link that is empty,
    the placeholder, or what [getDownloadURL] answered for a path of
    [photos/]. *)
Definition flow_invariant (getDownloadURL : string -> Settled string)
  (s : AppState) : Prop :=
  In (currentScreen s) ["camera"; "countdown"; "loading"; "result"]%string
  /\ countdown s <= 5
  /\ capturedVideoOnly s = capturedImage s
  /\ capturedMaskData s = []
  /\ (firebaseUrl s = ""%string
      \/ firebaseUrl s = placeholderUrl
      \/ exists timestamp,
           getDownloadURL (storagePath timestamp)
           = Fulfilled (firebaseUrl s)).

(** What holds of the overlay in every state: a consistent registry with
    the five masks of the constructor, and smoothed faces whose mask
    numbers are among them. *)
Definition overlay_invariant (s : AppState) : Prop :=
  consistent (faceRegistry s)
  /\ maxFaces (faceRegistry s) = 5
  /\ forall faceData, In faceData (app_smoothFaces s) ->
       1 <= SmoothData.maskNumber faceData <= 5.

(** ** Predicates of the further properties *)

(** Every tracked face is stored under its own [faceId] and has missed at
    most [maxFramesMissing] frames. *)
Definition well_kept (r : FaceRegistry) : Prop :=
  forall k t, In (k, t) (trackedFaces r) ->
    TrackedFace.faceId t = k
    /\ TrackedFace.framesMissing t <= maxFramesMissing r.

(** What the matching loop keeps true of an entry of [results]: its id is
    tracked, with the entry's mask number, seen at this call's clock
    reading and not counted as missing. *)
Definition result_tracked (now : Z) (st : Loop) (entry : Tagged.t) : Prop :=
  exists t,
    In (Tagged.faceId entry, t) (trackedFaces (registry st))
    /\ TrackedFace.maskNumber t = Tagged.maskNumber entry
    /\ TrackedFace.lastSeen t = now
    /\ TrackedFace.framesMissing t = 0.

(** The component on the camera screen after [steadySession], with a
    cached pose for [face_1]. *)
Definition boothAfterSteady : AppState :=
  mkApp afterSteady [cachedA] [] [] "camera" 0 None None [] "".

(** The [...newFace] part of an entry of [results]. *)
Definition detectionOf (entry : Tagged.t) : NewFace.t :=
  NewFace.mk (Tagged.landmarks entry) (Tagged.center entry)
    (Tagged.size entry) (Tagged.rotation entry) (Tagged.originalIndex entry).

(** [calculateFaceCenter] gives a centre. *)
Definition hasCentre (landmarks : Landmarks) : bool :=
  match calculateFaceCenter landmarks with
  | Normal (Some _) => true
  | _ => false
  end.

(** Calls of [processDetections] whose frames each yield one detection:
    the registry after them and the lists returned. *)
Fixpoint follow (r : FaceRegistry) (frames : list (Z * NewFace.t))
  : FaceRegistry * list (list Tagged.t) :=
  match frames with
  | [] => (r, [])
  | (now, newFace) :: rest =>
      let out := trackDetections now r 1 [newFace] in
      let later := follow (fst out) rest in
      (fst later, snd out :: snd later)
  end.

(** Each detection scores above 0.6 against the tracked face as the frame
    before left it. *)
Fixpoint steady (r : FaceRegistry) (trackedFace : TrackedFace.t)
  (frames : list (Z * NewFace.t)) : Prop :=
  match frames with
  | [] => True
  | (now, newFace) :: rest =>
      (calculateSimilarity r newFace trackedFace >? 0.6)%float = true
      /\ steady r (refresh now trackedFace newFace) rest
  end.

(** * Properties *)

(** ** Numbers *)

Lemma SFltb_trans (a b c : spec_float) :
  SFltb a b = true -> SFltb b c = true -> SFltb a c = true.
Proof.
  unfold SFltb.
  destruct a as [[]|[]| |[] ma ea], b as [[]|[]| |[] mb eb],
    c as [[]|[]| |[] mc ec]; simpl; try discriminate; try reflexivity;
    change (PosDef.Pos.compare_cont Eq) with Pos.compare;
    destruct (Z.compare_spec ea eb), (Z.compare_spec eb ec),
      (Z.compare_spec ea ec); try lia; try discriminate; try reflexivity;
    subst;
    destruct (Pos.compare_spec ma mb), (Pos.compare_spec mb mc),
      (Pos.compare_spec ma mc); simpl;
    try lia; try discriminate; try reflexivity.
Qed.

(** [>] on numbers is transitive (comparisons with NaN are false). *)
Lemma gt_trans (a b c : float) :
  (a >? b)%float = true -> (b >? c)%float = true -> (a >? c)%float = true.
Proof.
  unfold gt. rewrite !ltb_spec. intros Hab Hbc.
  exact (SFltb_trans _ _ _ Hbc Hab).
Qed.

Lemma SFmul_comm (prec emax : Z) (a b : spec_float) :
  SFmul prec emax a b = SFmul prec emax b a.
Proof.
  destruct a as [sa|sa| |sa ma ea], b as [sb|sb| |sb mb eb]; simpl;
    rewrite ?(xorb_comm sa sb); try reflexivity.
  now rewrite (Pos.mul_comm ma mb), (Z.add_comm ea eb).
Qed.

(** Multiplication of numbers is commutative. *)
Lemma mul_comm (a b : float) : (a * b = b * a)%float.
Proof.
  rewrite <- (SF2Prim_Prim2SF (a * b)), <- (SF2Prim_Prim2SF (b * a)).
  rewrite !mul_spec. unfold SF64mul. now rewrite SFmul_comm.
Qed.

(** ** Completions *)

Lemma try_catch_returns {A : Type} (body : completion A) (d : A) :
  exists v, try_catch body (fun _ => Normal d) = Normal v.
Proof. destruct body; simpl; eauto. Qed.

Lemma try_catch_throw {A : Type} (body : completion A) (d : A) (e : JsError) :
  body = Throw e -> try_catch body (fun _ => Normal d) = Normal d.
Proof. intros ->. reflexivity. Qed.

Lemma mapM_returns {A B : Type} (f : A -> completion B) (xs : list A) :
  (forall a, exists b, f a = Normal b) ->
  exists bs, mapM f xs = Normal bs /\ List.length bs = List.length xs.
Proof.
  intros Hf. induction xs as [|a xs IH]; simpl.
  - exists []. split; reflexivity.
  - destruct (Hf a) as [b ->]. destruct IH as [bs [-> Hlen]]. simpl.
    exists (b :: bs). split; [reflexivity | simpl; congruence].
Qed.

Lemma midpoint_present (p q : Point) :
  midpoint (Some p) (Some q)
  = Normal {| x := (x p + x q) / 2; y := (y p + y q) / 2 |}%float.
Proof. reflexivity. Qed.

Lemma midpoint_missing (a b : Landmark) :
  falsy a = true \/ falsy b = true -> midpoint a b = Throw TypeError.
Proof.
  destruct a as [p|], b as [q|]; simpl; intros [H|H];
    try discriminate; reflexivity.
Qed.

(** ** The extractors *)

Section ExtractorFacts.
Variable Math_atan2 : float -> float -> float.

Lemma calculateFaceCenter_returns (landmarks : Landmarks) :
  exists c, calculateFaceCenter landmarks = Normal c.
Proof.
  destruct landmarks as [l|]; simpl; [|eauto].
  destruct (List.length l =? 0)%nat; [eauto|]. apply try_catch_returns.
Qed.

Lemma calculateFaceSize_returns (landmarks : Landmarks) :
  exists s, calculateFaceSize landmarks = Normal s.
Proof.
  destruct landmarks as [l|]; simpl; [|eauto].
  destruct (List.length l =? 0)%nat; [eauto|]. apply try_catch_returns.
Qed.

Lemma calculateHeadRotation_returns (landmarks : Landmarks) :
  exists a, calculateHeadRotation Math_atan2 landmarks = Normal a.
Proof.
  destruct landmarks as [l|]; simpl; [|eauto].
  destruct (List.length l =? 0)%nat; [eauto|]. apply try_catch_returns.
Qed.

Lemma extract_returns (entry : nat * Landmarks) :
  exists e, extract Math_atan2 entry = Normal e.
Proof.
  destruct entry as [index landmarks]. unfold extract.
  destruct (calculateFaceCenter_returns landmarks) as [c ->].
  destruct (calculateFaceSize_returns landmarks) as [s ->].
  destruct (calculateHeadRotation_returns landmarks) as [a ->].
  simpl. eauto.
Qed.

Lemma centered_length (e : Extracted) : List.length (centered e) <= 1.
Proof. unfold centered. destruct (e_center e); simpl; lia. Qed.

Lemma flat_map_centered_length (es : list Extracted) :
  List.length (flat_map centered es) <= List.length es.
Proof.
  induction es as [|e es IH]; simpl; [lia|].
  rewrite length_app. pose proof (centered_length e). lia.
Qed.

Lemma newDetections_returns (currentFaces : list Landmarks) :
  exists ds, newDetections Math_atan2 currentFaces = Normal ds
             /\ List.length ds <= List.length currentFaces.
Proof.
  unfold newDetections.
  destruct (mapM_returns (extract Math_atan2)
              (combine (seq 0 (List.length currentFaces)) currentFaces)
              extract_returns) as [es [-> Hlen]].
  simpl. eexists. split; [reflexivity|].
  pose proof (flat_map_centered_length es).
  rewrite length_combine, length_seq, Nat.min_id in Hlen. lia.
Qed.

End ExtractorFacts.

(** ** The example inputs *)

(** The eyes of the example faces are level: whatever [Math.atan2]
    computes, it is called on [+0] and a positive [deltaX]. *)
Lemma example_faces_level (Math_atan2 : float -> float -> float) :
  Forall
    (fun face =>
       calculateHeadRotation Math_atan2 face
       = Normal (Math_atan2 0 0.0625 * (180 / Math.PI))%float)
    [faceA; faceB; faceC; faceD; faceE; faceF; faceA'].
Proof. repeat constructor. Qed.

Lemma detectionA_extracted :
  newDetections atan2_level [faceA] = Normal [detectionA].
Proof. vm_compute. reflexivity. Qed.

Lemma detectionB_extracted :
  newDetections atan2_level [faceA; faceB] = Normal [detectionA; detectionB].
Proof. vm_compute. reflexivity. Qed.

(** ** The matching loop: what it leaves alone *)

Lemma matchDetection_results_length (now : Z) (st : Loop) (d : NewFace.t) :
  List.length (results (matchDetection now st d))
  = S (List.length (results st)).
Proof.
  unfold matchDetection. destruct (findBestMatch (registry st) d); simpl;
    rewrite length_app; simpl; lia.
Qed.

Lemma matchLoop_results_length (now : Z) (ds : list NewFace.t) (st : Loop) :
  List.length (results (fold_left (matchDetection now) ds st))
  = List.length (results st) + List.length ds.
Proof.
  revert st. induction ds as [|d ds IH]; intros st; simpl; [lia|].
  rewrite IH, matchDetection_results_length. lia.
Qed.

Lemma trackDetections_results_length (now : Z) (r : FaceRegistry) (n : nat)
  (ds : list NewFace.t) :
  List.length (snd (trackDetections now r n ds)) <= List.length ds.
Proof.
  unfold trackDetections. destruct (n =? 0)%nat; simpl; [lia|].
  rewrite matchLoop_results_length. simpl. lia.
Qed.

(** A NaN never compares greater than anything. *)
Lemma nan_not_gt (s b : float) : is_nan s = true -> (s >? b)%float = false.
Proof.
  unfold is_nan, gt. rewrite FloatAxioms.eqb_spec, ltb_spec.
  unfold SFeqb, SFltb.
  destruct (Prim2SF s) as [[]|[]| |[] m e]; simpl; try discriminate;
    try (destruct (Prim2SF b) as [[]|[]| |[] ? ?]; reflexivity);
    rewrite Z.compare_refl;
    change (PosDef.Pos.compare_cont Eq m m) with (Pos.compare m m);
    rewrite Pos.compare_refl; discriminate.
Qed.

Lemma findBestMatch_step_none (r : FaceRegistry) (f : NewFace.t)
  (m : JsMap.t TrackedFace.t) (best : float) :
  (forall id t, In (id, t) m ->
     (calculateSimilarity r f t >? 0.6)%float = false) ->
  fold_left (findBestMatch_step r f) m (None, best) = (None, best).
Proof.
  induction m as [|[id t] m IH]; intros H; simpl; [reflexivity|].
  rewrite (H id t (or_introl eq_refl)), andb_false_r.
  apply IH. intros id' t' Hin. apply (H id' t'). now right.
Qed.

(** No tracked face scores above 0.6: [findBestMatch] returns [null]. *)
Lemma findBestMatch_none (r : FaceRegistry) (f : NewFace.t) :
  (forall id t, In (id, t) (trackedFaces r) ->
     (calculateSimilarity r f t >? 0.6)%float = false) ->
  findBestMatch r f = None.
Proof.
  intros H. unfold findBestMatch.
  now rewrite (findBestMatch_step_none r f (trackedFaces r) 0 H).
Qed.

Section NeverThrows.
Variable Math_atan2 : float -> float -> float.

Lemma processDetections_returns (now : Z) (r : FaceRegistry)
  (currentFaces : list Landmarks) :
  exists ds,
    newDetections Math_atan2 currentFaces = Normal ds
    /\ List.length ds <= List.length currentFaces
    /\ processDetections Math_atan2 now r currentFaces
       = Normal (trackDetections now r (List.length currentFaces) ds).
Proof.
  destruct (newDetections_returns Math_atan2 currentFaces) as [ds [E Hlen]].
  exists ds. repeat split; trivial. unfold processDetections.
  now rewrite E.
Qed.

(** C9, amended.  The three extractors return normally on every input,
    also a [null] array, an empty one, or one with holes: a missing eye
    corner gives a [null] centre, a missing outline point the size 0.2,
    and a missing eye corner, whose read throws inside the [try], the
    rotation 0.  [processDetections] returns normally on every registry
    when its argument is an array, whatever the entries, with a list no
    longer than its input; when the argument is not an array it throws a
    TypeError.  A detection whose score against every tracked face is NaN
    matches none of them. *)
Theorem core_never_throws :
  (forall landmarks, exists c, calculateFaceCenter landmarks = Normal c)
  /\ (forall landmarks, exists s, calculateFaceSize landmarks = Normal s)
  /\ (forall landmarks,
        exists a, calculateHeadRotation Math_atan2 landmarks = Normal a)
  /\ (forall now r currentFaces,
        exists r' res,
          processDetections Math_atan2 now r currentFaces = Normal (r', res)
          /\ List.length res <= List.length currentFaces)
  /\ (forall now r currentFaces,
        exists r' res,
          processDetections_any Math_atan2 now r (Some currentFaces)
          = Normal (r', res)
          /\ List.length res <= List.length currentFaces)
  /\ (forall now r,
        processDetections_any Math_atan2 now r None = Throw TypeError)
  /\ (calculateFaceCenter None = Normal None
      /\ calculateFaceCenter (Some []) = Normal None
      /\ forall l,
           falsy (at_index l 33) = true \/ falsy (at_index l 133) = true
           \/ falsy (at_index l 362) = true \/ falsy (at_index l 263) = true ->
           calculateFaceCenter (Some l) = Normal None)
  /\ (calculateFaceSize None = Normal 0.2%float
      /\ calculateFaceSize (Some []) = Normal 0.2%float
      /\ forall l,
           falsy (at_index l 10) = true \/ falsy (at_index l 152) = true
           \/ falsy (at_index l 234) = true \/ falsy (at_index l 454) = true ->
           calculateFaceSize (Some l) = Normal 0.2%float)
  /\ (calculateHeadRotation Math_atan2 None = Normal 0%float
      /\ calculateHeadRotation Math_atan2 (Some []) = Normal 0%float
      /\ forall l,
           falsy (at_index l 33) = true \/ falsy (at_index l 133) = true
           \/ falsy (at_index l 362) = true \/ falsy (at_index l 263) = true ->
           calculateHeadRotation Math_atan2 (Some l) = Normal 0%float)
  /\ (forall r newFace,
        (forall id t, In (id, t) (trackedFaces r) ->
           is_nan (calculateSimilarity r newFace t) = true) ->
        findBestMatch r newFace = None).
Proof.
  split; [exact calculateFaceCenter_returns|].
  split; [exact calculateFaceSize_returns|].
  split; [exact (calculateHeadRotation_returns Math_atan2)|].
  assert (Hlist : forall now r currentFaces,
            exists r' res,
              processDetections Math_atan2 now r currentFaces
              = Normal (r', res)
              /\ List.length res <= List.length currentFaces).
  { intros now r faces.
    destruct (processDetections_returns now r faces) as [ds [_ [Hlen ->]]].
    destruct (trackDetections now r (List.length faces) ds) as [r' res] eqn:E.
    exists r', res. split; [reflexivity|].
    pose proof (trackDetections_results_length now r (List.length faces) ds)
      as Hres.
    rewrite E in Hres. simpl in Hres. lia. }
  split; [exact Hlist|].
  split; [exact Hlist|].
  split; [reflexivity|].
  split.
  { repeat split; try reflexivity. intros l H. simpl.
    destruct (List.length l =? 0)%nat; [reflexivity|].
    assert (G : falsy (at_index l 33) || falsy (at_index l 133)
                || falsy (at_index l 362) || falsy (at_index l 263) = true).
    { destruct H as [H|[H|[H|H]]]; rewrite H;
        rewrite ?orb_true_r; reflexivity. }
    rewrite G. reflexivity. }
  split.
  { repeat split; try reflexivity. intros l H. simpl.
    destruct (List.length l =? 0)%nat; [reflexivity|].
    assert (G : falsy (at_index l 10) || falsy (at_index l 152)
                || falsy (at_index l 234) || falsy (at_index l 454) = true).
    { destruct H as [H|[H|[H|H]]]; rewrite H;
        rewrite ?orb_true_r; reflexivity. }
    rewrite G. reflexivity. }
  split.
  { repeat split; try reflexivity. intros l H. simpl.
    destruct (List.length l =? 0)%nat; [reflexivity|].
    destruct H as [H|[H|H]].
    - rewrite (midpoint_missing _ (at_index l 133) (or_introl H)).
      reflexivity.
    - rewrite (midpoint_missing (at_index l 33) _ (or_intror H)).
      reflexivity.
    - destruct (midpoint (at_index l 33) (at_index l 133)); simpl;
        [|reflexivity].
      rewrite (midpoint_missing (at_index l 362) (at_index l 263) H).
      reflexivity. }
  intros r newFace H. apply findBestMatch_none.
  intros id t Hin. apply nan_not_gt. now apply (H id t).
Qed.

(** C10.  With the four eye corners present and no nose tip,
    [calculateFaceCenter] still returns a centre: the point between the
    eyes, moved down by 0.6 times the fallback distance 0.03. *)
Theorem calculateFaceCenter_without_nose (l : list Landmark)
  (leftEyeLeft leftEyeRight rightEyeLeft rightEyeRight : Point) :
  at_index l 33 = Some leftEyeLeft ->
  at_index l 133 = Some leftEyeRight ->
  at_index l 362 = Some rightEyeLeft ->
  at_index l 263 = Some rightEyeRight ->
  at_index l 1 = None ->
  let eyeCenter_x :=
    (((x leftEyeLeft + x leftEyeRight) / 2
      + (x rightEyeLeft + x rightEyeRight) / 2) / 2)%float in
  let eyeCenter_y :=
    (((y leftEyeLeft + y leftEyeRight) / 2
      + (y rightEyeLeft + y rightEyeRight) / 2) / 2)%float in
  calculateFaceCenter (Some l)
  = Normal (Some {| x := eyeCenter_x;
                    y := (eyeCenter_y + 0.03 * 0.6)%float |}).
Proof.
  intros H33 H133 H362 H263 H1. simpl.
  destruct l as [|p l']; [discriminate|].
  change (List.length (p :: l') =? 0)%nat with false. cbv iota.
  rewrite H33, H133, H362, H263, H1. reflexivity.
Qed.

End NeverThrows.

(** C9, as stated, fails: [processDetections(null)] throws. *)
Lemma null_detections_counterexample :
  processDetections_any atan2_level 0 constructor None = Throw TypeError
  /\ ~ exists out,
        processDetections_any atan2_level 0 constructor None = Normal out.
Proof.
  split; [reflexivity|]. intros [out H]. discriminate.
Qed.

Lemma calculateFaceCenter_without_nose_witness :
  calculateFaceCenter (noseless 0.125 0.25)
  = Normal (Some {| x := 0.125; y := 0.268 |}%float).
Proof.
  assert (E : exists l, noseless 0.125 0.25 = Some l
                        /\ at_index l 33 = Some (mkPoint 0.09375 0.25)
                        /\ at_index l 133 = Some (mkPoint 0.09375 0.25)
                        /\ at_index l 362 = Some (mkPoint 0.15625 0.25)
                        /\ at_index l 263 = Some (mkPoint 0.15625 0.25)
                        /\ at_index l 1 = None).
  { eexists. split; [reflexivity|]. vm_compute. repeat split. }
  destruct E as [l [-> [H33 [H133 [H362 [H263 H1]]]]]].
  exact (calculateFaceCenter_without_nose l _ _ _ _ H33 H133 H362 H263 H1).
Defined.

(** ** The map *)

Lemma JsMap_get_set_same {V : Type} (m : JsMap.t V) (k : string) (v : V) :
  JsMap.get (JsMap.set m k v) k = Some v.
Proof.
  induction m as [|[k' v'] m IH]; simpl.
  - now rewrite String.eqb_refl.
  - destruct (String.eqb k k') eqn:E; simpl; rewrite E; trivial.
Qed.

Lemma JsMap_get_set_other {V : Type} (m : JsMap.t V) (k k0 : string) (v : V) :
  k0 <> k -> JsMap.get (JsMap.set m k v) k0 = JsMap.get m k0.
Proof.
  intros Hne. induction m as [|[k' v'] m IH]; simpl.
  - destruct (String.eqb_spec k0 k); [contradiction|reflexivity].
  - destruct (String.eqb_spec k k'); simpl.
    + subst k'. destruct (String.eqb_spec k0 k); [contradiction|reflexivity].
    + destruct (String.eqb k0 k'); trivial.
Qed.

Lemma JsMap_get_In {V : Type} (m : JsMap.t V) (k : string) (v : V) :
  JsMap.get m k = Some v -> In (k, v) m.
Proof.
  induction m as [|[k' v'] m IH]; simpl; [discriminate|].
  destruct (String.eqb_spec k k'); intros H.
  - injection H as ->. subst. now left.
  - right. now apply IH.
Qed.

Lemma JsMap_In_get {V : Type} (m : JsMap.t V) (k : string) (v : V) :
  NoDup (JsMap.keys m) -> In (k, v) m -> JsMap.get m k = Some v.
Proof.
  induction m as [|[k' v'] m IH]; simpl; [contradiction|].
  intros Hnd [H|H].
  - injection H as -> ->. now rewrite String.eqb_refl.
  - inversion Hnd as [|? ? Hnotin Hnd']; subst.
    destruct (String.eqb_spec k k').
    + subst k'. exfalso. apply Hnotin.
      change k with (fst (k, v)). now apply in_map.
    + now apply IH.
Qed.

Lemma JsMap_set_keys {V : Type} (m : JsMap.t V) (k : string) (v : V) :
  JsMap.keys (JsMap.set m k v)
  = if JsMap.has m k then JsMap.keys m else JsMap.keys m ++ [k].
Proof.
  unfold JsMap.has. induction m as [|[k' v'] m IH]; simpl; [reflexivity|].
  destruct (String.eqb k k') eqn:E; simpl.
  - reflexivity.
  - rewrite IH. destruct (JsMap.get m k); reflexivity.
Qed.

Lemma JsMap_has_keys {V : Type} (m : JsMap.t V) (k : string) :
  JsMap.has m k = true <-> In k (JsMap.keys m).
Proof.
  unfold JsMap.has. induction m as [|[k' v'] m IH]; simpl.
  - split; [discriminate|contradiction].
  - destruct (String.eqb_spec k k').
    + subst. split; auto.
    + rewrite IH. split; [auto|]. intros [H|H]; [congruence|trivial].
Qed.

Lemma JsMap_set_NoDup {V : Type} (m : JsMap.t V) (k : string) (v : V) :
  NoDup (JsMap.keys m) -> NoDup (JsMap.keys (JsMap.set m k v)).
Proof.
  intros Hnd. rewrite JsMap_set_keys.
  destruct (JsMap.has m k) eqn:E; [trivial|].
  apply NoDup_app; [trivial|repeat constructor; auto|].
  intros k0 Hin [<-|[]]. apply JsMap_has_keys in Hin. congruence.
Qed.

Lemma JsMap_delete_incl {V : Type} (m : JsMap.t V) (k : string) :
  incl (JsMap.delete m k) m.
Proof.
  induction m as [|[k' v'] m IH]; simpl; [apply incl_refl|].
  destruct (String.eqb k k').
  - apply incl_tl, incl_refl.
  - intros e [<-|H]; [now left|right; now apply IH].
Qed.

Lemma JsMap_delete_NoDup {V : Type} (m : JsMap.t V) (k : string) :
  NoDup (JsMap.keys m) -> NoDup (JsMap.keys (JsMap.delete m k)).
Proof.
  induction m as [|[k' v'] m IH]; simpl; [trivial|].
  intros Hnd. inversion Hnd as [|? ? Hnotin Hnd']; subst.
  destruct (String.eqb k k'); [trivial|]. simpl. constructor; [|auto].
  intros Hin. apply Hnotin. apply in_map_iff in Hin.
  destruct Hin as [[k0 v0] [Hk Hin]]. simpl in Hk. subst k0.
  apply in_map_iff. exists (k', v0). split; [reflexivity|].
  now apply (JsMap_delete_incl m k).
Qed.

Lemma JsMap_delete_not_key {V : Type} (m : JsMap.t V) (k : string) :
  NoDup (JsMap.keys m) -> ~ In k (JsMap.keys (JsMap.delete m k)).
Proof.
  induction m as [|[k' v'] m IH]; simpl; [auto|].
  intros Hnd. inversion Hnd as [|? ? Hnotin Hnd']; subst.
  destruct (String.eqb_spec k k').
  - now subst.
  - simpl. intros [H|H]; [congruence|]. now apply IH in H.
Qed.

(** ** [findBestMatch] *)

Lemma gt_irrefl (a : float) : (a >? a)%float = false.
Proof.
  unfold gt. rewrite ltb_spec. unfold SFltb.
  destruct (Prim2SF a) as [[]|[]| |[] m e]; simpl; try reflexivity;
    rewrite Z.compare_refl;
    change (PosDef.Pos.compare_cont Eq m m) with (Pos.compare m m);
    rewrite Pos.compare_refl; reflexivity.
Qed.

Lemma best_so_far_step (r : FaceRegistry) (f : NewFace.t)
  (seen : JsMap.t TrackedFace.t) (acc : option Match * float)
  (entry : string * TrackedFace.t) :
  best_so_far r f seen acc ->
  best_so_far r f (seen ++ [entry]) (findBestMatch_step r f acc entry).
Proof.
  destruct acc as [bm bs], entry as [id t]. unfold best_so_far. simpl.
  intros Inv.
  destruct ((calculateSimilarity r f t >? bs)%float) eqn:Ebs;
    destruct ((calculateSimilarity r f t >? 0.6)%float) eqn:Emin; simpl.
  - (* a new best *)
    split; [apply in_or_app; right; now left|].
    split; [reflexivity|]. split; [reflexivity|]. split; [trivial|].
    intros id' t' Hin. apply in_app_or in Hin. destruct Hin as [Hin|[E|[]]].
    + destruct bm as [m|].
      * destruct Inv as [_ [_ [Hbs [_ Hmax]]]]. simpl in Hbs. subst bs.
        destruct ((calculateSimilarity r f t' >? calculateSimilarity r f t)
                    %float) eqn:E'; [|reflexivity].
        rewrite <- (Hmax id' t' Hin). symmetry.
        now apply gt_trans with (calculateSimilarity r f t).
      * destruct Inv as [_ Hnone].
        destruct ((calculateSimilarity r f t' >? calculateSimilarity r f t)
                    %float) eqn:E'; [|reflexivity].
        rewrite <- (Hnone id' t' Hin). symmetry.
        now apply gt_trans with (calculateSimilarity r f t).
    + injection E as <- <-. apply gt_irrefl.
  - destruct bm as [m|].
    + destruct Inv as [Hin [Hs [Hbs [Hmin Hmax]]]]. simpl in Hbs. subst bs.
      repeat split; trivial; [apply in_or_app; now left|].
      intros id' t' Hin'. apply in_app_or in Hin'.
      destruct Hin' as [Hin'|[E|[]]]; [now apply (Hmax id' t')|].
      injection E as <- <-.
      destruct ((calculateSimilarity r f t >? score m)%float) eqn:E';
        [|reflexivity].
      rewrite <- Emin. symmetry. now apply gt_trans with (score m).
    + destruct Inv as [Hbs Hnone]. split; [trivial|].
      intros id' t' Hin'. apply in_app_or in Hin'.
      destruct Hin' as [Hin'|[E|[]]]; [now apply (Hnone id' t')|].
      now injection E as <- <-.
  - destruct bm as [m|].
    + destruct Inv as [Hin [Hs [Hbs [Hmin Hmax]]]]. simpl in Hbs. subst bs.
      repeat split; trivial; [apply in_or_app; now left|].
      intros id' t' Hin'. apply in_app_or in Hin'.
      destruct Hin' as [Hin'|[E|[]]]; [now apply (Hmax id' t')|].
      now injection E as <- <-.
    + destruct Inv as [Hbs Hnone]. simpl in Hbs. subst bs. exfalso.
      assert (G : (calculateSimilarity r f t >? 0)%float = true).
      { apply gt_trans with 0.6%float; [trivial|reflexivity]. }
      congruence.
  - destruct bm as [m|].
    + destruct Inv as [Hin [Hs [Hbs [Hmin Hmax]]]]. simpl in Hbs. subst bs.
      repeat split; trivial; [apply in_or_app; now left|].
      intros id' t' Hin'. apply in_app_or in Hin'.
      destruct Hin' as [Hin'|[E|[]]]; [now apply (Hmax id' t')|].
      now injection E as <- <-.
    + destruct Inv as [Hbs Hnone]. split; [trivial|].
      intros id' t' Hin'. apply in_app_or in Hin'.
      destruct Hin' as [Hin'|[E|[]]]; [now apply (Hnone id' t')|].
      now injection E as <- <-.
Qed.

Lemma best_so_far_loop (r : FaceRegistry) (f : NewFace.t)
  (rest seen : JsMap.t TrackedFace.t) (acc : option Match * float) :
  best_so_far r f seen acc ->
  best_so_far r f (seen ++ rest) (fold_left (findBestMatch_step r f) rest acc).
Proof.
  revert seen acc. induction rest as [|entry rest IH]; intros seen acc Inv.
  - now rewrite app_nil_r.
  - simpl. change (entry :: rest) with ([entry] ++ rest).
    rewrite app_assoc. apply IH. now apply best_so_far_step.
Qed.

Lemma findBestMatch_best (r : FaceRegistry) (f : NewFace.t) :
  best_so_far r f (trackedFaces r)
    (fold_left (findBestMatch_step r f) (trackedFaces r) (None, 0%float)).
Proof.
  apply (best_so_far_loop r f (trackedFaces r) [] (None, 0%float)).
  split; [reflexivity|]. intros id t [].
Qed.

(** [findBestMatch] returns a match: it is an entry of the map, its score
    is the entry's similarity and exceeds 0.6, and no entry scores higher. *)
Lemma findBestMatch_some (r : FaceRegistry) (f : NewFace.t) (m : Match) :
  findBestMatch r f = Some m ->
  In (m_faceId m, m_trackedFace m) (trackedFaces r)
  /\ score m = calculateSimilarity r f (m_trackedFace m)
  /\ (score m >? 0.6)%float = true
  /\ forall id t, In (id, t) (trackedFaces r) ->
       (calculateSimilarity r f t >? score m)%float = false.
Proof.
  unfold findBestMatch. intros E. pose proof (findBestMatch_best r f) as H.
  unfold best_so_far in H. rewrite E in H. tauto.
Qed.

(** [findBestMatch] returns [null] exactly when no entry scores above
    0.6. *)
Lemma findBestMatch_none_iff (r : FaceRegistry) (f : NewFace.t) :
  findBestMatch r f = None <->
  forall id t, In (id, t) (trackedFaces r) ->
    (calculateSimilarity r f t >? 0.6)%float = false.
Proof.
  split; [|apply findBestMatch_none].
  unfold findBestMatch. intros E. pose proof (findBestMatch_best r f) as H.
  unfold best_so_far in H. rewrite E in H. tauto.
Qed.

(** ** [getNextMaskNumber] *)

Lemma usedMasks_has_In (used : list nat) (i : nat) :
  usedMasks_has used i = true <-> In i used.
Proof.
  unfold usedMasks_has. rewrite existsb_exists. split.
  - intros [j [Hin E]]. apply Nat.eqb_eq in E. now subst.
  - intros Hin. exists i. split; [trivial|apply Nat.eqb_refl].
Qed.

Lemma firstUnused_spec (used : list nat) (fuel i : nat) :
  (forall j, 1 <= j < i -> In j used) ->
  let s := firstUnused used i fuel in
  (i <= s < i + fuel /\ ~ In s used /\ forall j, 1 <= j < s -> In j used)
  \/ (s = 1 /\ forall j, 1 <= j < i + fuel -> In j used).
Proof.
  revert i. induction fuel as [|fuel IH]; intros i Hbelow; simpl.
  - right. split; [reflexivity|]. intros j Hj. apply Hbelow. lia.
  - destruct (usedMasks_has used i) eqn:E; simpl.
    + apply usedMasks_has_In in E.
      destruct (IH (S i)) as [[Hs [Hfree Hlow]]|[Hs Hall]].
      * intros j Hj. destruct (Nat.eq_dec j i); [now subst|apply Hbelow; lia].
      * left. repeat split; trivial; lia.
      * right. split; [trivial|]. intros j Hj. apply Hall. lia.
    + left. repeat split; try lia; trivial.
      intros Hin. apply usedMasks_has_In in Hin. congruence.
Qed.

(** The mask number handed out is the lowest of [1 .. maxFaces] carried by
    no tracked face, or 1 when each of them is carried by one. *)
Lemma getNextMaskNumber_spec (r : FaceRegistry) :
  let s := getNextMaskNumber r in
  (1 <= s <= maxFaces r /\ ~ In s (usedMasks r)
   /\ forall j, 1 <= j < s -> In j (usedMasks r))
  \/ (s = 1 /\ forall j, 1 <= j <= maxFaces r -> In j (usedMasks r)).
Proof.
  unfold getNextMaskNumber.
  destruct (firstUnused_spec (usedMasks r) (maxFaces r) 1)
    as [[Hs [Hfree Hlow]]|[Hs Hall]].
  - intros j Hj. lia.
  - left. repeat split; trivial; lia.
  - right. split; [trivial|]. intros j Hj. apply Hall. lia.
Qed.

(** ** The settings *)

Lemma same_settings_refl (r : FaceRegistry) : same_settings r r.
Proof. repeat split. Qed.

Lemma same_settings_trans (r1 r2 r3 : FaceRegistry) :
  same_settings r1 r2 -> same_settings r2 r3 -> same_settings r1 r3.
Proof.
  unfold same_settings. intros [A [B [C D]]] [A' [B' [C' D']]].
  repeat split; congruence.
Qed.

Lemma matchDetection_settings (now : Z) (st : Loop) (d : NewFace.t) :
  same_settings (registry st) (registry (matchDetection now st d)).
Proof.
  unfold matchDetection. destruct (findBestMatch (registry st) d);
    repeat split.
Qed.

Lemma matchLoop_settings (now : Z) (ds : list NewFace.t) (st : Loop) :
  same_settings (registry st)
    (registry (fold_left (matchDetection now) ds st)).
Proof.
  revert st. induction ds as [|d ds IH]; intros st; simpl.
  - apply same_settings_refl.
  - eapply same_settings_trans; [apply matchDetection_settings|apply IH].
Qed.

Lemma clear_settings (r : FaceRegistry) : same_settings r (clear r).
Proof. unfold clear. destruct (0 <? _)%nat; repeat split. Qed.

Lemma trackDetections_settings (now : Z) (r : FaceRegistry) (n : nat)
  (ds : list NewFace.t) :
  same_settings r (fst (trackDetections now r n ds)).
Proof.
  unfold trackDetections.
  pose proof (matchLoop_settings now ds (mkLoop r [] [])) as H. simpl in H.
  destruct (n =? 0)%nat; simpl.
  - eapply same_settings_trans; [|apply clear_settings].
    eapply same_settings_trans; [exact H|]. repeat split.
  - eapply same_settings_trans; [exact H|]. repeat split.
Qed.

(** ** One detection in the matching loop *)

Lemma matchLoop_results_app (now : Z) (ds : list NewFace.t) (st : Loop) :
  exists tail,
    results (fold_left (matchDetection now) ds st) = results st ++ tail.
Proof.
  revert st. induction ds as [|d ds IH]; intros st; simpl.
  - exists []. now rewrite app_nil_r.
  - destruct (IH (matchDetection now st d)) as [tail ->].
    unfold matchDetection at 1.
    destruct (findBestMatch (registry st) d); simpl;
      rewrite <- app_assoc; eauto.
Qed.

(** The entry returned for the detection that comes after [pre] in a frame
    is the one the loop body appends for it. *)
Lemma trackDetections_entry (now : Z) (r : FaceRegistry) (n : nat)
  (pre post : list NewFace.t) (d : NewFace.t) (entry : Tagged.t) :
  n <> 0 ->
  let st := fold_left (matchDetection now) pre (mkLoop r [] []) in
  results (matchDetection now st d) = results st ++ [entry] ->
  nth_error (snd (trackDetections now r n (pre ++ d :: post)))
    (List.length pre) = Some entry.
Proof.
  intros Hn st Hentry. unfold trackDetections.
  destruct (Nat.eqb_spec n 0); [contradiction|]. simpl.
  rewrite fold_left_app. simpl. fold st.
  destruct (matchLoop_results_app now post (matchDetection now st d))
    as [tail ->].
  rewrite Hentry, <- app_assoc.
  assert (Hlen : List.length (results st) = List.length pre).
  { unfold st. rewrite matchLoop_results_length. reflexivity. }
  rewrite nth_error_app2 by lia. rewrite Hlen, Nat.sub_diag. reflexivity.
Qed.

(** The same through [processDetections], for the detection that the
    extractors put after [pre]. *)
Lemma processDetections_entry (Math_atan2 : float -> float -> float)
  (now : Z) (r : FaceRegistry) (currentFaces : list Landmarks)
  (pre post : list NewFace.t) (d : NewFace.t) (entry : Tagged.t) :
  newDetections Math_atan2 currentFaces = Normal (pre ++ d :: post) ->
  let st := fold_left (matchDetection now) pre (mkLoop r [] []) in
  results (matchDetection now st d) = results st ++ [entry] ->
  exists r' res,
    processDetections Math_atan2 now r currentFaces = Normal (r', res)
    /\ nth_error res (List.length pre) = Some entry.
Proof.
  intros Hds st Hentry.
  destruct (newDetections_returns Math_atan2 currentFaces)
    as [ds [Hds' Hlen]].
  rewrite Hds in Hds'. injection Hds' as <-.
  rewrite length_app in Hlen. simpl in Hlen.
  assert (Hn : List.length currentFaces <> 0) by lia.
  unfold processDetections. rewrite Hds. cbn [bind].
  pose proof (trackDetections_entry now r (List.length currentFaces)
                pre post d entry Hn Hentry) as Hnth.
  destruct (trackDetections now r (List.length currentFaces)
              (pre ++ d :: post)) as [r' res].
  exists r', res. split; [reflexivity|exact Hnth].
Qed.

(** C4.  A detection is matched to a tracked face only when that face's
    similarity exceeds 0.6, and then to a face no other scores above; the
    similarity is the weighted sum of the distance score and the size
    score; the matched face takes the detection's centre, size, rotation
    and landmarks, [framesMissing = 0] and [lastSeen = now], keeping its id
    and mask number, and the entry returned for the detection carries
    that id and mask number.  [matchThreshold] is 0.15 in a new registry
    and no call changes it.  [st] is the state of the matching loop when
    the detection's turn comes, after the detections [pre] of the frame;
    the last part is the call of [processDetections] on any frame whose
    detections with a centre are [pre], the detection and [post]. *)
Theorem matched_detection (Math_atan2 : float -> float -> float) (now : Z)
  (r0 : FaceRegistry) (pre post : list NewFace.t) (newFace : NewFace.t) :
  let st := fold_left (matchDetection now) pre (mkLoop r0 [] []) in
  let r := registry st in
  let similarity (t : TrackedFace.t) :=
    let dx := (x (NewFace.center newFace) - x (TrackedFace.center t))%float in
    let dy := (y (NewFace.center newFace) - y (TrackedFace.center t))%float in
    let distance := Math.sqrt (dx * dx + dy * dy)%float in
    let sizeA := NewFace.size newFace in
    let sizeB := TrackedFace.size t in
    (0.7 * Math.max 0 (1 - distance / matchThreshold r)
     + 0.3 * Math.max 0 (1 - Math.abs (sizeA - sizeB) / Math.max sizeA sizeB))
    %float in
  matchThreshold constructor = 0.15%float
  /\ matchThreshold r = matchThreshold r0
  /\ (forall n ds,
        matchThreshold (fst (trackDetections now r0 n ds))
        = matchThreshold r0)
  /\ (forall t, calculateSimilarity r newFace t = similarity t)
  /\ (findBestMatch r newFace = None <->
      forall id t, In (id, t) (trackedFaces r) ->
        (similarity t >? 0.6)%float = false)
  /\ forall m, findBestMatch r newFace = Some m ->
       let faceId := m_faceId m in
       let trackedFace := m_trackedFace m in
       let st' := matchDetection now st newFace in
       In (faceId, trackedFace) (trackedFaces r)
       /\ score m = similarity trackedFace
       /\ (similarity trackedFace >? 0.6)%float = true
       /\ (forall id t, In (id, t) (trackedFaces r) ->
             (similarity t >? similarity trackedFace)%float = false)
       /\ JsMap.get (trackedFaces (registry st')) faceId
          = Some (TrackedFace.mk
                    (TrackedFace.faceId trackedFace)
                    (TrackedFace.maskNumber trackedFace)
                    (NewFace.center newFace) (NewFace.size newFace)
                    (NewFace.rotation newFace) (NewFace.landmarks newFace)
                    0 (TrackedFace.firstSeen trackedFace) now)
       /\ results st'
          = results st
            ++ [tag newFace faceId (TrackedFace.maskNumber trackedFace)]
       /\ (forall n, n <> 0 ->
             nth_error
               (snd (trackDetections now r0 n (pre ++ newFace :: post)))
               (List.length pre)
             = Some (tag newFace faceId (TrackedFace.maskNumber trackedFace)))
       /\ forall currentFaces,
            newDetections Math_atan2 currentFaces
            = Normal (pre ++ newFace :: post) ->
            exists r' res entry,
              processDetections Math_atan2 now r0 currentFaces
              = Normal (r', res)
              /\ nth_error res (List.length pre) = Some entry
              /\ Tagged.faceId entry = faceId
              /\ Tagged.maskNumber entry
                 = TrackedFace.maskNumber trackedFace
              /\ Tagged.landmarks entry = NewFace.landmarks newFace
              /\ Tagged.center entry = NewFace.center newFace
              /\ Tagged.size entry = NewFace.size newFace
              /\ Tagged.rotation entry = NewFace.rotation newFace
              /\ Tagged.originalIndex entry
                 = NewFace.originalIndex newFace.
Proof.
  intros st r similarity.
  assert (Hsim : forall t, calculateSimilarity r newFace t = similarity t).
  { intros t. unfold calculateSimilarity, calculateDistance, similarity.
    cbv zeta. now rewrite (mul_comm 0.7), (mul_comm 0.3). }
  split; [reflexivity|].
  split; [apply (matchLoop_settings now pre (mkLoop r0 [] []))|].
  split; [intros n ds; apply (trackDetections_settings now r0 n ds)|].
  split; [exact Hsim|]. split.
  { rewrite findBestMatch_none_iff. split; intros H id t Hin;
      [rewrite <- Hsim|rewrite Hsim]; now apply (H id t). }
  intros m Hm faceId trackedFace st'.
  destruct (findBestMatch_some r newFace m Hm) as [Hin [Hs [Hmin Hmax]]].
  change (m_trackedFace m) with trackedFace in Hin, Hs.
  change (m_faceId m) with faceId in Hin.
  assert (Hres : results st'
                 = results st
                   ++ [tag newFace faceId
                         (TrackedFace.maskNumber trackedFace)]).
  { unfold st', matchDetection. fold r. rewrite Hm. reflexivity. }
  split; [exact Hin|]. split; [now rewrite Hs, Hsim|].
  split; [now rewrite <- Hsim, <- Hs|]. split.
  { intros id t Hin'. rewrite <- !Hsim, <- Hs. now apply (Hmax id t). }
  split.
  { unfold st', matchDetection. fold r. rewrite Hm. simpl.
    apply JsMap_get_set_same. }
  split; [exact Hres|].
  split; [intros n Hn; now apply trackDetections_entry|].
  intros currentFaces Hds.
  destruct (processDetections_entry Math_atan2 now r0 currentFaces pre post
              newFace _ Hds Hres) as [r' [res [Hp Hnth]]].
  exists r', res,
    (tag newFace faceId (TrackedFace.maskNumber trackedFace)).
  split; [exact Hp|]. split; [exact Hnth|]. repeat split.
Qed.

Lemma matched_detection_witness :
  findBestMatch afterFaceA detectionA = Some matchA
  /\ results (matchDetection 33 (mkLoop afterFaceA [] []) detectionA)
     = [tag detectionA "face_1" 1]
  /\ exists r' res entry,
       processDetections atan2_level 33 afterFaceA [faceA] = Normal (r', res)
       /\ nth_error res 0 = Some entry
       /\ Tagged.faceId entry = "face_1"%string
       /\ Tagged.maskNumber entry = 1.
Proof.
  assert (Hm : findBestMatch afterFaceA detectionA = Some matchA)
    by (vm_compute; reflexivity).
  split; [exact Hm|].
  destruct (matched_detection atan2_level 33 afterFaceA [] [] detectionA)
    as [_ [_ [_ [_ [_ H]]]]].
  destruct (H matchA Hm) as [_ [_ [_ [_ [_ [Hres [_ Hcall]]]]]]].
  split; [exact Hres|].
  destruct (Hcall [faceA] detectionA_extracted)
    as [r' [res [entry [Hp [Hnth [Hid [Hmask _]]]]]]].
  exists r', res, entry. split; [exact Hp|]. split; [exact Hnth|].
  split; [exact Hid|exact Hmask].
Defined.

(** ** Face ids *)

Lemma face_inj (a b : nat) : face_ a = face_ b -> a = b.
Proof.
  unfold face_. intros H. simpl in H. injection H as H.
  assert (E : Some (Nat.to_uint a) = Some (Nat.to_uint b)).
  { rewrite <- !NilEmpty.usu. now rewrite H. }
  injection E as E. now apply Unsigned.to_uint_inj.
Qed.

Lemma ids_below_fresh (r : FaceRegistry) :
  ids_below r -> JsMap.has (trackedFaces r) (face_ (nextFaceId r)) = false.
Proof.
  intros H. destruct (JsMap.has _ _) eqn:E; [|reflexivity].
  apply JsMap_has_keys in E. destruct (H _ E) as [n [Hlt Heq]].
  apply face_inj in Heq. lia.
Qed.

Lemma JsMap_set_fresh {V : Type} (m : JsMap.t V) (k : string) (v : V) :
  JsMap.has m k = false -> JsMap.set m k v = m ++ [(k, v)].
Proof.
  unfold JsMap.has. induction m as [|[k' v'] m IH]; simpl; [reflexivity|].
  destruct (String.eqb k k'); [discriminate|]. intros H. now rewrite IH.
Qed.

Lemma matchDetection_ids_below (now : Z) (st : Loop) (d : NewFace.t) :
  ids_below (registry st) -> ids_below (registry (matchDetection now st d)).
Proof.
  unfold ids_below, matchDetection. intros H.
  destruct (findBestMatch (registry st) d) as [m|] eqn:E; simpl;
    intros k Hk; rewrite JsMap_set_keys in Hk.
  - destruct (findBestMatch_some _ _ _ E) as [Hin _].
    assert (Hhas : JsMap.has (trackedFaces (registry st)) (m_faceId m) = true).
    { apply JsMap_has_keys. change (m_faceId m)
        with (fst (m_faceId m, m_trackedFace m)). now apply in_map. }
    rewrite Hhas in Hk. now apply H.
  - destruct (JsMap.has _ _).
    + destruct (H k Hk) as [n [Hlt Heq]]. exists n. split; [lia|trivial].
    + apply in_app_or in Hk. destruct Hk as [Hk|[<-|[]]].
      * destruct (H k Hk) as [n [Hlt Heq]]. exists n. split; [lia|trivial].
      * exists (nextFaceId (registry st)). split; [lia|reflexivity].
Qed.

Lemma matchLoop_ids_below (now : Z) (ds : list NewFace.t) (st : Loop) :
  ids_below (registry st) ->
  ids_below (registry (fold_left (matchDetection now) ds st)).
Proof.
  revert st. induction ds as [|d ds IH]; intros st H; simpl; [trivial|].
  apply IH. now apply matchDetection_ids_below.
Qed.

Lemma matchDetection_nextFaceId (now : Z) (st : Loop) (d : NewFace.t) :
  nextFaceId (registry st) <= nextFaceId (registry (matchDetection now st d)).
Proof.
  unfold matchDetection. destruct (findBestMatch (registry st) d); simpl; lia.
Qed.

Lemma matchLoop_nextFaceId (now : Z) (ds : list NewFace.t) (st : Loop) :
  nextFaceId (registry st)
  <= nextFaceId (registry (fold_left (matchDetection now) ds st)).
Proof.
  revert st. induction ds as [|d ds IH]; intros st; simpl; [lia|].
  pose proof (matchDetection_nextFaceId now st d). specialize (IH
    (matchDetection now st d)). lia.
Qed.

Lemma clear_nextFaceId (r : FaceRegistry) : nextFaceId (clear r) = nextFaceId r.
Proof. unfold clear. destruct (0 <? _)%nat; reflexivity. Qed.

Lemma trackDetections_nextFaceId (now : Z) (r : FaceRegistry) (n : nat)
  (ds : list NewFace.t) :
  nextFaceId r <= nextFaceId (fst (trackDetections now r n ds)).
Proof.
  unfold trackDetections. destruct (n =? 0)%nat; simpl;
    rewrite ?clear_nextFaceId; simpl;
    apply (matchLoop_nextFaceId now ds (mkLoop r [] [])).
Qed.

(** C5.  A detection that matches no tracked face gets a new tracked face
    under the id made from the counter, which then advances by one and
    never goes back; its mask number is the lowest of [1 .. maxFaces] that
    no tracked face carries, or 1 when all are carried; the entry returned
    for the detection carries that id and mask number.  When every key in
    the map comes from an earlier counter value, as in every session that
    starts from a new registry, the id is in no use and the map grows by
    one entry.  [st] is the state of the matching loop when the
    detection's turn comes, after the detections [pre] of the frame; the
    part on [processDetections] is the call on any frame whose detections
    with a centre are [pre], the detection and [post]. *)
Theorem unmatched_detection (Math_atan2 : float -> float -> float) (now : Z)
  (r0 : FaceRegistry) (pre post : list NewFace.t) (newFace : NewFace.t) :
  let st := fold_left (matchDetection now) pre (mkLoop r0 [] []) in
  let r := registry st in
  let st' := matchDetection now st newFace in
  let faceId := face_ (nextFaceId r) in
  let maskNumber := getNextMaskNumber r in
  let trackedFace :=
    TrackedFace.mk faceId maskNumber
      (NewFace.center newFace) (NewFace.size newFace)
      (NewFace.rotation newFace) (NewFace.landmarks newFace) 0 now now in
  findBestMatch r newFace = None ->
  ((1 <= maskNumber <= maxFaces r /\ ~ In maskNumber (usedMasks r)
    /\ forall j, 1 <= j < maskNumber -> In j (usedMasks r))
   \/ (maskNumber = 1
       /\ forall j, 1 <= j <= maxFaces r -> In j (usedMasks r)))
  /\ nextFaceId (registry st') = S (nextFaceId r)
  /\ (forall a b, face_ a = face_ b -> a = b)
  /\ (forall n ds,
        nextFaceId r0 <= nextFaceId (fst (trackDetections now r0 n ds)))
  /\ JsMap.get (trackedFaces (registry st')) faceId = Some trackedFace
  /\ results st' = results st ++ [tag newFace faceId maskNumber]
  /\ (forall n, n <> 0 ->
        nth_error (snd (trackDetections now r0 n (pre ++ newFace :: post)))
          (List.length pre)
        = Some (tag newFace faceId maskNumber))
  /\ (forall currentFaces,
        newDetections Math_atan2 currentFaces
        = Normal (pre ++ newFace :: post) ->
        exists r' res entry,
          processDetections Math_atan2 now r0 currentFaces = Normal (r', res)
          /\ nth_error res (List.length pre) = Some entry
          /\ Tagged.faceId entry = faceId
          /\ Tagged.maskNumber entry = maskNumber
          /\ Tagged.landmarks entry = NewFace.landmarks newFace
          /\ Tagged.center entry = NewFace.center newFace
          /\ Tagged.size entry = NewFace.size newFace
          /\ Tagged.rotation entry = NewFace.rotation newFace
          /\ Tagged.originalIndex entry = NewFace.originalIndex newFace)
  /\ (ids_below r0 ->
      ~ In faceId (JsMap.keys (trackedFaces r))
      /\ trackedFaces (registry st')
         = trackedFaces r ++ [(faceId, trackedFace)]).
Proof.
  intros st r st' faceId maskNumber trackedFace Hnone.
  assert (Hres : results st' = results st ++ [tag newFace faceId maskNumber]).
  { unfold st', matchDetection. fold r. rewrite Hnone. reflexivity. }
  split; [apply getNextMaskNumber_spec|].
  split; [unfold st', matchDetection; fold r; now rewrite Hnone|].
  split; [exact face_inj|].
  split; [intros n ds; apply trackDetections_nextFaceId|].
  split.
  { unfold st', matchDetection. fold r. rewrite Hnone. simpl.
    apply JsMap_get_set_same. }
  split; [exact Hres|].
  split; [intros n Hn; now apply trackDetections_entry|].
  split.
  { intros currentFaces Hds.
    destruct (processDetections_entry Math_atan2 now r0 currentFaces pre
                post newFace _ Hds Hres) as [r' [res [Hp Hnth]]].
    exists r', res, (tag newFace faceId maskNumber).
    split; [exact Hp|]. split; [exact Hnth|]. repeat split. }
  intros Hids.
  assert (Hfresh : JsMap.has (trackedFaces r) faceId = false).
  { apply ids_below_fresh. unfold r, st. now apply matchLoop_ids_below. }
  split.
  - intros Hin. apply JsMap_has_keys in Hin. congruence.
  - unfold st', matchDetection. fold r. rewrite Hnone. simpl.
    now apply JsMap_set_fresh.
Qed.

Lemma unmatched_detection_witness :
  findBestMatch afterFaceA detectionB = None
  /\ results (matchDetection 33 (mkLoop afterFaceA [] []) detectionB)
     = [tag detectionB "face_2" 2]
  /\ exists r' res entry,
       processDetections atan2_level 33 afterFaceA [faceA; faceB]
       = Normal (r', res)
       /\ nth_error res 1 = Some entry
       /\ Tagged.faceId entry = "face_2"%string
       /\ Tagged.maskNumber entry = 2.
Proof.
  assert (Hnone : findBestMatch afterFaceA detectionB = None)
    by (vm_compute; reflexivity).
  split; [exact Hnone|].
  destruct (unmatched_detection atan2_level 33 afterFaceA [] [] detectionB
              Hnone) as [_ [_ [_ [_ [_ [Hres _]]]]]].
  split; [exact Hres|].
  assert (Hnone' :
    findBestMatch
      (registry (fold_left (matchDetection 33) [detectionA]
                   (mkLoop afterFaceA [] []))) detectionB = None)
    by (vm_compute; reflexivity).
  destruct (unmatched_detection atan2_level 33 afterFaceA [detectionA] []
              detectionB Hnone')
    as [_ [_ [_ [_ [_ [_ [_ [Hcall _]]]]]]]].
  destruct (Hcall [faceA; faceB] detectionB_extracted)
    as [r' [res [entry [Hp [Hnth [Hid [Hmask _]]]]]]].
  exists r', res, entry. split; [exact Hp|]. split; [exact Hnth|].
  split; [exact Hid|exact Hmask].
Defined.

(** ** Matching does not exclude faces already matched *)

Section NonExclusive.
Variable Math_atan2 : float -> float -> float.

(** C7.  The search for the best match reads the map of tracked faces and
    nothing else: whatever [matchedFaceIds] and [results] hold, a
    detection gets the same entry and leaves the same registry.  So two
    detections of one frame can match the same tracked face: after a
    session that tracked [faceA], the frame [[faceA; faceA']] returns two
    entries with the same id and mask number. *)
Theorem matching_is_not_exclusive :
  (forall now st1 st2 newFace,
     registry st1 = registry st2 ->
     registry (matchDetection now st1 newFace)
     = registry (matchDetection now st2 newFace)
     /\ exists entry,
          results (matchDetection now st1 newFace) = results st1 ++ [entry]
          /\ results (matchDetection now st2 newFace)
             = results st2 ++ [entry])
  /\ exists r r' first second,
       session Math_atan2 constructor [(0%Z, [faceA])] = Normal r
       /\ processDetections Math_atan2 33 r [faceA; faceA']
          = Normal (r', [first; second])
       /\ Tagged.originalIndex first = 0
       /\ Tagged.originalIndex second = 1
       /\ Tagged.faceId first = "face_1"%string
       /\ Tagged.faceId second = "face_1"%string
       /\ Tagged.maskNumber first = 1
       /\ Tagged.maskNumber second = 1
       /\ JsMap.keys (trackedFaces r') = ["face_1"%string].
Proof.
  split.
  - intros now st1 st2 newFace E. unfold matchDetection. rewrite E.
    destruct (findBestMatch (registry st2) newFace); simpl;
      (split; [reflexivity|eexists; split; reflexivity]).
  - do 4 eexists. split; [vm_compute; reflexivity|].
    split; [vm_compute; reflexivity|]. simpl. repeat split.
Qed.

End NonExclusive.

(** ** Invariants of the registry *)

(** *** Replacing the value of a key *)

Lemma JsMap_set_masks (m : JsMap.t TrackedFace.t) (k : string)
  (old new : TrackedFace.t) :
  NoDup (JsMap.keys m) -> In (k, old) m ->
  TrackedFace.maskNumber new = TrackedFace.maskNumber old ->
  masksOf (JsMap.set m k new) = masksOf m.
Proof.
  unfold masksOf, JsMap.values.
  induction m as [|[k' v'] m IH]; simpl; [contradiction|].
  intros Hnd Hin Hmask. inversion Hnd as [|? ? Hnotin Hnd']; subst.
  destruct (String.eqb_spec k k').
  - subst k'. simpl. f_equal. destruct Hin as [E|Hin].
    + injection E as ->. exact Hmask.
    + exfalso. apply Hnotin. change k with (fst (k, old)). now apply in_map.
  - simpl. f_equal. destruct Hin as [E|Hin]; [congruence|]. now apply IH.
Qed.

Lemma masksOf_app (m1 m2 : JsMap.t TrackedFace.t) :
  masksOf (m1 ++ m2) = masksOf m1 ++ masksOf m2.
Proof. unfold masksOf, JsMap.values. now rewrite !map_app. Qed.

Lemma aboveOne_app (l1 l2 : list nat) :
  aboveOne (l1 ++ l2) = aboveOne l1 ++ aboveOne l2.
Proof. apply filter_app. Qed.

Lemma aboveOne_In (l : list nat) (m : nat) :
  In m (aboveOne l) <-> In m l /\ m <> 1.
Proof.
  unfold aboveOne. rewrite filter_In, negb_true_iff, Nat.eqb_neq. tauto.
Qed.

(** *** The matching loop keeps the registry consistent *)

Lemma matchDetection_consistent (now : Z) (st : Loop) (d : NewFace.t) :
  consistent (registry st) -> consistent (registry (matchDetection now st d)).
Proof.
  intros C. pose proof (matchDetection_ids_below now st d (keys_issued C))
    as Hids.
  pose proof (matchDetection_settings now st d) as [Hmax _].
  revert Hids Hmax. unfold matchDetection.
  destruct (findBestMatch (registry st) d) as [m|] eqn:E; simpl;
    intros Hids Hmax.
  - destruct (findBestMatch_some _ _ _ E) as [Hin _].
    assert (Hmasks :
      masksOf (JsMap.set (trackedFaces (registry st)) (m_faceId m)
                 (refresh now (m_trackedFace m) d))
      = usedMasks (registry st)).
    { apply JsMap_set_masks with (old := m_trackedFace m);
        [apply (keys_unique C)|exact Hin|reflexivity]. }
    constructor; simpl.
    + apply JsMap_set_NoDup, (keys_unique C).
    + exact Hids.
    + apply (some_mask C).
    + unfold usedMasks. simpl. fold (masksOf (JsMap.set
        (trackedFaces (registry st)) (m_faceId m)
        (refresh now (m_trackedFace m) d))).
      rewrite Hmasks. apply (masks_in_range C).
    + unfold usedMasks. simpl. fold (masksOf (JsMap.set
        (trackedFaces (registry st)) (m_faceId m)
        (refresh now (m_trackedFace m) d))).
      rewrite Hmasks. apply (only_one_shared C).
  - pose proof (ids_below_fresh _ (keys_issued C)) as Hfresh.
    assert (Hmasks :
      masksOf (JsMap.set (trackedFaces (registry st))
                 (face_ (nextFaceId (registry st)))
                 (newTrackedFace now (face_ (nextFaceId (registry st)))
                    (getNextMaskNumber (registry st)) d))
      = usedMasks (registry st) ++ [getNextMaskNumber (registry st)]).
    { rewrite JsMap_set_fresh by exact Hfresh. now rewrite masksOf_app. }
    pose proof (getNextMaskNumber_spec (registry st)) as Hspec.
    cbv zeta in Hspec.
    constructor; simpl.
    + apply JsMap_set_NoDup, (keys_unique C).
    + exact Hids.
    + apply (some_mask C).
    + unfold usedMasks at 1. simpl.
      fold (masksOf (JsMap.set (trackedFaces (registry st))
                 (face_ (nextFaceId (registry st)))
                 (newTrackedFace now (face_ (nextFaceId (registry st)))
                    (getNextMaskNumber (registry st)) d))).
      rewrite Hmasks. intros m0 Hin. apply in_app_or in Hin.
      destruct Hin as [Hin|[<-|[]]]; [now apply (masks_in_range C)|].
      pose proof (some_mask C). destruct Hspec as [[? _]|[-> _]]; lia.
    + unfold usedMasks at 1. simpl.
      fold (masksOf (JsMap.set (trackedFaces (registry st))
                 (face_ (nextFaceId (registry st)))
                 (newTrackedFace now (face_ (nextFaceId (registry st)))
                    (getNextMaskNumber (registry st)) d))).
      rewrite Hmasks, aboveOne_app.
      destruct Hspec as [[_ [Hfree _]]|[Hone _]].
      * apply NoDup_app; [apply (only_one_shared C)| |].
        -- unfold aboveOne. simpl. destruct (negb _); repeat constructor; auto.
        -- intros m0 Hin Hin'. apply aboveOne_In in Hin, Hin'.
           destruct Hin' as [[<-|[]] _]. now destruct Hin.
      * rewrite Hone. simpl. rewrite app_nil_r. apply (only_one_shared C).
Qed.

Lemma matchLoop_consistent (now : Z) (ds : list NewFace.t) (st : Loop) :
  consistent (registry st) ->
  consistent (registry (fold_left (matchDetection now) ds st)).
Proof.
  revert st. induction ds as [|d ds IH]; intros st C; simpl; [trivial|].
  apply IH. now apply matchDetection_consistent.
Qed.

(** *** Deleting keys *)

(** With one entry per key, [delete] drops every entry of that key. *)
Lemma JsMap_delete_filter {V : Type} (m : JsMap.t V) (k : string) :
  NoDup (JsMap.keys m) ->
  JsMap.delete m k = filter (fun e => negb (String.eqb k (fst e))) m.
Proof.
  induction m as [|[k' v'] m IH]; simpl; [reflexivity|].
  intros Hnd. inversion Hnd as [|? ? Hnotin Hnd']; subst.
  destruct (String.eqb_spec k k'); simpl.
  - subst k'. symmetry. apply forallb_filter_id. apply forallb_forall.
    intros [k0 v0] Hin. simpl. apply negb_true_iff, String.eqb_neq.
    intros <-. apply Hnotin. change k with (fst (k, v0)). now apply in_map.
  - f_equal. now apply IH.
Qed.

Lemma filter_keys_NoDup {V : Type} (f : string * V -> bool) (m : JsMap.t V) :
  NoDup (JsMap.keys m) -> NoDup (JsMap.keys (filter f m)).
Proof.
  induction m as [|e m IH]; simpl; [trivial|].
  intros Hnd. inversion Hnd as [|? ? Hnotin Hnd']; subst.
  destruct (f e); simpl; [|auto]. constructor; [|auto].
  intros Hin. apply Hnotin. apply in_map_iff in Hin.
  destruct Hin as [e' [<- Hin]]. apply filter_In in Hin.
  now apply in_map.
Qed.

(** [facesToRemove.forEach(faceId => trackedFaces.delete(faceId))] keeps
    the entries whose key is not on the list. *)
Lemma forEach_delete_filter {V : Type} (ks : list string) (m : JsMap.t V) :
  NoDup (JsMap.keys m) ->
  fold_left JsMap.delete ks m
  = filter (fun e => negb (Set_has ks (fst e))) m.
Proof.
  revert m. induction ks as [|k ks IH]; intros m Hnd; simpl.
  - symmetry. apply forallb_filter_id. now apply forallb_forall.
  - rewrite IH by now apply JsMap_delete_NoDup.
    rewrite JsMap_delete_filter by trivial.
    clear. induction m as [|[k' v'] m IHm]; simpl; [reflexivity|].
    unfold Set_has at 2. simpl. rewrite (String.eqb_sym k' k).
    destruct (String.eqb k k'); simpl; [exact IHm|].
    fold (Set_has ks k'). destruct (Set_has ks k'); simpl;
      [exact IHm|now rewrite IHm].
Qed.

(** *** The clean-up loop *)

Lemma sweepEntry_key (r : FaceRegistry) (matched : list string) (now : Z)
  (e : string * TrackedFace.t) :
  fst (fst (sweepEntry r matched now e)) = fst e.
Proof. destruct e as [k t]. reflexivity. Qed.

Lemma sweepEntry_mask (r : FaceRegistry) (matched : list string) (now : Z)
  (e : string * TrackedFace.t) :
  TrackedFace.maskNumber (snd (fst (sweepEntry r matched now e)))
  = TrackedFace.maskNumber (snd e).
Proof.
  destruct e as [k t]. simpl. destruct (negb (Set_has matched k)); reflexivity.
Qed.

Lemma aged_keys (r : FaceRegistry) (matched : list string) (now : Z) :
  JsMap.keys (aged r matched now) = JsMap.keys (trackedFaces r).
Proof.
  unfold aged, JsMap.keys. rewrite !map_map. apply map_ext.
  intros e. apply sweepEntry_key.
Qed.

Lemma aged_masks (r : FaceRegistry) (matched : list string) (now : Z) :
  masksOf (aged r matched now) = usedMasks r.
Proof.
  unfold aged, masksOf, usedMasks, JsMap.values. rewrite !map_map.
  apply map_ext. intros e. apply sweepEntry_mask.
Qed.

Lemma sweep_tracked (r : FaceRegistry) (matched : list string) (now : Z) :
  NoDup (JsMap.keys (trackedFaces r)) ->
  trackedFaces (sweep r matched now)
  = filter (fun e => negb (Set_has (facesToRemove r matched now) (fst e)))
      (aged r matched now).
Proof.
  intros Hnd. unfold sweep. simpl. fold (aged r matched now).
  fold (facesToRemove r matched now).
  apply forEach_delete_filter. now rewrite aged_keys.
Qed.

Lemma filter_masks_incl (f : string * TrackedFace.t -> bool)
  (m : JsMap.t TrackedFace.t) :
  incl (masksOf (filter f m)) (masksOf m).
Proof.
  unfold masksOf, JsMap.values. intros s Hin.
  apply in_map_iff in Hin. destruct Hin as [t [<- Hin]].
  apply in_map_iff in Hin. destruct Hin as [e [<- Hin]].
  apply filter_In in Hin. now apply in_map, in_map.
Qed.

Lemma filter_aboveOne_NoDup (f : string * TrackedFace.t -> bool)
  (m : JsMap.t TrackedFace.t) :
  NoDup (aboveOne (masksOf m)) -> NoDup (aboveOne (masksOf (filter f m))).
Proof.
  induction m as [|e m IH]; simpl; [trivial|].
  unfold masksOf, JsMap.values, aboveOne in *. simpl.
  destruct (negb (TrackedFace.maskNumber (snd e) =? 1)%nat) eqn:E; intros Hnd.
  - inversion Hnd as [|? ? Hnotin Hnd']; subst.
    destruct (f e); simpl; [|auto]. rewrite E. constructor; [|auto].
    intros Hin. apply Hnotin. apply filter_In in Hin. apply filter_In.
    split; [|tauto]. now apply (filter_masks_incl f m).
  - destruct (f e); simpl; [|auto]. rewrite E. auto.
Qed.

Lemma sweep_consistent (r : FaceRegistry) (matched : list string) (now : Z) :
  consistent r -> consistent (sweep r matched now).
Proof.
  intros C. pose proof (sweep_tracked r matched now (keys_unique C)) as E.
  constructor.
  - rewrite E. apply filter_keys_NoDup. rewrite aged_keys.
    apply (keys_unique C).
  - intros k Hk. rewrite E in Hk. apply (keys_issued C).
    rewrite <- (aged_keys r matched now).
    apply in_map_iff in Hk. destruct Hk as [e [<- Hin]].
    apply filter_In in Hin. now apply in_map.
  - apply (some_mask C).
  - intros s Hin. unfold usedMasks in Hin. rewrite E in Hin.
    apply filter_masks_incl in Hin. rewrite aged_masks in Hin.
    now apply (masks_in_range C).
  - unfold usedMasks. rewrite E. apply filter_aboveOne_NoDup.
    rewrite aged_masks. apply (only_one_shared C).
Qed.

Lemma clear_consistent (r : FaceRegistry) : consistent r -> consistent (clear r).
Proof.
  intros C. unfold clear. destruct (0 <? _)%nat; [|trivial].
  apply mkConsistent; simpl.
  - constructor.
  - intros k [].
  - apply (some_mask C).
  - intros s [].
  - constructor.
Qed.

Lemma trackDetections_consistent (now : Z) (r : FaceRegistry) (n : nat)
  (ds : list NewFace.t) :
  consistent r -> consistent (fst (trackDetections now r n ds)).
Proof.
  intros C. unfold trackDetections.
  pose proof (matchLoop_consistent now ds (mkLoop r [] []) C) as C'.
  destruct (n =? 0)%nat; simpl.
  - now apply clear_consistent, sweep_consistent.
  - now apply sweep_consistent.
Qed.

Lemma constructor_consistent : consistent constructor.
Proof.
  apply mkConsistent; simpl.
  - constructor.
  - intros k [].
  - lia.
  - intros s [].
  - constructor.
Qed.

Section Sessions.
Variable Math_atan2 : float -> float -> float.

(** A session returns normally, and any property that holds of the
    registry it starts from and that a call keeps, holds at its end. *)
Lemma session_invariant (P : FaceRegistry -> Prop) :
  (forall now r n ds, P r -> P (fst (trackDetections now r n ds))) ->
  forall frames r, P r ->
    exists r', session Math_atan2 r frames = Normal r' /\ P r'.
Proof.
  intros Hstep frames. induction frames as [|[now faces] frames IH];
    intros r Hr; simpl.
  - eauto.
  - destruct (processDetections_returns Math_atan2 now r faces)
      as [ds [_ [_ ->]]]. simpl. apply IH. now apply Hstep.
Qed.

Lemma session_consistent (frames : list Frame) :
  exists r, session Math_atan2 constructor frames = Normal r
            /\ consistent r /\ same_settings constructor r.
Proof.
  apply (session_invariant
           (fun r => consistent r /\ same_settings constructor r)).
  - intros now r n ds [C S]. split.
    + now apply trackDetections_consistent.
    + eapply same_settings_trans; [exact S|apply trackDetections_settings].
  - split; [apply constructor_consistent|apply same_settings_refl].
Qed.

End Sessions.

(** ** Mask numbers across a session *)

Lemma shared_mask_is_one (m : JsMap.t TrackedFace.t)
  (k1 k2 : string) (t1 t2 : TrackedFace.t) :
  NoDup (aboveOne (masksOf m)) ->
  In (k1, t1) m -> In (k2, t2) m -> k1 <> k2 ->
  TrackedFace.maskNumber t1 = TrackedFace.maskNumber t2 ->
  TrackedFace.maskNumber t1 = 1.
Proof.
  assert (Hmask : forall k t (m' : JsMap.t TrackedFace.t),
            In (k, t) m' -> In (TrackedFace.maskNumber t) (masksOf m')).
  { intros k t m' Hin. unfold masksOf, JsMap.values.
    apply in_map_iff. exists t. split; [reflexivity|].
    apply in_map_iff. now exists (k, t). }
  induction m as [|e m IH]; simpl; [contradiction|].
  intros Hnd H1 H2 Hne Heq.
  assert (Htail : NoDup (aboveOne (masksOf m))).
  { unfold masksOf, JsMap.values, aboveOne in *. simpl in Hnd.
    destruct (negb _); [now inversion Hnd|trivial]. }
  destruct (Nat.eq_dec (TrackedFace.maskNumber t1) 1) as [|Hnot1]; [trivial|].
  exfalso.
  assert (Hhead : forall k t k' t',
            e = (k, t) -> In (k', t') m ->
            TrackedFace.maskNumber t = TrackedFace.maskNumber t' ->
            TrackedFace.maskNumber t <> 1 -> False).
  { intros k t k' t' -> Hin Hsame Hne1.
    unfold masksOf, JsMap.values, aboveOne in Hnd. simpl in Hnd.
    apply Nat.eqb_neq in Hne1. rewrite Hne1 in Hnd. simpl in Hnd.
    inversion Hnd as [|? ? Hnotin _]; subst. apply Hnotin.
    apply filter_In. split.
    - rewrite Hsame. apply (Hmask k' t' m Hin).
    - now rewrite Hne1. }
  destruct H1 as [H1|H1], H2 as [H2|H2].
  - congruence.
  - now apply (Hhead k1 t1 k2 t2).
  - apply (Hhead k2 t2 k1 t1); trivial; congruence.
  - apply Hnot1. now apply IH.
Qed.

(** Whatever [Math.atan2] computes, the session ends with six tracked
    faces, two of them with mask number 1. *)
Lemma overflowSession_masks (Math_atan2 : float -> float -> float) :
  exists r, session Math_atan2 constructor overflowSession = Normal r
            /\ JsMap.keys (trackedFaces r)
               = ["face_1"; "face_2"; "face_3"; "face_4"; "face_5";
                  "face_6"]%string
            /\ usedMasks r = [1; 2; 3; 4; 5; 1].
Proof. eexists. split; [vm_compute; reflexivity|]. split; reflexivity. Qed.

(** C1, as stated, fails: after the three calls of [overflowSession] the
    mask numbers of the tracked faces are [1; 2; 3; 4; 5; 1]. *)
Lemma masks_unique_counterexample :
  exists r, session atan2_level constructor overflowSession = Normal r
            /\ usedMasks r = [1; 2; 3; 4; 5; 1]
            /\ ~ NoDup (usedMasks r).
Proof.
  destruct (overflowSession_masks atan2_level) as [r [E [_ Hmasks]]].
  exists r. split; [exact E|]. split; [exact Hmasks|].
  rewrite Hmasks. intros Hnd. inversion Hnd as [|? ? Hnotin _]; subst.
  apply Hnotin. simpl. tauto.
Qed.

(** *** Sessions that never create a face at a full pool *)

Lemma poolFull_spec (r : FaceRegistry) :
  poolFull r = true
  <-> forall j, 1 <= j <= maxFaces r -> In j (usedMasks r).
Proof.
  unfold poolFull. rewrite forallb_forall. split; intros H j Hj.
  - apply usedMasks_has_In, H, in_seq. lia.
  - apply usedMasks_has_In, H. apply in_seq in Hj. lia.
Qed.

Lemma filter_masks_NoDup (f : string * TrackedFace.t -> bool)
  (m : JsMap.t TrackedFace.t) :
  NoDup (masksOf m) -> NoDup (masksOf (filter f m)).
Proof.
  induction m as [|e m IH]; simpl; [trivial|].
  unfold masksOf, JsMap.values in *. simpl. intros Hnd.
  inversion Hnd as [|? ? Hnotin Hnd']; subst.
  destruct (f e); simpl; [|auto]. constructor; [|auto].
  intros Hin. apply Hnotin. now apply (filter_masks_incl f m).
Qed.

(** One detection keeps the mask numbers pairwise distinct, unless it
    creates a face while every mask number is in use. *)
Lemma matchDetection_masks_unique (now : Z) (st : Loop) (d : NewFace.t) :
  consistent (registry st) ->
  NoDup (usedMasks (registry st)) ->
  (findBestMatch (registry st) d = None -> poolFull (registry st) = false) ->
  NoDup (usedMasks (registry (matchDetection now st d))).
Proof.
  intros C Hnd Hroom. unfold matchDetection.
  destruct (findBestMatch (registry st) d) as [m|] eqn:E; simpl.
  - destruct (findBestMatch_some _ _ _ E) as [Hin _].
    unfold usedMasks. simpl.
    fold (masksOf (JsMap.set (trackedFaces (registry st)) (m_faceId m)
                     (refresh now (m_trackedFace m) d))).
    rewrite (JsMap_set_masks (trackedFaces (registry st)) (m_faceId m)
               (m_trackedFace m) (refresh now (m_trackedFace m) d)
               (keys_unique C) Hin eq_refl).
    exact Hnd.
  - unfold usedMasks at 1. simpl.
    fold (masksOf (JsMap.set (trackedFaces (registry st))
                     (face_ (nextFaceId (registry st)))
                     (newTrackedFace now (face_ (nextFaceId (registry st)))
                        (getNextMaskNumber (registry st)) d))).
    rewrite JsMap_set_fresh by (apply ids_below_fresh, (keys_issued C)).
    rewrite masksOf_app.
    pose proof (getNextMaskNumber_spec (registry st)) as Hspec.
    cbv zeta in Hspec. destruct Hspec as [[_ [Hfree _]]|[_ Hall]].
    + apply NoDup_app; [exact Hnd|repeat constructor; intros []|].
      intros m0 Hin [<-|[]]. now apply Hfree.
    + apply poolFull_spec in Hall. rewrite (Hroom eq_refl) in Hall.
      discriminate.
Qed.

Lemma matchLoop_masks_unique (now : Z) (ds : list NewFace.t) (st : Loop) :
  consistent (registry st) ->
  NoDup (usedMasks (registry st)) ->
  overflowsIn now ds st = false ->
  NoDup (usedMasks (registry (fold_left (matchDetection now) ds st))).
Proof.
  revert st. induction ds as [|d ds IH]; intros st C Hnd Hover; simpl;
    [exact Hnd|].
  cbn [overflowsIn] in Hover. apply orb_false_iff in Hover.
  destruct Hover as [Hhere Hrest].
  apply IH; [now apply matchDetection_consistent| |exact Hrest].
  apply matchDetection_masks_unique; [exact C|exact Hnd|].
  intros Hnone. now rewrite Hnone in Hhere.
Qed.

Lemma trackDetections_masks_unique (now : Z) (r : FaceRegistry) (n : nat)
  (ds : list NewFace.t) :
  consistent r -> NoDup (usedMasks r) ->
  overflowsIn now ds (mkLoop r [] []) = false ->
  NoDup (usedMasks (fst (trackDetections now r n ds))).
Proof.
  intros C Hnd Hover. unfold trackDetections.
  pose proof (matchLoop_consistent now ds (mkLoop r [] []) C) as C'.
  pose proof (matchLoop_masks_unique now ds (mkLoop r [] []) C Hnd Hover)
    as Hnd'.
  set (st := fold_left (matchDetection now) ds (mkLoop r [] [])) in *.
  assert (Hsweep : NoDup (usedMasks (sweep (registry st)
                                       (matchedFaceIds st) now))).
  { unfold usedMasks at 1.
    rewrite (sweep_tracked _ _ _ (keys_unique C')).
    fold (masksOf (filter
      (fun e => negb (Set_has (facesToRemove (registry st)
                                 (matchedFaceIds st) now) (fst e)))
      (aged (registry st) (matchedFaceIds st) now))).
    apply filter_masks_NoDup. now rewrite aged_masks. }
  destruct (n =? 0)%nat; cbn [fst]; [|exact Hsweep].
  unfold clear. destruct (0 <? List.length _)%nat; [constructor|exact Hsweep].
Qed.

Section MaskInvariant.
Variable Math_atan2 : float -> float -> float.

Lemma session_masks_unique (frames : list Frame) (r r' : FaceRegistry) :
  consistent r -> NoDup (usedMasks r) ->
  sessionOverflows Math_atan2 r frames = false ->
  session Math_atan2 r frames = Normal r' ->
  NoDup (usedMasks r').
Proof.
  revert r. induction frames as [|[now faces] rest IH];
    intros r C Hnd Hover Hs.
  - simpl in Hs. now injection Hs as <-.
  - cbn [session sessionOverflows] in Hs, Hover.
    destruct (processDetections_returns Math_atan2 now r faces)
      as [ds [Hds [_ Hp]]].
    rewrite Hp in Hs. rewrite Hds in Hover. cbn [bind] in Hs.
    apply orb_false_iff in Hover. destruct Hover as [Hhere Hrest].
    apply (IH (fst (trackDetections now r (List.length faces) ds)));
      [now apply trackDetections_consistent| |exact Hrest|exact Hs].
    now apply trackDetections_masks_unique.
Qed.

(** C1, amended.  After every call of a session that starts from a new
    registry, every mask number in use lies in [1 .. maxFaces], with
    [maxFaces = 5], so at most five distinct mask numbers are in use.  As
    long as no call has created a face while all five mask numbers were in
    use, no two tracked faces carry the same mask number.  After such a
    creation two tracked faces carry the same mask number only when it is
    1, the number handed out when all five are taken. *)
Theorem masks_within_range (frames : list Frame) :
  exists r,
    session Math_atan2 constructor frames = Normal r
    /\ maxFaces r = 5
    /\ (forall m, In m (usedMasks r) -> 1 <= m <= maxFaces r)
    /\ List.length (nodup Nat.eq_dec (usedMasks r)) <= maxFaces r
    /\ (sessionOverflows Math_atan2 constructor frames = false ->
        NoDup (usedMasks r)
        /\ forall id1 t1 id2 t2,
             In (id1, t1) (trackedFaces r) -> In (id2, t2) (trackedFaces r) ->
             TrackedFace.maskNumber t1 = TrackedFace.maskNumber t2 ->
             id1 = id2)
    /\ NoDup (aboveOne (usedMasks r))
    /\ forall id1 t1 id2 t2,
         In (id1, t1) (trackedFaces r) -> In (id2, t2) (trackedFaces r) ->
         id1 <> id2 ->
         TrackedFace.maskNumber t1 = TrackedFace.maskNumber t2 ->
         TrackedFace.maskNumber t1 = 1.
Proof.
  destruct (session_consistent Math_atan2 frames) as [r [E [C [Hmax _]]]].
  exists r. split; [exact E|]. split; [exact Hmax|].
  split; [exact (masks_in_range C)|]. split.
  { rewrite <- (length_seq (maxFaces r) 1).
    apply NoDup_incl_length; [apply NoDup_nodup|].
    intros m Hin. apply nodup_In in Hin. apply in_seq.
    pose proof (masks_in_range C m Hin). lia. }
  split.
  { intros Hover.
    assert (Hnd : NoDup (usedMasks r)).
    { apply (session_masks_unique frames constructor r
               constructor_consistent); [constructor|exact Hover|exact E]. }
    split; [exact Hnd|].
    intros id1 t1 id2 t2 H1 H2 Heq.
    pose proof (keys_unique C) as Hkeys.
    revert Hnd Hkeys H1 H2. unfold usedMasks, JsMap.values, JsMap.keys.
    induction (trackedFaces r) as [|[k t] m IH]; simpl; [contradiction|].
    intros Hnd Hkeys H1 H2.
    inversion Hnd as [|? ? Hnotin Hnd']; subst.
    inversion Hkeys as [|? ? _ Hkeys']; subst.
    assert (Hmask : forall k' t', In (k', t') m ->
              In (TrackedFace.maskNumber t')
                (List.map TrackedFace.maskNumber (List.map snd m))).
    { intros k' t' Hin. apply in_map_iff. exists t'. split; [reflexivity|].
      apply in_map_iff. now exists (k', t'). }
    destruct H1 as [H1|H1], H2 as [H2|H2].
    - congruence.
    - injection H1 as <- <-. exfalso. apply Hnotin. rewrite Heq.
      now apply (Hmask id2 t2).
    - injection H2 as <- <-. exfalso. apply Hnotin. rewrite <- Heq.
      now apply (Hmask id1 t1).
    - now apply IH. }
  split; [exact (only_one_shared C)|].
  intros id1 t1 id2 t2 H1 H2 Hne Heq.
  exact (shared_mask_is_one (trackedFaces r) id1 id2 t1 t2
           (only_one_shared C) H1 H2 Hne Heq).
Qed.

End MaskInvariant.

Lemma masks_within_range_witness :
  sessionOverflows atan2_level constructor
    [(0%Z, [faceA; faceB]); (33%Z, [faceB; faceC])] = false
  /\ exists r,
       session atan2_level constructor
         [(0%Z, [faceA; faceB]); (33%Z, [faceB; faceC])] = Normal r
       /\ NoDup (usedMasks r).
Proof.
  assert (Hover : sessionOverflows atan2_level constructor
                    [(0%Z, [faceA; faceB]); (33%Z, [faceB; faceC])] = false)
    by (vm_compute; reflexivity).
  split; [exact Hover|].
  destruct (masks_within_range atan2_level
              [(0%Z, [faceA; faceB]); (33%Z, [faceB; faceC])])
    as [r [E [_ [_ [_ [Hfree _]]]]]].
  exists r. split; [exact E|]. exact (proj1 (Hfree Hover)).
Defined.

(** ** How many faces are tracked *)

Lemma Set_has_add (s : list string) (k k' : string) :
  Set_has (Set_add s k) k' = Set_has s k' || String.eqb k' k.
Proof.
  unfold Set_add. destruct (Set_has s k) eqn:E.
  - destruct (String.eqb_spec k' k); [subst; now rewrite E|].
    now rewrite orb_false_r.
  - unfold Set_has. rewrite existsb_app. simpl. now rewrite orb_false_r.
Qed.

Lemma Set_add_length (s : list string) (k : string) :
  List.length (Set_add s k) <= S (List.length s).
Proof.
  unfold Set_add. destruct (Set_has s k); [lia|].
  rewrite length_app. simpl. lia.
Qed.

Lemma Set_has_In (s : list string) (k : string) :
  Set_has s k = true <-> In k s.
Proof.
  unfold Set_has. rewrite existsb_exists. split.
  - intros [k' [Hin E]]. apply String.eqb_eq in E. now subst.
  - intros Hin. exists k. split; [trivial|apply String.eqb_refl].
Qed.

Lemma filter_set_length {V : Type} (f f' : string * V -> bool)
  (m : JsMap.t V) (k : string) (v : V) :
  NoDup (JsMap.keys m) ->
  (forall e, fst e <> k -> f' e = f e) ->
  List.length (filter f' (JsMap.set m k v)) <= S (List.length (filter f m)).
Proof.
  intros Hnd Hext. induction m as [|[k' v'] m IH]; simpl.
  - destruct (f' (k, v)); simpl; lia.
  - inversion Hnd as [|? ? Hnotin Hnd']; subst.
    destruct (String.eqb_spec k k').
    + subst k'. simpl.
      assert (E : filter f' m = filter f m).
      { apply filter_ext_in. intros e Hin. apply Hext. intros Hk.
        apply Hnotin. rewrite <- Hk. now apply in_map. }
      rewrite E. destruct (f' (k, v)), (f (k, v')); simpl; lia.
    + simpl. rewrite (Hext (k', v')) by (simpl; congruence).
      specialize (IH Hnd'). destruct (f (k', v')); simpl; lia.
Qed.

Lemma matchDetection_keepable (now : Z) (st : Loop) (d : NewFace.t) :
  NoDup (JsMap.keys (trackedFaces (registry st))) ->
  let st' := matchDetection now st d in
  List.length (filter (keepable (matchedFaceIds st'))
                 (trackedFaces (registry st')))
  <= S (List.length (filter (keepable (matchedFaceIds st))
                       (trackedFaces (registry st))))
  /\ List.length (matchedFaceIds st') <= S (List.length (matchedFaceIds st)).
Proof.
  intros Hnd. unfold matchDetection.
  destruct (findBestMatch (registry st) d) as [m|]; simpl.
  - split; [|apply Set_add_length].
    apply filter_set_length; [exact Hnd|].
    intros e Hne. unfold keepable. rewrite Set_has_add.
    destruct (String.eqb_spec (fst e) (m_faceId m)); [contradiction|].
    now rewrite orb_false_r.
  - split; [|lia]. apply filter_set_length; [exact Hnd|reflexivity].
Qed.

Lemma matchLoop_keepable (now : Z) (ds : list NewFace.t) (st : Loop) :
  consistent (registry st) ->
  let st' := fold_left (matchDetection now) ds st in
  List.length (filter (keepable (matchedFaceIds st'))
                 (trackedFaces (registry st')))
  <= List.length (filter (keepable (matchedFaceIds st))
                    (trackedFaces (registry st))) + List.length ds
  /\ List.length (matchedFaceIds st')
     <= List.length (matchedFaceIds st) + List.length ds.
Proof.
  revert st. induction ds as [|d ds IH]; intros st C; simpl; [lia|].
  destruct (matchDetection_keepable now st d (keys_unique C)) as [H1 H2].
  destruct (IH (matchDetection now st d)
              (matchDetection_consistent now st d C)) as [H3 H4].
  simpl in *. lia.
Qed.

Lemma facesToRemove_In (r : FaceRegistry) (matched : list string) (now : Z)
  (e : string * TrackedFace.t) (k : string) :
  In e (trackedFaces r) -> In k (snd (sweepEntry r matched now e)) ->
  In k (facesToRemove r matched now).
Proof.
  intros Hin Hk. unfold facesToRemove. apply in_concat.
  exists (snd (sweepEntry r matched now e)). split; [|exact Hk].
  now apply in_map, in_map.
Qed.

Lemma filter_length_le {A : Type} (f g : A -> bool) (l : list A) :
  (forall a, In a l -> f a = true -> g a = true) ->
  List.length (filter f l) <= List.length (filter g l).
Proof.
  induction l as [|a l IH]; simpl; intros H; [lia|].
  assert (IH' : List.length (filter f l) <= List.length (filter g l))
    by (apply IH; intros b Hb; apply H; now right).
  destruct (f a) eqn:E.
  - rewrite (H a (or_introl eq_refl) E). simpl. lia.
  - destruct (g a); simpl; lia.
Qed.

Lemma filter_map_length {A B : Type} (f : B -> bool) (g : A -> B)
  (l : list A) :
  List.length (filter f (List.map g l))
  = List.length (filter (fun a => f (g a)) l).
Proof.
  induction l as [|a l IH]; simpl; [reflexivity|].
  destruct (f (g a)); simpl; now rewrite IH.
Qed.

Lemma filter_twice_length {A : Type} (f g : A -> bool) (l : list A) :
  List.length (filter f (filter g l))
  = List.length (filter (fun a => g a && f a) l).
Proof.
  induction l as [|a l IH]; simpl; [reflexivity|].
  destruct (g a); simpl; [|exact IH]. destruct (f a); simpl; now rewrite IH.
Qed.

(** After the clean-up only keepable entries are left. *)
Lemma sweep_length (r : FaceRegistry) (matched : list string) (now : Z) :
  NoDup (JsMap.keys (trackedFaces r)) -> maxFramesMissing r = 1 ->
  List.length (trackedFaces (sweep r matched now))
  <= List.length (filter (keepable matched) (trackedFaces r)).
Proof.
  intros Hnd Hmax. rewrite sweep_tracked by exact Hnd.
  unfold aged. rewrite map_map, filter_map_length.
  apply filter_length_le. intros [k t] Hin Hkept.
  rewrite sweepEntry_key in Hkept. simpl in Hkept.
  unfold keepable. simpl.
  destruct (Set_has matched k) eqn:Em; [reflexivity|]. simpl.
  destruct (Nat.eqb_spec (TrackedFace.framesMissing t) 0); [reflexivity|].
  exfalso. apply negb_true_iff in Hkept.
  assert (Hrm : In k (facesToRemove r matched now)).
  { apply (facesToRemove_In r matched now (k, t) k Hin). simpl.
    rewrite Em, Hmax. simpl. apply in_or_app. left.
    destruct (TrackedFace.framesMissing t) as [|fm]; [contradiction|].
    simpl. now left. }
  apply Set_has_In in Hrm. congruence.
Qed.

(** After the clean-up the entries with [framesMissing = 0] are matched
    ones. *)
Lemma sweep_unmissed (r : FaceRegistry) (matched : list string) (now : Z) :
  NoDup (JsMap.keys (trackedFaces r)) ->
  unmissed (trackedFaces (sweep r matched now)) <= List.length matched.
Proof.
  intros Hnd. unfold unmissed. rewrite sweep_tracked by exact Hnd.
  rewrite filter_twice_length.
  unfold aged. rewrite map_map, filter_map_length.
  transitivity (List.length
                  (filter (fun e => Set_has matched (fst e))
                     (trackedFaces r))).
  - apply filter_length_le. intros [k t] Hin H.
    apply andb_true_iff in H. destruct H as [_ H]. simpl in *.
    destruct (Set_has matched k); [reflexivity|]. simpl in H. discriminate.
  - rewrite <- (length_map fst).
    assert (Hdup : forall s : list string, NoDup
              (nodup string_dec s)) by (intros; apply NoDup_nodup).
    transitivity (List.length (nodup string_dec matched)).
    + apply NoDup_incl_length.
      * apply (filter_keys_NoDup (fun e => Set_has matched (fst e))
                 (trackedFaces r) Hnd).
      * intros k Hk. apply nodup_In. apply in_map_iff in Hk.
        destruct Hk as [e [<- He]]. apply filter_In in He.
        now apply Set_has_In.
    + clear. induction matched as [|k s IH]; simpl; [lia|].
      destruct (in_dec string_dec k s); simpl; lia.
Qed.

Lemma clear_tracked (r : FaceRegistry) : trackedFaces (clear r) = [].
Proof.
  unfold clear. destruct (trackedFaces r) eqn:E; simpl; [exact E|reflexivity].
Qed.

(** One call: what is tracked after it was seen in the call before, or is
    matched or created by a detection of this call. *)
Lemma trackDetections_count (now : Z) (r : FaceRegistry) (n : nat)
  (ds : list NewFace.t) :
  consistent r -> maxFramesMissing r = 1 ->
  let r' := fst (trackDetections now r n ds) in
  List.length (trackedFaces r') <= unmissed (trackedFaces r) + List.length ds
  /\ unmissed (trackedFaces r') <= List.length ds.
Proof.
  intros C Hmax. unfold trackDetections.
  pose proof (matchLoop_keepable now ds (mkLoop r [] []) C) as [H1 H2].
  pose proof (matchLoop_consistent now ds (mkLoop r [] []) C) as C'.
  pose proof (matchLoop_settings now ds (mkLoop r [] [])) as [_ [_ [Hkept _]]].
  simpl in *. rewrite Hmax in Hkept.
  set (st := fold_left (matchDetection now) ds (mkLoop r [] [])) in *.
  pose proof (sweep_length (registry st) (matchedFaceIds st) now
                (keys_unique C') Hkept) as H3.
  pose proof (sweep_unmissed (registry st) (matchedFaceIds st) now
                (keys_unique C')) as H4.
  assert (H0 : List.length (filter (keepable []) (trackedFaces r))
               = unmissed (trackedFaces r)) by reflexivity.
  destruct (n =? 0)%nat; cbn [fst].
  - rewrite clear_tracked. unfold unmissed. simpl. lia.
  - lia.
Qed.

(** C2, as stated, fails: after the three calls of [overflowSession] six
    faces are tracked, with [maxFaces = 5]. *)
Lemma tracked_count_counterexample :
  exists r, session atan2_level constructor overflowSession = Normal r
            /\ List.length (trackedFaces r) = 6
            /\ maxFaces r = 5.
Proof.
  destruct (overflowSession_masks atan2_level) as [r [E [Hkeys _]]].
  exists r. split; [exact E|]. split.
  - rewrite <- (length_map fst). fold (JsMap.keys (trackedFaces r)).
    now rewrite Hkeys.
  - destruct (session_consistent atan2_level overflowSession)
      as [r' [E' [_ [Hmax _]]]].
    rewrite E in E'. injection E' as <-. exact Hmax.
Qed.

Section TrackedCount.
Variable Math_atan2 : float -> float -> float.

(** C2, amended.  In a session that starts from a new registry, the number
    of tracked faces after a call is at most the number of entries that
    call returned plus the number the call before it returned (after the
    first call: at most the number it returned).  A call returns at most
    one entry for each detection it is given, so with at most [maxFaces]
    detections in a frame at most [2 * maxFaces] faces are tracked. *)
Theorem tracked_count_bound (frames : list Frame)
  (now1 now2 : Z) (faces1 faces2 : list Landmarks) :
  exists r0 r1 res1 r2 res2,
    session Math_atan2 constructor frames = Normal r0
    /\ processDetections Math_atan2 now1 r0 faces1 = Normal (r1, res1)
    /\ processDetections Math_atan2 now2 r1 faces2 = Normal (r2, res2)
    /\ List.length res1 <= List.length faces1
    /\ List.length res2 <= List.length faces2
    /\ (frames = [] -> List.length (trackedFaces r1) <= List.length res1)
    /\ List.length (trackedFaces r2)
       <= List.length res1 + List.length res2.
Proof.
  destruct (session_consistent Math_atan2 frames)
    as [r0 [E0 [C0 [_ [_ [Hmax0 _]]]]]]. simpl in Hmax0.
  destruct (processDetections_returns Math_atan2 now1 r0 faces1)
    as [ds1 [_ [Hlen1 E1]]].
  destruct (trackDetections now1 r0 (List.length faces1) ds1)
    as [r1 res1] eqn:T1.
  pose proof (trackDetections_count now1 r0 (List.length faces1) ds1 C0 Hmax0)
    as [Hcount1 Hun1].
  pose proof (trackDetections_consistent now1 r0 (List.length faces1) ds1 C0)
    as C1.
  pose proof (trackDetections_settings now1 r0 (List.length faces1) ds1)
    as [_ [_ [Hmax1 _]]].
  rewrite T1 in Hcount1, Hun1, C1, Hmax1. simpl in *. rewrite Hmax0 in Hmax1.
  destruct (processDetections_returns Math_atan2 now2 r1 faces2)
    as [ds2 [_ [Hlen2 E2]]].
  destruct (trackDetections now2 r1 (List.length faces2) ds2)
    as [r2 res2] eqn:T2.
  pose proof (trackDetections_count now2 r1 (List.length faces2) ds2 C1 Hmax1)
    as [Hcount2 _].
  rewrite T2 in Hcount2. simpl in Hcount2.
  assert (Hres : forall now r n ds res r',
            trackDetections now r n ds = (r', res) ->
            List.length ds <= n -> List.length res = List.length ds).
  { intros now r n ds res r' T Hle. unfold trackDetections in T.
    destruct (Nat.eqb_spec n 0).
    - injection T as _ <-. subst n. destruct ds; simpl in *; [trivial|lia].
    - injection T as _ <-. rewrite matchLoop_results_length. reflexivity. }
  pose proof (Hres _ _ _ _ _ _ T1 Hlen1) as R1.
  pose proof (Hres _ _ _ _ _ _ T2 Hlen2) as R2.
  exists r0, r1, res1, r2, res2.
  split; [exact E0|]. split; [exact E1|]. split; [exact E2|].
  split; [lia|]. split; [lia|]. split; [|lia].
  intros ->. simpl in E0. injection E0 as <-.
  unfold unmissed in Hcount1. simpl in Hcount1. lia.
Qed.

End TrackedCount.

(** ** Expiry *)

Lemma get_is_key {V : Type} (m : JsMap.t V) (k : string) (v : V) :
  JsMap.get m k = Some v -> In k (JsMap.keys m).
Proof.
  intros H. apply JsMap_get_In in H. change k with (fst (k, v)).
  now apply in_map.
Qed.

Lemma JsMap_key_get {V : Type} (m : JsMap.t V) (k : string) :
  In k (JsMap.keys m) -> exists v, JsMap.get m k = Some v.
Proof.
  induction m as [|[k' v'] m IH]; simpl; [contradiction|].
  intros Hin. destruct (String.eqb_spec k k') as [E|E]; [now exists v'|].
  destruct Hin as [Hin|Hin]; [congruence|now apply IH].
Qed.

Lemma matchDetection_matched_mono (now : Z) (st : Loop) (d : NewFace.t)
  (k : string) :
  Set_has (matchedFaceIds st) k = true ->
  Set_has (matchedFaceIds (matchDetection now st d)) k = true.
Proof.
  unfold matchDetection. destruct (findBestMatch (registry st) d); simpl;
    [|trivial]. rewrite Set_has_add. intros ->. reflexivity.
Qed.

Lemma matchLoop_matched_mono (now : Z) (ds : list NewFace.t) (st : Loop)
  (k : string) :
  Set_has (matchedFaceIds st) k = true ->
  Set_has (matchedFaceIds (fold_left (matchDetection now) ds st)) k = true.
Proof.
  revert st. induction ds as [|d ds IH]; intros st H; simpl; [trivial|].
  apply IH. now apply matchDetection_matched_mono.
Qed.

(** A tracked face the loop body does not match is left as it is. *)
Lemma matchDetection_unmatched (now : Z) (st : Loop) (d : NewFace.t)
  (id : string) (t : TrackedFace.t) :
  ids_below (registry st) ->
  JsMap.get (trackedFaces (registry st)) id = Some t ->
  Set_has (matchedFaceIds (matchDetection now st d)) id = false ->
  JsMap.get (trackedFaces (registry (matchDetection now st d))) id = Some t.
Proof.
  intros Hids Hget. unfold matchDetection.
  destruct (findBestMatch (registry st) d) as [m|]; simpl.
  - rewrite Set_has_add. intros H. apply orb_false_iff in H.
    destruct H as [_ H]. apply String.eqb_neq in H.
    now rewrite JsMap_get_set_other.
  - intros _. rewrite JsMap_get_set_other; [trivial|].
    destruct (Hids id (get_is_key _ _ _ Hget)) as [n [Hlt ->]].
    intros E. apply face_inj in E. lia.
Qed.

Lemma matchLoop_unmatched (now : Z) (ds : list NewFace.t) (st : Loop)
  (id : string) (t : TrackedFace.t) :
  ids_below (registry st) ->
  JsMap.get (trackedFaces (registry st)) id = Some t ->
  Set_has (matchedFaceIds (fold_left (matchDetection now) ds st)) id = false ->
  JsMap.get
    (trackedFaces (registry (fold_left (matchDetection now) ds st))) id
  = Some t.
Proof.
  revert st. induction ds as [|d ds IH]; intros st Hids Hget Hun; simpl in *;
    [trivial|].
  apply IH; trivial.
  - now apply matchDetection_ids_below.
  - apply matchDetection_unmatched; trivial.
    destruct (Set_has (matchedFaceIds (matchDetection now st d)) id) eqn:E;
      [|reflexivity].
    rewrite (matchLoop_matched_mono now ds _ id E) in Hun. discriminate.
Qed.

(** The clean-up removes an unmatched face whose counter passes
    [maxFramesMissing]. *)
Lemma sweep_removes (r : FaceRegistry) (matched : list string) (now : Z)
  (id : string) (t : TrackedFace.t) :
  NoDup (JsMap.keys (trackedFaces r)) ->
  In (id, t) (trackedFaces r) ->
  Set_has matched id = false ->
  maxFramesMissing r < S (TrackedFace.framesMissing t) ->
  ~ In id (JsMap.keys (trackedFaces (sweep r matched now))).
Proof.
  intros Hnd Hin Hun Hlt Hkey. rewrite sweep_tracked in Hkey by exact Hnd.
  apply in_map_iff in Hkey. destruct Hkey as [e [Hfst He]].
  apply filter_In in He. destruct He as [_ Hkept].
  rewrite Hfst in Hkept. apply negb_true_iff in Hkept.
  assert (Hrm : In id (facesToRemove r matched now)).
  { apply (facesToRemove_In r matched now (id, t) id Hin). simpl.
    rewrite Hun. simpl. apply Nat.ltb_lt in Hlt. rewrite Hlt.
    apply in_or_app. left. now left. }
  apply Set_has_In in Hrm. congruence.
Qed.

(** What the clean-up leaves was there before it, aged by one frame if it
    was not matched. *)
Lemma sweep_survivor (r : FaceRegistry) (matched : list string) (now : Z)
  (id : string) (t' : TrackedFace.t) :
  NoDup (JsMap.keys (trackedFaces r)) ->
  In (id, t') (trackedFaces (sweep r matched now)) ->
  exists t, In (id, t) (trackedFaces r)
            /\ t' = (if Set_has matched id then t else missedFrame t)
            /\ (Set_has matched id = false ->
                TrackedFace.framesMissing t' <= maxFramesMissing r).
Proof.
  intros Hnd Hin. rewrite sweep_tracked in Hin by exact Hnd.
  apply filter_In in Hin. destruct Hin as [Hin Hkept]. simpl in Hkept.
  unfold aged in Hin. rewrite map_map in Hin. apply in_map_iff in Hin.
  destruct Hin as [[k t] [E Hin]]. simpl in E. injection E as -> <-.
  exists t. split; [exact Hin|]. split.
  - destruct (Set_has matched id); reflexivity.
  - intros Hun. rewrite Hun. simpl.
    destruct (Nat.ltb_spec (maxFramesMissing r)
                (S (TrackedFace.framesMissing t))) as [Hlt|Hle]; [|lia].
    exfalso. apply negb_true_iff in Hkept.
    assert (Hrm : In id (facesToRemove r matched now)).
    { apply (facesToRemove_In r matched now (id, t) id Hin). simpl.
      rewrite Hun. simpl. apply Nat.ltb_lt in Hlt. rewrite Hlt.
      apply in_or_app. left. now left. }
    apply Set_has_In in Hrm. congruence.
Qed.

Lemma sweep_keys_incl (r : FaceRegistry) (matched : list string) (now : Z) :
  NoDup (JsMap.keys (trackedFaces r)) ->
  incl (JsMap.keys (trackedFaces (sweep r matched now)))
    (JsMap.keys (trackedFaces r)).
Proof.
  intros Hnd k Hk. rewrite sweep_tracked in Hk by exact Hnd.
  rewrite <- (aged_keys r matched now).
  apply in_map_iff in Hk. destruct Hk as [e [<- He]].
  apply filter_In in He. now apply in_map.
Qed.

(** The keys after the matching loop: the keys before it, and ids made
    from counter values not yet passed when it began. *)
Lemma matchLoop_keys (now : Z) (ds : list NewFace.t) (st : Loop) (k : string) :
  In k (JsMap.keys
          (trackedFaces (registry (fold_left (matchDetection now) ds st)))) ->
  In k (JsMap.keys (trackedFaces (registry st)))
  \/ exists n, nextFaceId (registry st) <= n /\ k = face_ n.
Proof.
  revert st. induction ds as [|d ds IH]; intros st Hk; simpl in *;
    [now left|].
  destruct (IH _ Hk) as [Hin|[n [Hle ->]]].
  - revert Hin. unfold matchDetection.
    destruct (findBestMatch (registry st) d) as [m|] eqn:E; simpl;
      rewrite JsMap_set_keys.
    + destruct (findBestMatch_some _ _ _ E) as [Hm _].
      assert (Hhas : JsMap.has (trackedFaces (registry st)) (m_faceId m)
                     = true).
      { apply JsMap_has_keys. change (m_faceId m)
          with (fst (m_faceId m, m_trackedFace m)). now apply in_map. }
      rewrite Hhas. now left.
    + destruct (JsMap.has _ _); [now left|].
      intros Hin. apply in_app_or in Hin. destruct Hin as [Hin|[<-|[]]];
        [now left|]. right. exists (nextFaceId (registry st)). split;
        [lia|reflexivity].
  - right. exists n. split; [|reflexivity].
    pose proof (matchDetection_nextFaceId now st d). lia.
Qed.

(** One call and a tracked face it does not match. *)
Lemma trackDetections_unmatched (now : Z) (r : FaceRegistry) (n : nat)
  (ds : list NewFace.t) (id : string) (t : TrackedFace.t) :
  consistent r ->
  JsMap.get (trackedFaces r) id = Some t ->
  Set_has (matchedIn now r ds) id = false ->
  let r' := fst (trackDetections now r n ds) in
  (maxFramesMissing r < S (TrackedFace.framesMissing t) ->
   ~ In id (JsMap.keys (trackedFaces r'))
   /\ (TrackedFace.maskNumber t <> 1 ->
       ~ In (TrackedFace.maskNumber t) (usedMasks r')))
  /\ (forall t', In (id, t') (trackedFaces r') -> t' = missedFrame t).
Proof.
  intros C Hget Hun. unfold matchedIn in Hun. unfold trackDetections.
  set (st := fold_left (matchDetection now) ds (mkLoop r [] [])) in *.
  pose proof (matchLoop_consistent now ds (mkLoop r [] []) C) as C'.
  fold st in C'.
  pose proof (matchLoop_unmatched now ds (mkLoop r [] []) id t
                (keys_issued C) Hget Hun) as Hget'. fold st in Hget'.
  pose proof (JsMap_get_In _ _ _ Hget') as Hin'.
  pose proof (matchLoop_settings now ds (mkLoop r [] [])) as [_ [_ [Hmax _]]].
  fold st in Hmax. simpl in Hmax.
  set (r1 := sweep (registry st) (matchedFaceIds st) now).
  assert (Hsurv : forall t', In (id, t') (trackedFaces r1) ->
                    t' = missedFrame t).
  { intros t' Ht'.
    destruct (sweep_survivor (registry st) (matchedFaceIds st) now id t'
                (keys_unique C') Ht') as [t0 [Hin0 [-> _]]].
    rewrite Hun. f_equal.
    apply (JsMap_In_get _ _ _ (keys_unique C')) in Hin0. congruence. }
  assert (Hgone : maxFramesMissing r < S (TrackedFace.framesMissing t) ->
            ~ In id (JsMap.keys (trackedFaces r1))
            /\ (TrackedFace.maskNumber t <> 1 ->
                ~ In (TrackedFace.maskNumber t) (usedMasks r1))).
  { intros Hlt. rewrite <- Hmax in Hlt.
    pose proof (sweep_removes (registry st) (matchedFaceIds st) now id t
                  (keys_unique C') Hin' Hun Hlt) as Hrm.
    split; [exact Hrm|]. intros Hne1 Hmask.
    unfold usedMasks, JsMap.values in Hmask.
    apply in_map_iff in Hmask. destruct Hmask as [t' [Hsame Hmask]].
    apply in_map_iff in Hmask. destruct Hmask as [[k' t''] [E He]].
    simpl in E. subst t''.
    destruct (sweep_survivor (registry st) (matchedFaceIds st) now k' t'
                (keys_unique C') He) as [t0 [Hin0 [Ht' _]]].
    assert (Hmask0 : TrackedFace.maskNumber t0 = TrackedFace.maskNumber t).
    { rewrite <- Hsame, Ht'. destruct (Set_has _ k'); reflexivity. }
    assert (Hk : k' <> id).
    { intros ->. apply Hrm. change id with (fst (id, t')).
      now apply in_map. }
    apply Hne1. rewrite <- Hmask0.
    exact (shared_mask_is_one (trackedFaces (registry st)) k' id t0 t
             (only_one_shared C') Hin0 Hin' Hk Hmask0). }
  destruct (n =? 0)%nat; cbn [fst].
  - split.
    + intros _. unfold usedMasks. rewrite clear_tracked. simpl. tauto.
    + rewrite clear_tracked. intros t' [].
  - split; [exact Hgone|exact Hsurv].
Qed.

Lemma trackDetections_keys (now : Z) (r : FaceRegistry) (n : nat)
  (ds : list NewFace.t) (k : string) :
  consistent r ->
  In k (JsMap.keys (trackedFaces (fst (trackDetections now r n ds)))) ->
  In k (JsMap.keys (trackedFaces r))
  \/ exists i, nextFaceId r <= i /\ k = face_ i.
Proof.
  intros C. unfold trackDetections.
  pose proof (matchLoop_consistent now ds (mkLoop r [] []) C) as C'.
  destruct (n =? 0)%nat; cbn [fst].
  - rewrite clear_tracked. intros [].
  - intros Hk. apply (sweep_keys_incl _ _ _ (keys_unique C')) in Hk.
    apply (matchLoop_keys now ds (mkLoop r [] []) k Hk).
Qed.

(** Whatever [Math.atan2] computes: [face_6] carries mask 1 and is matched
    in the last call of [sharedMaskSession]; the next two calls match
    [face_1] only; the second of them removes [face_6], and mask 1 is still
    carried by [face_1], so the next new face gets mask 2. *)
Lemma sharedMaskSession_expiry (Math_atan2 : float -> float -> float) :
  exists r4 t r5 res5 r6 res6,
    session Math_atan2 constructor sharedMaskSession = Normal r4
    /\ JsMap.get (trackedFaces r4) "face_6" = Some t
    /\ TrackedFace.maskNumber t = 1
    /\ TrackedFace.framesMissing t = 0
    /\ processDetections Math_atan2 132 r4 [faceA] = Normal (r5, res5)
    /\ List.map Tagged.faceId res5 = ["face_1"%string]
    /\ JsMap.keys (trackedFaces r5)
       = ["face_1"; "face_2"; "face_3"; "face_4"; "face_6"]%string
    /\ processDetections Math_atan2 165 r5 [faceA] = Normal (r6, res6)
    /\ List.map Tagged.faceId res6 = ["face_1"%string]
    /\ JsMap.keys (trackedFaces r6) = ["face_1"%string]
    /\ usedMasks r6 = [1]
    /\ getNextMaskNumber r6 = 2.
Proof.
  do 6 eexists.
  split; [vm_compute; reflexivity|].
  split; [vm_compute; reflexivity|].
  split; [reflexivity|]. split; [reflexivity|].
  split; [vm_compute; reflexivity|].
  split; [reflexivity|]. split; [reflexivity|].
  split; [vm_compute; reflexivity|].
  repeat split.
Qed.


Section Expiry.
Variable Math_atan2 : float -> float -> float.


End Expiry.


(** ** A face created in a call *)

Lemma matchDetection_matched_keys (now : Z) (st : Loop) (d : NewFace.t) :
  (forall k, Set_has (matchedFaceIds st) k = true ->
     In k (JsMap.keys (trackedFaces (registry st)))) ->
  forall k, Set_has (matchedFaceIds (matchDetection now st d)) k = true ->
    In k (JsMap.keys (trackedFaces (registry (matchDetection now st d)))).
Proof.
  intros H k. unfold matchDetection.
  destruct (findBestMatch (registry st) d) as [m|] eqn:E; simpl;
    rewrite JsMap_set_keys.
  - destruct (findBestMatch_some _ _ _ E) as [Hin _].
    assert (Hkey : In (m_faceId m) (JsMap.keys (trackedFaces (registry st)))).
    { change (m_faceId m) with (fst (m_faceId m, m_trackedFace m)).
      now apply in_map. }
    rewrite (proj2 (JsMap_has_keys _ _) Hkey), Set_has_add.
    intros Hk. apply orb_true_iff in Hk. destruct Hk as [Hk|Hk].
    + now apply H.
    + apply String.eqb_eq in Hk. now subst.
  - intros Hk. apply H in Hk. destruct (JsMap.has _ _); [trivial|].
    apply in_or_app. now left.
Qed.

Lemma matchLoop_matched_keys (now : Z) (ds : list NewFace.t) (st : Loop) :
  (forall k, Set_has (matchedFaceIds st) k = true ->
     In k (JsMap.keys (trackedFaces (registry st)))) ->
  forall k,
    Set_has (matchedFaceIds (fold_left (matchDetection now) ds st)) k = true ->
    In k (JsMap.keys
            (trackedFaces (registry (fold_left (matchDetection now) ds st)))).
Proof.
  revert st. induction ds as [|d ds IH]; intros st H; simpl; [exact H|].
  apply IH. now apply matchDetection_matched_keys.
Qed.

(** Two faces appear in one frame and only the first is seen in the next:
    the second is removed by that next call. *)
Lemma newcomer_leaves_after_one_frame
  (Math_atan2 : float -> float -> float) :
  exists r1 r2,
    session Math_atan2 constructor [(0%Z, [faceA; faceB])] = Normal r1
    /\ List.map
         (fun e => (fst e, TrackedFace.framesMissing (snd e)))
         (trackedFaces r1)
       = [("face_1"%string, 1); ("face_2"%string, 1)]
    /\ session Math_atan2 r1 [(33%Z, [faceA])] = Normal r2
    /\ JsMap.keys (trackedFaces r2) = ["face_1"%string].
Proof.
  do 2 eexists. split; [vm_compute; reflexivity|].
  split; [reflexivity|]. split; [vm_compute; reflexivity|]. reflexivity.
Qed.

(** ** A frame with no usable detection *)

(** An id is pushed on [facesToRemove] by its own entry only. *)
Lemma facesToRemove_inv (r : FaceRegistry) (matched : list string) (now : Z)
  (k : string) :
  In k (facesToRemove r matched now) ->
  exists t, In (k, t) (trackedFaces r)
            /\ ((Set_has matched k = false
                 /\ maxFramesMissing r < S (TrackedFace.framesMissing t))
                \/ (maxFaceAge r < now - TrackedFace.lastSeen t)%Z).
Proof.
  unfold facesToRemove. intros Hin. apply in_concat in Hin.
  destruct Hin as [ks [Hks Hk]]. apply in_map_iff in Hks.
  destruct Hks as [sw [<- Hsw]]. apply in_map_iff in Hsw.
  destruct Hsw as [[k0 t] [<- He]]. simpl in Hk.
  apply in_app_or in Hk. destruct Hk as [Hk|Hk].
  - destruct (Set_has matched k0) eqn:Em; simpl in Hk; [contradiction|].
    destruct (Nat.ltb_spec (maxFramesMissing r)
                (S (TrackedFace.framesMissing t))) as [Hlt|];
      [|contradiction].
    destruct Hk as [<-|[]]. exists t. split; [exact He|]. left. now split.
  - assert (Hlast : TrackedFace.lastSeen
                      (if negb (Set_has matched k0) then missedFrame t else t)
                    = TrackedFace.lastSeen t)
      by (destruct (negb _); reflexivity).
    rewrite Hlast in Hk.
    destruct (Z.ltb_spec (maxFaceAge r) (now - TrackedFace.lastSeen t))
      as [Hlt|]; [|contradiction].
    destruct Hk as [<-|[]]. exists t. split; [exact He|]. now right.
Qed.

(** The clean-up keeps an unmatched face that is neither missing for too
    long nor stale, with its counter one higher. *)
Lemma sweep_keeps (r : FaceRegistry) (matched : list string) (now : Z)
  (id : string) (t : TrackedFace.t) :
  NoDup (JsMap.keys (trackedFaces r)) ->
  In (id, t) (trackedFaces r) ->
  Set_has matched id = false ->
  S (TrackedFace.framesMissing t) <= maxFramesMissing r ->
  (now - TrackedFace.lastSeen t <= maxFaceAge r)%Z ->
  In (id, missedFrame t) (trackedFaces (sweep r matched now)).
Proof.
  intros Hnd Hin Hun Hfm Hage. rewrite sweep_tracked by exact Hnd.
  apply filter_In. split.
  - unfold aged. rewrite map_map. apply in_map_iff. exists (id, t).
    split; [|exact Hin]. simpl. now rewrite Hun.
  - simpl. apply negb_true_iff.
    destruct (Set_has (facesToRemove r matched now) id) eqn:E; [|reflexivity].
    apply Set_has_In in E. apply facesToRemove_inv in E.
    destruct E as [t0 [Hin0 Hwhy]].
    assert (t0 = t).
    { apply (JsMap_In_get _ _ _ Hnd) in Hin0, Hin. congruence. }
    subst t0. destruct Hwhy as [[_ Hlt]|Hlt]; lia.
Qed.

(** Whatever [Math.atan2] computes: after [steadySession], a frame whose
    only detection has no centre returns the empty list and leaves [face_1]
    tracked. *)
Lemma steadySession_no_centre (Math_atan2 : float -> float -> float) :
  exists r r',
    session Math_atan2 constructor steadySession = Normal r
    /\ newDetections Math_atan2 [noFace] = Normal []
    /\ processDetections Math_atan2 66 r [noFace] = Normal (r', [])
    /\ JsMap.keys (trackedFaces r') = ["face_1"%string].
Proof.
  do 2 eexists. split; [vm_compute; reflexivity|].
  split; [reflexivity|]. split; [vm_compute; reflexivity|]. reflexivity.
Qed.

(** C3, as stated, fails: the detections left after the filter are none,
    and a face is still tracked after the call. *)
Lemma no_centre_counterexample :
  exists r r',
    session atan2_level constructor steadySession = Normal r
    /\ newDetections atan2_level [noFace] = Normal []
    /\ processDetections atan2_level 66 r [noFace] = Normal (r', [])
    /\ JsMap.keys (trackedFaces r') = ["face_1"%string]
    /\ trackedFaces r' <> [].
Proof.
  destruct (steadySession_no_centre atan2_level) as [r [r' [E [D [P K]]]]].
  exists r, r'. repeat split; trivial.
  intros Hnil. rewrite Hnil in K. discriminate.
Qed.

Section EmptyFrame.
Variable Math_atan2 : float -> float -> float.

(** C3, amended.  When no detection of the frame has a centre, the call
    returns the empty list.  If the list of detections is itself empty,
    no face is tracked after the call.  If it is not, the tracked faces
    only go through the clean-up, none of them matched: a face missing for
    fewer than [maxFramesMissing] frames and seen within [maxFaceAge] is
    kept, with its counter one higher. *)
Theorem frame_without_centres (now : Z) (r : FaceRegistry)
  (currentFaces : list Landmarks) :
  newDetections Math_atan2 currentFaces = Normal [] ->
  exists r',
    processDetections Math_atan2 now r currentFaces = Normal (r', [])
    /\ (currentFaces = [] -> trackedFaces r' = [])
    /\ (currentFaces <> [] ->
        r' = sweep r [] now
        /\ forall id t,
             NoDup (JsMap.keys (trackedFaces r)) ->
             In (id, t) (trackedFaces r) ->
             S (TrackedFace.framesMissing t) <= maxFramesMissing r ->
             (now - TrackedFace.lastSeen t <= maxFaceAge r)%Z ->
             In (id, missedFrame t) (trackedFaces r')).
Proof.
  intros Hnone. unfold processDetections. rewrite Hnone. simpl.
  unfold trackDetections. simpl.
  destruct currentFaces as [|face faces]; simpl.
  - eexists. split; [reflexivity|]. split; [|congruence].
    intros _. apply clear_tracked.
  - eexists. split; [reflexivity|]. split; [discriminate|].
    intros _. split; [reflexivity|].
    intros id t Hnd Hin Hfm Hage. now apply sweep_keeps.
Qed.

End EmptyFrame.

Lemma frame_without_centres_witness :
  session atan2_level constructor steadySession = Normal afterSteady
  /\ exists r',
       processDetections atan2_level 66 afterSteady [noFace] = Normal (r', [])
       /\ In ("face_1"%string, missedFrame steadyA) (trackedFaces r').
Proof.
  split; [vm_compute; reflexivity|].
  destruct (frame_without_centres atan2_level 66 afterSteady [noFace]
              eq_refl) as [r' [E [_ H]]].
  exists r'. split; [exact E|].
  destruct H as [_ H]; [discriminate|].
  apply H.
  - simpl. repeat constructor. simpl. tauto.
  - simpl. now left.
  - simpl. lia.
  - simpl. lia.
Defined.

(** ** Smoothing *)

Lemma lerp_error (alpha target s : Q) :
  (lerp s target alpha - target == (s - target) * (1 - alpha))%Q.
Proof. unfold lerp. simpl. ring. Qed.

Lemma held_succ {N : Type} `{Arithmetic N} (alpha target s0 : N) (n : nat) :
  held alpha target (S n) s0 = lerp (held alpha target n s0) target alpha.
Proof. reflexivity. Qed.

Lemma Qpower_succ (q : Q) (n : nat) :
  (q ^ Z.of_nat (S n) == q ^ Z.of_nat n * q)%Q.
Proof.
  rewrite Nat2Z.inj_succ, <- Z.add_1_r, Qpower_plus' by lia.
  now rewrite Qpower_1_r.
Qed.

(** Over the rationals the distance to the target shrinks by the factor
    [1 - alpha] with every frame. *)
Lemma held_error (alpha target s0 : Q) (n : nat) :
  (held alpha target n s0 - target
   == (s0 - target) * (1 - alpha) ^ Z.of_nat n)%Q.
Proof.
  induction n as [|n IH].
  - simpl. ring.
  - rewrite held_succ, lerp_error, IH, Qpower_succ. ring.
Qed.

Lemma nextCache_entry (g : Geometry) (faceData : Tagged.t)
  (prevFaceData : list PrevData.t) :
  nextCache g faceData prevFaceData
  = [remember (smooth prevFaceData g faceData)].
Proof. reflexivity. Qed.

Lemma findPrev_nextCache (g : Geometry) (faceData : Tagged.t)
  (prevFaceData : list PrevData.t) :
  findPrev (nextCache g faceData prevFaceData) (Tagged.faceId faceData)
  = Some (remember (smooth prevFaceData g faceData)).
Proof.
  assert (E : PrevData.faceId (remember (smooth prevFaceData g faceData))
              = Tagged.faceId faceData).
  { unfold smooth. destruct (findPrev prevFaceData _); reflexivity. }
  rewrite nextCache_entry. unfold findPrev. cbn [find].
  now rewrite E, String.eqb_refl.
Qed.

Lemma smooth_cached (prevFaceData : list PrevData.t) (g : Geometry)
  (faceData : Tagged.t) (prevData : PrevData.t) :
  findPrev prevFaceData (Tagged.faceId faceData) = Some prevData ->
  smooth prevFaceData g faceData
  = SmoothData.mk
      (lerp (PrevData.x prevData) (pixelX (project g faceData)) 0.2%float)
      (lerp (PrevData.y prevData) (pixelY (project g faceData)) 0.2%float)
      (lerp (PrevData.rotation prevData)
         (mirroredRotation (project g faceData)) 0.2%float)
      (lerp (PrevData.size prevData)
         (scaledMaskSize (project g faceData)) 0.2%float)
      (Tagged.maskNumber faceData) (Tagged.faceId faceData).
Proof. intros E. unfold smooth. now rewrite E. Qed.

(** [n] frames in which the registry returns the same single face and the
    geometry stays the same: each cached value is [held]. *)
Lemma cache_after_frames (g : Geometry) (faceData : Tagged.t) (n : nat)
  (prevFaceData : list PrevData.t) (prevData : PrevData.t) :
  findPrev prevFaceData (Tagged.faceId faceData) = Some prevData ->
  exists cached,
    findPrev (Nat.iter n (nextCache g faceData) prevFaceData)
      (Tagged.faceId faceData) = Some cached
    /\ PrevData.x cached
       = held 0.2%float (pixelX (project g faceData)) n
           (PrevData.x prevData)
    /\ PrevData.y cached
       = held 0.2%float (pixelY (project g faceData)) n
           (PrevData.y prevData)
    /\ PrevData.rotation cached
       = held 0.2%float (mirroredRotation (project g faceData)) n
           (PrevData.rotation prevData)
    /\ PrevData.size cached
       = held 0.2%float (scaledMaskSize (project g faceData)) n
           (PrevData.size prevData).
Proof.
  intros E0. induction n as [|n [cached [E [Hx [Hy [Hr Hs]]]]]].
  - exists prevData. simpl. repeat split; trivial.
  - simpl Nat.iter. rewrite findPrev_nextCache.
    eexists. split; [reflexivity|].
    rewrite (smooth_cached _ g faceData cached E).
    unfold remember.
    cbn [PrevData.x PrevData.y PrevData.rotation PrevData.size
         SmoothData.x SmoothData.y SmoothData.rotation SmoothData.size].
    rewrite !held_succ, Hx, Hy, Hr, Hs. repeat split.
Qed.

(** [applySmoothInterpolation] returns normally: it smooths the entries
    [processDetections] returns, in their order. *)
Lemma applySmoothInterpolation_returns
  (Math_atan2 : float -> float -> float) (now : Z) (g : Geometry)
  (r : FaceRegistry) (prevFaceData : list PrevData.t)
  (currentFaces : list Landmarks) :
  exists r' trackedFaces,
    processDetections Math_atan2 now r currentFaces
    = Normal (r', trackedFaces)
    /\ applySmoothInterpolation Math_atan2 now g (r, prevFaceData)
         currentFaces
       = Normal ((r', fst (smoothFaces prevFaceData g trackedFaces)),
                 List.map (smooth prevFaceData g) trackedFaces).
Proof.
  destruct (processDetections_returns Math_atan2 now r currentFaces)
    as [ds [_ [_ E]]].
  destruct (trackDetections now r (List.length currentFaces) ds)
    as [r' trackedFaces] eqn:T.
  exists r', trackedFaces. split; [exact E|].
  unfold applySmoothInterpolation. rewrite E. reflexivity.
Qed.

(** * Further properties *)

(** ** [reset] and [getStats] *)

Lemma JsMap_set_In {V : Type} (m : JsMap.t V) (k k' : string) (v v' : V) :
  In (k', v') (JsMap.set m k v) -> (k', v') = (k, v) \/ In (k', v') m.
Proof.
  induction m as [|[k0 v0] m IH]; simpl.
  - intros [H|[]]. left. now symmetry.
  - destruct (String.eqb_spec k k0); simpl.
    + subst k0. intros [H|H]; [left; now symmetry|right; now right].
    + intros [H|H]; [right; now left|].
      destruct (IH H) as [E|Hin]; [now left|right; now right].
Qed.

Lemma matchDetection_well_kept (now : Z) (st : Loop) (d : NewFace.t) :
  well_kept (registry st) -> well_kept (registry (matchDetection now st d)).
Proof.
  intros W k t. unfold matchDetection.
  destruct (findBestMatch (registry st) d) as [m|] eqn:E; simpl; intros Hin;
    apply JsMap_set_In in Hin; destruct Hin as [Heq|Hin];
    try (now apply W).
  - injection Heq as -> ->. simpl.
    destruct (findBestMatch_some _ _ _ E) as [Hm _].
    split; [apply (W _ _ Hm)|lia].
  - injection Heq as -> ->. simpl. split; [reflexivity|lia].
Qed.

Lemma matchLoop_well_kept (now : Z) (ds : list NewFace.t) (st : Loop) :
  well_kept (registry st) ->
  well_kept (registry (fold_left (matchDetection now) ds st)).
Proof.
  revert st. induction ds as [|d ds IH]; intros st W; simpl; [trivial|].
  apply IH. now apply matchDetection_well_kept.
Qed.

Lemma sweep_well_kept (r : FaceRegistry) (matched : list string) (now : Z) :
  NoDup (JsMap.keys (trackedFaces r)) ->
  well_kept r -> well_kept (sweep r matched now).
Proof.
  intros Hnd W k t' Hin.
  destruct (sweep_survivor r matched now k t' Hnd Hin)
    as [t [Hin0 [Ht' Hfm]]].
  destruct (W k t Hin0) as [Hid Hle].
  change (maxFramesMissing (sweep r matched now)) with (maxFramesMissing r).
  destruct (Set_has matched k) eqn:E.
  - subst t'. now split.
  - split; [subst t'; exact Hid|now apply Hfm].
Qed.

Lemma trackDetections_well_kept (now : Z) (r : FaceRegistry) (n : nat)
  (ds : list NewFace.t) :
  consistent r -> well_kept r ->
  well_kept (fst (trackDetections now r n ds)).
Proof.
  intros C W. unfold trackDetections.
  pose proof (matchLoop_consistent now ds (mkLoop r [] []) C) as C'.
  pose proof (matchLoop_well_kept now ds (mkLoop r [] []) W) as W'.
  destruct (n =? 0)%nat; cbn [fst].
  - intros k t Hin. rewrite clear_tracked in Hin. contradiction.
  - apply sweep_well_kept; [apply (keys_unique C')|exact W'].
Qed.

Section ResetAndStats.
Variable Math_atan2 : float -> float -> float.

Lemma session_well_kept (frames : list Frame) :
  exists r, session Math_atan2 constructor frames = Normal r
            /\ consistent r /\ same_settings constructor r /\ well_kept r.
Proof.
  apply (session_invariant Math_atan2
           (fun r => consistent r /\ same_settings constructor r
                     /\ well_kept r)).
  - intros now r n ds [C [S W]]. split; [|split].
    + now apply trackDetections_consistent.
    + eapply same_settings_trans; [exact S|apply trackDetections_settings].
    + now apply trackDetections_well_kept.
  - split; [apply constructor_consistent|].
    split; [apply same_settings_refl|]. intros k t [].
Qed.

(** After any session that starts from a new registry, [reset] gives back
    the state of a new registry: no tracked face, the counter at 1 and the
    settings of the constructor.  Resetting twice is resetting once. *)
Theorem reset_restores_constructor (frames : list Frame) :
  exists r,
    session Math_atan2 constructor frames = Normal r
    /\ reset r = constructor
    /\ reset (reset r) = reset r
    /\ getNextMaskNumber (reset r) = 1
    /\ face_ (nextFaceId (reset r)) = "face_1"%string.
Proof.
  destruct (session_consistent Math_atan2 frames)
    as [r [E [_ [Hfaces [Hthreshold [Hmissing Hage]]]]]].
  exists r. split; [exact E|].
  assert (R : reset r = constructor).
  { unfold reset, set_nextFaceId, set_trackedFaces. simpl.
    rewrite Hfaces, Hthreshold, Hmissing, Hage. reflexivity. }
  split; [exact R|]. rewrite R. repeat split.
Qed.

(** The object [getStats] returns after any session that starts from a new
    registry: the count is the number of ids and of assignments; the
    assignments list the ids in map order, each tracked face being stored
    under its own [faceId]; no id occurs twice; every mask number is
    within [1 .. 5] and every tracked face has missed at most one frame. *)
Theorem getStats_coherent (frames : list Frame) :
  exists r,
    session Math_atan2 constructor frames = Normal r
    /\ let stats := getStats r in
       Stats.trackedFaces stats = List.length (Stats.faceIds stats)
       /\ Stats.trackedFaces stats
          = List.length (Stats.maskAssignments stats)
       /\ List.map MaskAssignment.id (Stats.maskAssignments stats)
          = Stats.faceIds stats
       /\ NoDup (Stats.faceIds stats)
       /\ forall a, In a (Stats.maskAssignments stats) ->
            1 <= MaskAssignment.mask a <= 5
            /\ MaskAssignment.missing a <= 1.
Proof.
  destruct (session_well_kept frames)
    as [r [E [C [[Hfaces [_ [Hmissing _]]] W]]]].
  simpl in Hfaces, Hmissing.
  exists r. split; [exact E|]. cbv zeta. unfold getStats. simpl.
  split; [unfold JsMap.keys; now rewrite length_map|].
  split; [unfold JsMap.values; now rewrite !length_map|].
  split.
  { unfold JsMap.values, JsMap.keys. rewrite !map_map.
    apply map_ext_in. intros [k t] Hin. simpl. apply (W k t Hin). }
  split; [apply (keys_unique C)|].
  intros a Ha. apply in_map_iff in Ha. destruct Ha as [t [<- Ht]]. simpl.
  unfold JsMap.values in Ht. apply in_map_iff in Ht.
  destruct Ht as [[k t0] [Heq Hin]]. simpl in Heq. subst t0.
  split.
  - rewrite <- Hfaces. apply (masks_in_range C).
    unfold usedMasks, JsMap.values. apply in_map, in_map_iff.
    now exists (k, t).
  - rewrite <- Hmissing. apply (W k t Hin).
Qed.

End ResetAndStats.

(** ** The projected size *)

Lemma not_nan_spec (a : float) : is_nan a = false -> Prim2SF a <> S754_nan.
Proof.
  unfold is_nan. rewrite FloatAxioms.eqb_spec. intros H E. rewrite E in H.
  discriminate.
Qed.

(** Two numbers, neither of them NaN: if the first is not less than the
    second, the second is at most the first. *)
Lemma not_lt_le (a b : float) :
  is_nan a = false -> is_nan b = false ->
  (a <? b)%float = false -> (b <=? a)%float = true.
Proof.
  intros Ha Hb. apply not_nan_spec in Ha, Hb. rewrite ltb_spec, leb_spec.
  unfold SFltb, SFleb.
  destruct (Prim2SF a) as [[]|[]| |[] ma ea],
    (Prim2SF b) as [[]|[]| |[] mb eb];
    try congruence; simpl; try reflexivity; try discriminate;
    change (PosDef.Pos.compare_cont Eq) with Pos.compare;
    rewrite (Z.compare_antisym ea eb), (Pos.compare_antisym ma mb);
    destruct (ea ?= eb)%Z, (ma ?= mb)%positive; simpl;
    try reflexivity; try discriminate.
Qed.

Lemma lt_not_gt (a b : float) :
  (a <? b)%float = true -> (b <? a)%float = false.
Proof.
  intros H. destruct (b <? a)%float eqn:E; [|reflexivity].
  pose proof (gt_trans a b a E H) as Hc. rewrite gt_irrefl in Hc.
  discriminate.
Qed.

(** [Math.max(100, Math.min(800, b))]: NaN when [b] is, and otherwise
    within [100 .. 800]. *)
Lemma clamp_range (b : float) :
  let s := Math.max 100 (Math.min 800 b) in
  is_nan s = is_nan b
  /\ (is_nan b = false ->
      (100 <=? s)%float = true /\ (s <=? 800)%float = true).
Proof.
  cbv zeta. unfold Math.min.
  change (is_nan 800) with false. change (get_sign 800) with false.
  cbn [orb]. destruct (is_nan b) eqn:Hnan.
  - split; [reflexivity|discriminate].
  - assert (Hb : forall m, m = b -> (800 <? b)%float = false ->
              is_nan (Math.max 100 m) = false
              /\ (100 <=? Math.max 100 m)%float = true
              /\ (Math.max 100 m <=? 800)%float = true).
    { intros m -> Hle. unfold Math.max.
      change (is_nan 100) with false. change (get_sign 100) with false.
      rewrite Hnan. cbn [orb].
      destruct (100 <? b)%float eqn:E1.
      - split; [exact Hnan|]. split.
        + apply not_lt_le; trivial. now apply lt_not_gt.
        + now apply not_lt_le.
      - destruct (b <? 100)%float; repeat split. }
    destruct (800 <? b)%float eqn:E.
    + repeat split.
    + assert (Hm : (if (b <? 800)%float then b else b) = b)
        by (destruct (b <? 800)%float; reflexivity).
      rewrite Hm. destruct (Hb b eq_refl eq_refl) as [H1 [H2 H3]].
      split; [exact H1|]. intros _. now split.
Qed.

(** The height of the displayed video that [project] works with. *)
Lemma project_size (g : Geometry) (faceData : Tagged.t) :
  exists displayedVideoHeight,
    (displayedVideoHeight = rect_height g
     \/ displayedVideoHeight
        = (rect_width g / (videoWidth g / videoHeight g))%float)
    /\ scaledMaskSize (project g faceData)
       = Math.max 100
           (Math.min 800
              (Tagged.size faceData * displayedVideoHeight * 2.5)%float).
Proof.
  unfold project.
  destruct ((videoWidth g / videoHeight g >? rect_width g / rect_height g)
              %float); cbn [scaledMaskSize].
  - exists (rect_height g). split; [now left|reflexivity].
  - exists (rect_width g / (videoWidth g / videoHeight g))%float.
    split; [now right|reflexivity].
Qed.

(** The size [project] gives a mask is within [100 .. 800] pixels, unless
    the face size times the displayed height is NaN, in which case the size
    is NaN: the clamp does not catch a NaN. *)
Theorem mask_size_clamped (g : Geometry) (faceData : Tagged.t) :
  let size := scaledMaskSize (project g faceData) in
  (is_nan size = false ->
   (100 <=? size)%float = true /\ (size <=? 800)%float = true)
  /\ exists displayedVideoHeight,
       (displayedVideoHeight = rect_height g
        \/ displayedVideoHeight
           = (rect_width g / (videoWidth g / videoHeight g))%float)
       /\ is_nan size
          = is_nan (Tagged.size faceData * displayedVideoHeight * 2.5)%float.
Proof.
  cbv zeta. destruct (project_size g faceData) as [h [Hh ->]].
  destruct (clamp_range (Tagged.size faceData * h * 2.5)%float)
    as [Hnan Hrange].
  split.
  - intros H. apply Hrange. now rewrite <- Hnan.
  - exists h. split; [exact Hh|exact Hnan].
Qed.

Lemma mask_size_clamped_witness :
  scaledMaskSize (project sameSize taggedA) = 300%float
  /\ (100 <=? 300)%float = true /\ (300 <=? 800)%float = true.
Proof.
  destruct (mask_size_clamped sameSize taggedA) as [H _].
  split; [reflexivity|]. exact (H eq_refl).
Defined.

(** ** The cache of smoothed poses *)

Lemma smooth_tags (prevFaceData : list PrevData.t) (g : Geometry)
  (faceData : Tagged.t) :
  SmoothData.faceId (smooth prevFaceData g faceData) = Tagged.faceId faceData
  /\ SmoothData.maskNumber (smooth prevFaceData g faceData)
     = Tagged.maskNumber faceData.
Proof.
  unfold smooth. destruct (findPrev prevFaceData _); split; reflexivity.
Qed.

Lemma findPrev_some_iff (cache : list PrevData.t) (faceId : string) :
  (exists p, findPrev cache faceId = Some p)
  <-> In faceId (List.map PrevData.faceId cache).
Proof.
  unfold findPrev. split.
  - intros [p H]. apply find_some in H. destruct H as [Hin E].
    apply String.eqb_eq in E. subst. now apply in_map.
  - intros Hin. apply in_map_iff in Hin. destruct Hin as [p [E Hin]].
    destruct (find _ cache) as [q|] eqn:F; [now exists q|].
    apply (find_none _ _ F) in Hin. rewrite E, String.eqb_refl in Hin.
    discriminate.
Qed.

(** What [applySmoothInterpolation] does with the entries
    [processDetections] returned: one smoothed face for each, in the same
    order, with the same id and mask number; the new cache holds exactly
    the smoothed values, under the ids of this frame and no other, so the
    pose of an id that is not returned this frame is forgotten.  The
    explicit emptying of the cache for an empty list changes nothing. *)
Theorem smoothFaces_ids (prevFaceData : list PrevData.t) (g : Geometry)
  (trackedFaces : list Tagged.t) :
  let cache := fst (smoothFaces prevFaceData g trackedFaces) in
  let newSmoothFaces := snd (smoothFaces prevFaceData g trackedFaces) in
  List.map SmoothData.faceId newSmoothFaces
  = List.map Tagged.faceId trackedFaces
  /\ List.map SmoothData.maskNumber newSmoothFaces
     = List.map Tagged.maskNumber trackedFaces
  /\ cache = List.map remember newSmoothFaces
  /\ List.map PrevData.faceId cache = List.map Tagged.faceId trackedFaces
  /\ forall faceId,
       (exists p, findPrev cache faceId = Some p)
       <-> In faceId (List.map Tagged.faceId trackedFaces).
Proof.
  cbv zeta. unfold smoothFaces. cbn [fst snd].
  assert (Hid : List.map SmoothData.faceId
                  (List.map (smooth prevFaceData g) trackedFaces)
                = List.map Tagged.faceId trackedFaces).
  { rewrite map_map. apply map_ext. intros f. apply smooth_tags. }
  assert (Hcache :
    (if (List.length trackedFaces =? 0)%nat then []
     else List.map remember (List.map (smooth prevFaceData g) trackedFaces))
    = List.map remember (List.map (smooth prevFaceData g) trackedFaces)).
  { destruct trackedFaces; reflexivity. }
  rewrite Hcache.
  assert (Hkeys : List.map PrevData.faceId
                    (List.map remember
                       (List.map (smooth prevFaceData g) trackedFaces))
                  = List.map Tagged.faceId trackedFaces).
  { rewrite <- Hid, map_map. reflexivity. }
  split; [exact Hid|]. split.
  { rewrite map_map. apply map_ext. intros f. apply smooth_tags. }
  split; [reflexivity|]. split; [exact Hkeys|].
  intros faceId. rewrite findPrev_some_iff, Hkeys. reflexivity.
Qed.

Lemma findPrev_unique (cache : list PrevData.t) (p : PrevData.t) :
  NoDup (List.map PrevData.faceId cache) -> In p cache ->
  findPrev cache (PrevData.faceId p) = Some p.
Proof.
  unfold findPrev. induction cache as [|q cache IH]; simpl; [contradiction|].
  intros Hnd Hin. inversion Hnd as [|? ? Hnotin Hnd']; subst.
  destruct (String.eqb_spec (PrevData.faceId q) (PrevData.faceId p)) as [E|E].
  - destruct Hin as [->|Hin]; [reflexivity|].
    exfalso. apply Hnotin. rewrite E. now apply in_map.
  - destruct Hin as [->|Hin]; [congruence|]. now apply IH.
Qed.

(** The cache is keyed by id, not by position: when no id occurs twice in
    it, listing its entries in another order changes no smoothed face. *)
Theorem smooth_keyed_by_id (cache cache' : list PrevData.t) (g : Geometry)
  (faceData : Tagged.t) :
  Permutation cache cache' ->
  NoDup (List.map PrevData.faceId cache) ->
  smooth cache g faceData = smooth cache' g faceData.
Proof.
  intros Hperm Hnd.
  assert (Hnd' : NoDup (List.map PrevData.faceId cache')).
  { eapply Permutation_NoDup; [|exact Hnd]. now apply Permutation_map. }
  assert (E : findPrev cache (Tagged.faceId faceData)
              = findPrev cache' (Tagged.faceId faceData)).
  { destruct (findPrev cache (Tagged.faceId faceData)) as [p|] eqn:F.
    - pose proof F as F'. unfold findPrev in F'. apply find_some in F'.
      destruct F' as [Hin Hid]. apply String.eqb_eq in Hid.
      rewrite <- Hid. symmetry. apply findPrev_unique; [exact Hnd'|].
      now apply (Permutation_in _ Hperm).
    - destruct (findPrev cache' (Tagged.faceId faceData)) as [q|] eqn:F';
        [|reflexivity].
      exfalso.
      assert (Hin : In (Tagged.faceId faceData)
                      (List.map PrevData.faceId cache)).
      { apply (Permutation_in _ (Permutation_sym
                 (Permutation_map PrevData.faceId Hperm))).
        apply findPrev_some_iff. now exists q. }
      apply findPrev_some_iff in Hin. destruct Hin as [p Hp]. congruence. }
  unfold smooth. now rewrite E.
Qed.

Lemma smooth_keyed_by_id_witness :
  smooth [PrevData.mk "face_2" 0 0 0 100; cachedA] sameSize taggedA
  = smooth [cachedA; PrevData.mk "face_2" 0 0 0 100] sameSize taggedA.
Proof.
  apply smooth_keyed_by_id.
  - apply perm_swap.
  - simpl. repeat constructor; simpl; [|tauto].
    intros [H|[]]. discriminate.
Defined.

(** ** The helpers of the component *)

Section ComponentHelpers.
Variable Math_atan2 : float -> float -> float.

(** [calculateHeadRotation] of the component is the registry's method
    without its [try]: the method is the component's function with every
    throw turned into 0, and the component's function throws a TypeError
    exactly when the array is not empty and lacks one of the four eye
    corners 33, 133, 362, 263. *)
Theorem component_rotation_unguarded (landmarks : Landmarks) :
  calculateHeadRotation Math_atan2 landmarks
  = try_catch (PhotoBooth.calculateHeadRotation Math_atan2 landmarks)
      (fun error => Normal 0%float)
  /\ (PhotoBooth.calculateHeadRotation Math_atan2 landmarks = Throw TypeError
      <-> exists l, landmarks = Some l /\ l <> []
            /\ (at_index l 33 = None \/ at_index l 133 = None
                \/ at_index l 362 = None \/ at_index l 263 = None))
  /\ (forall angle,
        PhotoBooth.calculateHeadRotation Math_atan2 landmarks = Normal angle
        -> calculateHeadRotation Math_atan2 landmarks = Normal angle).
Proof.
  split; [|split].
  - destruct landmarks as [[|p l]|]; reflexivity.
  - destruct landmarks as [[|p0 l0]|]; simpl.
    + split; [discriminate|]. intros [l [E [Hne _]]]. congruence.
    + remember (p0 :: l0) as l eqn:El. split.
      * intros H. exists l. split; [reflexivity|].
        split; [subst; discriminate|].
        unfold midpoint, prop, bind in H.
        destruct (at_index l 33); [|tauto].
        destruct (at_index l 133); [|tauto].
        destruct (at_index l 362); [|tauto].
        destruct (at_index l 263); [|tauto].
        discriminate.
      * intros [l' [E [_ H]]]. injection E as <-.
        unfold midpoint, prop, bind.
        destruct (at_index l 33), (at_index l 133),
          (at_index l 362), (at_index l 263);
          try reflexivity; destruct H as [H|[H|[H|H]]]; discriminate.
    + split; [discriminate|]. intros [l [E _]]. discriminate.
  - intros angle H.
    destruct landmarks as [[|p l]|]; simpl in *; try exact H.
    now rewrite H.
Qed.

(** [calculateFaceCenter] of the component computes what the registry's
    method computes.  [calculateFaceSize] of the component does so only
    when the array has the four outline points 10, 152, 234, 454; in every
    other case it returns 200 where the method returns 0.2. *)
Theorem component_size_default (landmarks : Landmarks) :
  PhotoBooth.calculateFaceCenter landmarks = calculateFaceCenter landmarks
  /\ ((exists l top bottom left right,
         landmarks = Some l
         /\ at_index l 10 = Some top /\ at_index l 152 = Some bottom
         /\ at_index l 234 = Some left /\ at_index l 454 = Some right
         /\ PhotoBooth.calculateFaceSize landmarks
            = Normal (Math.max (Math.abs (y bottom - y top))
                               (Math.abs (x right - x left)))
         /\ calculateFaceSize landmarks
            = PhotoBooth.calculateFaceSize landmarks)
      \/ (PhotoBooth.calculateFaceSize landmarks = Normal 200%float
          /\ calculateFaceSize landmarks = Normal 0.2%float
          /\ forall l, landmarks = Some l ->
               at_index l 10 = None \/ at_index l 152 = None
               \/ at_index l 234 = None \/ at_index l 454 = None)).
Proof.
  split; [reflexivity|].
  destruct landmarks as [[|p0 l0]|].
  - right. repeat split. intros l [= <-]. now left.
  - remember (p0 :: l0) as l eqn:El.
    assert (Hlen : (List.length l =? 0)%nat = false) by (subst; reflexivity).
    unfold PhotoBooth.calculateFaceSize, calculateFaceSize. rewrite Hlen.
    destruct (at_index l 10) as [top|] eqn:E1;
      [|right; repeat split; intros l' [= <-]; tauto].
    destruct (at_index l 152) as [bottom|] eqn:E2;
      [|right; repeat split; intros l' [= <-]; tauto].
    destruct (at_index l 234) as [left_|] eqn:E3;
      [|right; repeat split; intros l' [= <-]; tauto].
    destruct (at_index l 454) as [right_|] eqn:E4;
      [|right; repeat split; intros l' [= <-]; tauto].
    left. exists l, top, bottom, left_, right_. repeat split; assumption.
  - right. repeat split. discriminate.
Qed.

End ComponentHelpers.

(** ** The entries [processDetections] returns *)

Lemma matchDetection_results_tracked (now : Z) (st : Loop) (d : NewFace.t) :
  consistent (registry st) ->
  (forall e, In e (results st) -> result_tracked now st e) ->
  forall e, In e (results (matchDetection now st d)) ->
    result_tracked now (matchDetection now st d) e.
Proof.
  intros C Inv. pose proof (keys_unique C) as Hnd.
  unfold matchDetection.
  destruct (findBestMatch (registry st) d) as [m|] eqn:E; simpl;
    intros e Hin; apply in_app_or in Hin.
  - destruct (findBestMatch_some _ _ _ E) as [Hold _].
    destruct Hin as [Hin|[<-|[]]].
    + destruct (Inv e Hin) as [t [Ht [Hmask [Hseen Hwhy]]]].
      destruct (String.eqb_spec (Tagged.faceId e) (m_faceId m)) as [Eid|Eid].
      * exists (refresh now (m_trackedFace m) d). simpl.
        split; [rewrite Eid; apply JsMap_get_In, JsMap_get_set_same|].
        rewrite Eid in Ht.
        apply (JsMap_In_get _ _ _ Hnd) in Ht, Hold.
        assert (t = m_trackedFace m) by congruence. subst t.
        split; [exact Hmask|]. split; reflexivity.
      * exists t. simpl. split.
        { apply JsMap_get_In. rewrite JsMap_get_set_other by exact Eid.
          now apply JsMap_In_get. }
        split; [exact Hmask|]. split; [exact Hseen|exact Hwhy].
    + exists (refresh now (m_trackedFace m) d). simpl.
      split; [apply JsMap_get_In, JsMap_get_set_same|].
      split; [reflexivity|]. split; reflexivity.
  - pose proof (ids_below_fresh _ (keys_issued C)) as Hfresh.
    destruct Hin as [Hin|[<-|[]]].
    + destruct (Inv e Hin) as [t [Ht [Hmask [Hseen Hwhy]]]].
      exists t. simpl. split.
      { rewrite JsMap_set_fresh by exact Hfresh. apply in_or_app. now left. }
      split; [exact Hmask|]. split; [exact Hseen|exact Hwhy].
    + eexists. simpl.
      split; [apply JsMap_get_In, JsMap_get_set_same|].
      split; [reflexivity|]. split; reflexivity.
Qed.

Lemma matchLoop_results_tracked (now : Z) (ds : list NewFace.t) (st : Loop) :
  consistent (registry st) ->
  (forall e, In e (results st) -> result_tracked now st e) ->
  forall e, In e (results (fold_left (matchDetection now) ds st)) ->
    result_tracked now (fold_left (matchDetection now) ds st) e.
Proof.
  revert st. induction ds as [|d ds IH]; intros st C Inv; simpl; [exact Inv|].
  apply IH; [now apply matchDetection_consistent|].
  now apply matchDetection_results_tracked.
Qed.

(** The clean-up keeps a matched face as it is, unless it is stale. *)
Lemma sweep_keeps_matched (r : FaceRegistry) (matched : list string) (now : Z)
  (id : string) (t : TrackedFace.t) :
  NoDup (JsMap.keys (trackedFaces r)) ->
  In (id, t) (trackedFaces r) ->
  Set_has matched id = true ->
  (now - TrackedFace.lastSeen t <= maxFaceAge r)%Z ->
  In (id, t) (trackedFaces (sweep r matched now)).
Proof.
  intros Hnd Hin Hm Hage. rewrite sweep_tracked by exact Hnd.
  apply filter_In. split.
  - unfold aged. rewrite map_map. apply in_map_iff. exists (id, t).
    split; [|exact Hin]. simpl. now rewrite Hm.
  - simpl. apply negb_true_iff.
    destruct (Set_has (facesToRemove r matched now) id) eqn:E; [|reflexivity].
    apply Set_has_In in E. apply facesToRemove_inv in E.
    destruct E as [t0 [Hin0 Hwhy]].
    assert (t0 = t).
    { apply (JsMap_In_get _ _ _ Hnd) in Hin0, Hin. congruence. }
    subst t0. destruct Hwhy as [[Hun _]|Hlt]; [congruence|lia].
Qed.

Lemma trackDetections_results_masks (now : Z) (r : FaceRegistry) (n : nat)
  (ds : list NewFace.t) (e : Tagged.t) :
  consistent r -> In e (snd (trackDetections now r n ds)) ->
  1 <= Tagged.maskNumber e <= maxFaces r.
Proof.
  intros C. unfold trackDetections.
  destruct (n =? 0)%nat; cbn [snd]; [contradiction|]. intros Hin.
  pose proof (matchLoop_consistent now ds (mkLoop r [] []) C) as C'.
  destruct (matchLoop_settings now ds (mkLoop r [] [])) as [Hmax _].
  simpl in Hmax. rewrite <- Hmax.
  destruct (matchLoop_results_tracked now ds (mkLoop r [] []) C
              (fun e (H : In e []) => match H with end) e Hin)
    as [t [Ht [<- _]]].
  apply (masks_in_range C'). unfold usedMasks, JsMap.values.
  rewrite map_map. apply in_map_iff. now exists (Tagged.faceId e, t).
Qed.



(** ** The mask images *)

Lemma maskSrc_range (faceData : SmoothData.t) :
  1 <= SmoothData.maskNumber faceData <= 5 ->
  In (maskSrc faceData)
    ["/mask/mask1.png"; "/mask/mask2.png"; "/mask/mask3.png";
     "/mask/mask4.png"; "/mask/mask5.png"]%string.
Proof.
  unfold maskSrc.
  destruct (SmoothData.maskNumber faceData) as [|[|[|[|[|[|n]]]]]];
    intros H; try lia; vm_compute; auto 10.
Qed.

(** ** The detection loop of the component *)

Section DetectionLoop.
Variable Math_atan2 : float -> float -> float.

(** A frame with detections: the registry processes them and the smoothed
    faces are those of the entries it returns. *)
Lemma detectFaces_faces (now : Z) (g : Geometry) (l : list Landmarks)
  (s : AppState) :
  l <> [] ->
  exists r' res,
    processDetections Math_atan2 now (faceRegistry s) l = Normal (r', res)
    /\ faceRegistry (detectFaces Math_atan2 now g (Some l) s) = r'
    /\ prevFaceData (detectFaces Math_atan2 now g (Some l) s)
       = fst (smoothFaces (prevFaceData s) g res)
    /\ app_smoothFaces (detectFaces Math_atan2 now g (Some l) s)
       = List.map (smooth (prevFaceData s) g) res.
Proof.
  intros Hne.
  destruct (applySmoothInterpolation_returns Math_atan2 now g
              (faceRegistry s) (prevFaceData s) l) as [r' [res [Hp Ha]]].
  exists r', res. split; [exact Hp|].
  unfold detectFaces. cbn [faceRegistry prevFaceData].
  destruct l as [|a l]; [contradiction|].
  change (0 <? List.length (a :: l))%nat with true. cbv iota.
  rewrite Ha. repeat split.
Qed.

(** A frame in which the detector finds nothing does not reach the
    registry. *)
Lemma detectFaces_nothing (now : Z) (g : Geometry)
  (results_faceLandmarks : option (list Landmarks)) (s : AppState) :
  results_faceLandmarks = None \/ results_faceLandmarks = Some [] ->
  detectFaces Math_atan2 now g results_faceLandmarks s
  = mkApp (faceRegistry s) (prevFaceData s) [] [] (currentScreen s)
      (countdown s) (capturedImage s) (capturedVideoOnly s)
      (capturedMaskData s) (firebaseUrl s).
Proof. intros [->| ->]; reflexivity. Qed.

Lemma detectionLoop_nothing (empties : list LoopFrame) (s : AppState) :
  Forall (fun frame => snd frame = None \/ snd frame = Some []) empties ->
  faceRegistry (detectionLoop Math_atan2 empties s) = faceRegistry s
  /\ prevFaceData (detectionLoop Math_atan2 empties s) = prevFaceData s.
Proof.
  unfold detectionLoop. intros Hall. revert s.
  induction Hall as [|[[now g] res] rest Hres _ IH]; intros s;
    [split; reflexivity|].
  cbn [fold_left]. simpl in Hres.
  rewrite (detectFaces_nothing now g res s Hres).
  destruct (IH (mkApp (faceRegistry s) (prevFaceData s) [] []
                  (currentScreen s) (countdown s) (capturedImage s)
                  (capturedVideoOnly s) (capturedMaskData s)
                  (firebaseUrl s))) as [H1 H2].
  split; [exact H1|exact H2].
Qed.

(** Frames in which the detector finds no face never call
    [processDetections]: the branch of the registry that clears the map on
    an empty list is not reached from the loop.  Over any number of such
    frames the tracked faces stay as they are, with their counters of
    missed frames, and so does the cache of poses; only the list of
    smoothed faces is emptied. *)
Theorem empty_frames_keep_tracks (empties : list LoopFrame) (s : AppState) :
  Forall (fun frame => snd frame = None \/ snd frame = Some []) empties ->
  let s' := detectionLoop Math_atan2 empties s in
  faceRegistry s' = faceRegistry s
  /\ prevFaceData s' = prevFaceData s
  /\ (empties <> [] -> app_smoothFaces s' = [] /\ faces s' = [])
  /\ currentScreen s' = currentScreen s
  /\ countdown s' = countdown s
  /\ capturedImage s' = capturedImage s.
Proof.
  cbv zeta. unfold detectionLoop. intros Hall. revert s.
  induction Hall as [|[[now g] res] rest Hres _ IH]; intros s.
  - simpl. split; [reflexivity|]. split; [reflexivity|].
    split; [intros Hne; now elim Hne|]. repeat split.
  - cbn [fold_left]. simpl in Hres.
    rewrite (detectFaces_nothing now g res s Hres).
    destruct (IH (mkApp (faceRegistry s) (prevFaceData s) [] []
                    (currentScreen s) (countdown s) (capturedImage s)
                    (capturedVideoOnly s) (capturedMaskData s)
                    (firebaseUrl s)))
      as [H1 [H2 [H3 [H4 [H5 H6]]]]].
    split; [exact H1|]. split; [exact H2|]. split.
    + intros _. destruct rest as [|frame rest].
      * split; reflexivity.
      * apply H3. discriminate.
    + split; [exact H4|]. split; [exact H5|exact H6].
Qed.

(** The extraction of a single detection that has a centre. *)
Lemma newDetections_single (face : Landmarks) (c : Point) :
  calculateFaceCenter face = Normal (Some c) ->
  exists size rotation,
    newDetections Math_atan2 [face]
    = Normal [NewFace.mk face c size rotation 0].
Proof.
  intros Hc. destruct (calculateFaceSize_returns face) as [size Hs].
  destruct (calculateHeadRotation_returns Math_atan2 face) as [rot Hr].
  exists size, rot. unfold newDetections. simpl.
  rewrite Hc, Hs, Hr. reflexivity.
Qed.


(** One detection that matches a tracked face. *)
Lemma trackDetections_single_match (now : Z) (r : FaceRegistry) (n : nat)
  (d : NewFace.t) (m : Match) :
  consistent r -> n <> 0 -> (0 <= maxFaceAge r)%Z ->
  findBestMatch r d = Some m ->
  snd (trackDetections now r n [d])
  = [tag d (m_faceId m) (TrackedFace.maskNumber (m_trackedFace m))]
  /\ JsMap.get (trackedFaces (fst (trackDetections now r n [d])))
       (m_faceId m)
     = Some (refresh now (m_trackedFace m) d).
Proof.
  intros C Hn Hage Hm.
  pose proof (matchDetection_consistent now (mkLoop r [] []) d C) as C'.
  unfold trackDetections. destruct (Nat.eqb_spec n 0); [contradiction|].
  cbn [fst snd fold_left]. revert C'. unfold matchDetection.
  cbn [registry results matchedFaceIds]. rewrite Hm.
  cbn [registry results matchedFaceIds app]. intros C'.
  split; [reflexivity|].
  apply JsMap_In_get; [apply (keys_unique (sweep_consistent _ _ _ C'))|].
  apply sweep_keeps_matched.
  - apply (keys_unique C').
  - apply JsMap_get_In. simpl. apply JsMap_get_set_same.
  - rewrite Set_has_add, String.eqb_refl. apply orb_true_r.
  - simpl. lia.
Qed.


End DetectionLoop.

Lemma empty_frames_keep_tracks_witness :
  let s' :=
    detectionLoop atan2_level
      [(66%Z, sameSize, None); (99%Z, sameSize, Some [])] boothAfterSteady in
  faceRegistry s' = afterSteady /\ prevFaceData s' = [cachedA].
Proof.
  cbv zeta.
  destruct (empty_frames_keep_tracks atan2_level
              [(66%Z, sameSize, None); (99%Z, sameSize, Some [])]
              boothAfterSteady) as [H1 [H2 _]].
  - apply Forall_cons; [left; reflexivity|].
    apply Forall_cons; [right; reflexivity|apply Forall_nil].
  - split; [exact H1|exact H2].
Defined.


Lemma afterSteady_consistent : consistent afterSteady.
Proof.
  destruct (session_consistent atan2_level steadySession) as [r [Hs [C _]]].
  assert (E : session atan2_level constructor steadySession
              = Normal afterSteady) by (vm_compute; reflexivity).
  rewrite E in Hs. injection Hs as <-. exact C.
Qed.


(** ** The order of the returned entries *)

Section ResultOrder.
Variable Math_atan2 : float -> float -> float.

(** What holds of the detections built from the faces [faces], numbered
    from [start]. *)
Lemma extracted_from (faces : list Landmarks) (start : nat) :
  exists es,
    mapM (extract Math_atan2)
      (combine (seq start (List.length faces)) faces) = Normal es
    /\ List.map NewFace.originalIndex (flat_map centered es)
       = filter (fun i => hasCentre (nth (i - start) faces None))
           (seq start (List.length faces))
    /\ forall d, In d (flat_map centered es) ->
         start <= NewFace.originalIndex d
         /\ nth_error faces (NewFace.originalIndex d - start)
            = Some (NewFace.landmarks d)
         /\ calculateFaceCenter (NewFace.landmarks d)
            = Normal (Some (NewFace.center d))
         /\ calculateFaceSize (NewFace.landmarks d)
            = Normal (NewFace.size d)
         /\ calculateHeadRotation Math_atan2 (NewFace.landmarks d)
            = Normal (NewFace.rotation d).
Proof.
  revert start. induction faces as [|f rest IH]; intros start.
  - exists []. split; [reflexivity|]. split; [reflexivity|]. intros d [].
  - destruct (IH (S start)) as [es [Hes [Hidx Hall]]].
    destruct (calculateFaceCenter_returns f) as [c Hc].
    destruct (calculateFaceSize_returns f) as [sz Hs].
    destruct (calculateHeadRotation_returns Math_atan2 f) as [rot Hr].
    exists (mkExtracted f c sz rot start :: es).
    assert (Hrest :
      filter (fun i => hasCentre (nth (i - start) (f :: rest) None))
        (seq (S start) (List.length rest))
      = filter (fun i => hasCentre (nth (i - S start) rest None))
          (seq (S start) (List.length rest))).
    { apply filter_ext_in. intros i Hi. apply in_seq in Hi.
      replace (i - start) with (S (i - S start)) by lia. reflexivity. }
    split; [|split].
    + cbn [List.length seq combine mapM]. unfold extract at 1.
      rewrite Hc, Hs, Hr. cbn [bind]. rewrite Hes. reflexivity.
    + cbn [flat_map List.length seq filter]. rewrite Hrest, Nat.sub_diag.
      cbn [nth]. unfold hasCentre at 1. rewrite Hc.
      rewrite map_app, Hidx.
      destruct c as [p|]; reflexivity.
    + cbn [flat_map]. intros d Hin. apply in_app_or in Hin.
      destruct Hin as [Hin|Hin].
      * unfold centered in Hin. cbn [e_center] in Hin.
        destruct c as [p|]; [|contradiction].
        destruct Hin as [<-|[]]. simpl. rewrite Nat.sub_diag.
        repeat split; trivial.
      * destruct (Hall d Hin) as [Hle [Hnth Hrest']].
        split; [lia|]. split; [|exact Hrest'].
        replace (NewFace.originalIndex d - start)
          with (S (NewFace.originalIndex d - S start)) by lia.
        exact Hnth.
Qed.

Lemma detectionOf_tag (d : NewFace.t) (faceId : string) (maskNumber : nat) :
  detectionOf (tag d faceId maskNumber) = d.
Proof. destruct d; reflexivity. Qed.

Lemma matchLoop_detections (now : Z) (ds : list NewFace.t) (st : Loop) :
  List.map detectionOf (results (fold_left (matchDetection now) ds st))
  = List.map detectionOf (results st) ++ ds.
Proof.
  revert st. induction ds as [|d ds IH]; intros st; simpl;
    [now rewrite app_nil_r|].
  rewrite IH. unfold matchDetection.
  destruct (findBestMatch (registry st) d); simpl;
    rewrite map_app; simpl; rewrite detectionOf_tag, <- app_assoc;
    reflexivity.
Qed.

(** The list [processDetections] returns for a frame that is not empty
    follows the input: one entry for each detection that has a centre, in
    the order of the input, with [originalIndex] the position of the
    detection in the input, its landmarks unchanged, and the centre, size
    and rotation the three extractors compute from them. *)
Theorem results_follow_input (now : Z) (r : FaceRegistry)
  (currentFaces : list Landmarks) :
  currentFaces <> [] ->
  exists r' res,
    processDetections Math_atan2 now r currentFaces = Normal (r', res)
    /\ List.map Tagged.originalIndex res
       = filter (fun i => hasCentre (nth i currentFaces None))
           (seq 0 (List.length currentFaces))
    /\ forall entry, In entry res ->
         nth_error currentFaces (Tagged.originalIndex entry)
         = Some (Tagged.landmarks entry)
         /\ calculateFaceCenter (Tagged.landmarks entry)
            = Normal (Some (Tagged.center entry))
         /\ calculateFaceSize (Tagged.landmarks entry)
            = Normal (Tagged.size entry)
         /\ calculateHeadRotation Math_atan2 (Tagged.landmarks entry)
            = Normal (Tagged.rotation entry).
Proof.
  intros Hne. destruct (extracted_from currentFaces 0) as [es [Hes [Hidx Hall]]].
  unfold processDetections, newDetections. rewrite Hes. cbn [bind].
  unfold trackDetections.
  destruct (Nat.eqb_spec (List.length currentFaces) 0) as [E|_];
    [destruct currentFaces; [contradiction|discriminate]|].
  do 2 eexists. split; [reflexivity|].
  pose proof (matchLoop_detections now (flat_map centered es)
                (mkLoop r [] [])) as Hds.
  cbn [results List.map app] in Hds.
  set (res := results (fold_left (matchDetection now)
                         (flat_map centered es) (mkLoop r [] []))) in *.
  split.
  - replace (List.map Tagged.originalIndex res)
      with (List.map NewFace.originalIndex (List.map detectionOf res))
      by (rewrite map_map; reflexivity).
    rewrite Hds, Hidx. apply filter_ext. intros i.
    now rewrite Nat.sub_0_r.
  - intros entry Hin.
    assert (Hd : In (detectionOf entry) (flat_map centered es))
      by (rewrite <- Hds; now apply in_map).
    destruct (Hall _ Hd) as [_ [Hnth Hrest]].
    simpl in Hnth, Hrest. rewrite Nat.sub_0_r in Hnth. now split.
Qed.

End ResultOrder.

Lemma results_follow_input_witness :
  exists r' res,
    processDetections atan2_level 0 constructor [noFace; faceA; noFace; faceB]
    = Normal (r', res)
    /\ List.map Tagged.originalIndex res = [1; 3].
Proof.
  destruct (results_follow_input atan2_level 0 constructor
              [noFace; faceA; noFace; faceB])
    as [r' [res [Hp [Hidx _]]]]; [discriminate|].
  exists r', res. split; [exact Hp|]. rewrite Hidx.
  vm_compute. reflexivity.
Defined.

(** ** A face that stays *)

Lemma steady_settings (r r' : FaceRegistry) (t : TrackedFace.t)
  (frames : list (Z * NewFace.t)) :
  matchThreshold r' = matchThreshold r -> steady r t frames ->
  steady r' t frames.
Proof.
  intros Hth. revert t. induction frames as [|[now d] rest IH]; intros t;
    simpl; [trivial|].
  intros [Hs Hrest]. split; [|now apply IH].
  unfold calculateSimilarity in *. now rewrite Hth.
Qed.

(** One frame with one detection that is close to the only tracked
    face. *)
Lemma trackDetections_alone (now : Z) (r : FaceRegistry) (id : string)
  (t : TrackedFace.t) (d : NewFace.t) :
  trackedFaces r = [(id, t)] -> (0 <= maxFaceAge r)%Z ->
  (calculateSimilarity r d t >? 0.6)%float = true ->
  trackDetections now r 1 [d]
  = (set_trackedFaces r [(id, refresh now t d)],
     [tag d id (TrackedFace.maskNumber t)]).
Proof.
  intros Ht Hage Hs.
  assert (Hpos : (calculateSimilarity r d t >? 0)%float = true).
  { apply (gt_trans _ 0.6%float); [exact Hs|reflexivity]. }
  assert (Hm : findBestMatch r d
               = Some (mkMatch id t (calculateSimilarity r d t))).
  { unfold findBestMatch. rewrite Ht. simpl. now rewrite Hpos, Hs. }
  unfold trackDetections. cbn [fold_left Nat.eqb]. unfold matchDetection.
  cbn [registry results matchedFaceIds]. rewrite Hm.
  cbn [m_faceId m_trackedFace app]. rewrite Ht.
  unfold sweep. simpl. rewrite !String.eqb_refl. simpl.
  rewrite !String.eqb_refl. simpl. rewrite Z.sub_diag.
  destruct (Z.ltb_spec (maxFaceAge r) 0) as [Hlt|_]; [lia|].
  reflexivity.
Qed.

(** Stability: while the only tracked face is followed by detections that
    each score above 0.6 against the one before, every frame returns the
    same id and the same mask number, no new id is issued and no second
    face is tracked, for any number of frames and any clock readings. *)
Theorem steady_face_keeps_identity (r : FaceRegistry) (id : string)
  (t : TrackedFace.t) (frames : list (Z * NewFace.t)) :
  trackedFaces r = [(id, t)] -> (0 <= maxFaceAge r)%Z ->
  steady r t frames ->
  snd (follow r frames)
  = List.map (fun frame => [tag (snd frame) id (TrackedFace.maskNumber t)])
      frames
  /\ nextFaceId (fst (follow r frames)) = nextFaceId r
  /\ JsMap.keys (trackedFaces (fst (follow r frames))) = [id]
  /\ usedMasks (fst (follow r frames)) = [TrackedFace.maskNumber t]
  /\ List.length (snd (follow r frames)) = List.length frames
  /\ forall entries,
       In entries (snd (follow r frames)) ->
       exists entry,
         entries = [entry]
         /\ Tagged.faceId entry = id
         /\ Tagged.maskNumber entry = TrackedFace.maskNumber t.
Proof.
  assert (Hcore :
    snd (follow r frames)
    = List.map (fun frame => [tag (snd frame) id (TrackedFace.maskNumber t)])
        frames
    /\ nextFaceId (fst (follow r frames)) = nextFaceId r
    /\ JsMap.keys (trackedFaces (fst (follow r frames))) = [id]
    /\ usedMasks (fst (follow r frames)) = [TrackedFace.maskNumber t]
    -> snd (follow r frames)
       = List.map
           (fun frame => [tag (snd frame) id (TrackedFace.maskNumber t)])
           frames
       /\ nextFaceId (fst (follow r frames)) = nextFaceId r
       /\ JsMap.keys (trackedFaces (fst (follow r frames))) = [id]
       /\ usedMasks (fst (follow r frames)) = [TrackedFace.maskNumber t]
       /\ List.length (snd (follow r frames)) = List.length frames
       /\ forall entries,
            In entries (snd (follow r frames)) ->
            exists entry,
              entries = [entry]
              /\ Tagged.faceId entry = id
              /\ Tagged.maskNumber entry = TrackedFace.maskNumber t).
  { intros [H1 [H2 [H3 H4]]].
    split; [exact H1|]. split; [exact H2|]. split; [exact H3|].
    split; [exact H4|]. rewrite H1. split; [apply length_map|].
    intros entries Hin. apply in_map_iff in Hin.
    destruct Hin as [frame [<- _]]. eexists. repeat split. }
  intros Ht Hage Hst. apply Hcore. clear Hcore.
  revert r t Ht Hage Hst.
  induction frames as [|[now d] rest IH]; intros r t Ht Hage Hst.
  - simpl. unfold usedMasks. rewrite Ht. repeat split.
  - destruct Hst as [Hs Hrest]. cbn [follow].
    rewrite (trackDetections_alone now r id t d Ht Hage Hs). cbn [fst snd].
    destruct (IH (set_trackedFaces r [(id, refresh now t d)])
                (refresh now t d) eq_refl Hage
                (steady_settings r
                   (set_trackedFaces r [(id, refresh now t d)])
                   (refresh now t d) rest eq_refl Hrest))
      as [H1 [H2 [H3 H4]]].
    cbn [List.map snd]. rewrite H1. repeat split; assumption.
Qed.

Lemma steady_face_keeps_identity_witness :
  snd (follow afterSteady [(66%Z, detectionA); (5000%Z, detectionA)])
  = [[taggedA]; [taggedA]].
Proof.
  assert (Hage : (0 <= maxFaceAge afterSteady)%Z) by (simpl; lia).
  assert (Hst : steady afterSteady steadyA
                  [(66%Z, detectionA); (5000%Z, detectionA)])
    by (simpl; repeat split; vm_compute; reflexivity).
  exact (proj1 (steady_face_keeps_identity afterSteady "face_1" steadyA
                  [(66%Z, detectionA); (5000%Z, detectionA)]
                  eq_refl Hage Hst)).
Defined.

(** ** The photo flow *)

Lemma countdownInterval_spec (periods prev : nat) :
  countdownInterval periods prev
  = if (periods <? Nat.max prev 1)%nat then (prev - periods, 0) else (0, 1).
Proof.
  revert prev. induction periods as [|p IH]; intros prev.
  - destruct (Nat.ltb_spec 0 (Nat.max prev 1)); [|lia].
    now rewrite Nat.sub_0_r.
  - cbn [countdownInterval]. unfold countdownUpdater.
    destruct (Nat.leb_spec prev 1) as [Hle|Hgt].
    + destruct (Nat.ltb_spec (S p) (Nat.max prev 1)); [lia|reflexivity].
    + rewrite IH.
      destruct (Nat.ltb_spec p (Nat.max (prev - 1) 1)),
        (Nat.ltb_spec (S p) (Nat.max prev 1)); try lia;
        [f_equal; lia|reflexivity].
Qed.

(** The countdown: from the value [prev], the interval shows
    [prev - 1], [prev - 2], ... one per period, schedules the capture in
    period [max prev 1] and never again, and leaves the value at 0.  From
    the 5 that [startPhotoCapture] sets, the capture is scheduled in the
    fifth period. *)
Theorem countdown_fires_once (periods prev : nat) :
  countdown (startPhotoCapture initialApp) = 5
  /\ currentScreen (startPhotoCapture initialApp) = "countdown"%string
  /\ (periods < Nat.max prev 1 ->
      countdownInterval periods prev = (prev - periods, 0))
  /\ (Nat.max prev 1 <= periods -> countdownInterval periods prev = (0, 1))
  /\ snd (countdownInterval periods prev) <= 1
  /\ (snd (countdownInterval periods 5) = 1 <-> 5 <= periods).
Proof.
  rewrite !countdownInterval_spec.
  split; [reflexivity|]. split; [reflexivity|].
  destruct (Nat.ltb_spec periods (Nat.max prev 1)) as [H|H];
    (split; [intros; try reflexivity; lia|]);
    (split; [intros; try reflexivity; lia|]);
    (split; [simpl; lia|]);
    change (Nat.max 5 1) with 5;
    destruct (Nat.ltb_spec periods 5); simpl; split; intros; try lia;
    discriminate.
Qed.

Section PhotoFlow.
Variable Math_atan2 : float -> float -> float.
Variable uploadString : string -> option string -> Settled unit.
Variable getDownloadURL : string -> Settled string.

Lemma step_flow_invariant (s : AppState) (event : Event) :
  flow_invariant getDownloadURL s ->
  flow_invariant getDownloadURL
    (step Math_atan2 uploadString getDownloadURL s event).
Proof.
  intros [Hscreen [Hcount [Hsame [Hdata Hurl]]]].
  destruct event; cbn [step].
  - unfold detectFaces.
    destruct (0 <? List.length _)%nat;
      [destruct (applySmoothInterpolation _ _ _ _ _) as [[[r' p'] out]|e]|];
      repeat split; assumption.
  - repeat split; try assumption; simpl; auto.
  - unfold countdownUpdater.
    destruct (Nat.leb_spec (countdown s) 1); repeat split; try assumption;
      simpl; lia.
  - repeat split; try assumption; simpl; auto.
  - repeat split; try assumption; simpl; auto.
  - repeat split; try assumption; simpl; auto.
  - repeat split; try assumption; simpl; auto 6.
  - unfold uploadToFirebase.
    destruct (uploadString _ _) as [u|];
      [destruct (getDownloadURL (storagePath timestamp)) as [url|] eqn:E|];
      repeat split; try assumption; simpl; auto.
    right. right. now exists timestamp.
  - repeat split; try assumption; simpl; auto.
  - repeat split; assumption.
Qed.

(** Whatever happens and in whatever order, [renderScreen] never reaches
    the [default] of its [switch]: the screen is always one of the four it
    names.  The countdown shown is at most 5; [capturedVideoOnly] always
    holds what [capturedImage] holds and [capturedMaskData] stays empty;
    the link behind the QR code is empty, the placeholder, or an answer of
    [getDownloadURL] for a path [photos/photo-<timestamp>.png]. *)
Theorem flow_stays_on_known_screens (events : list Event) :
  let s := run Math_atan2 uploadString getDownloadURL events in
  flow_invariant getDownloadURL s
  /\ (renderScreen s = CameraScreen <-> currentScreen s = "camera"%string)
  /\ (renderScreen s = CountdownScreen
      <-> currentScreen s = "countdown"%string)
  /\ (renderScreen s = LoadingScreen <-> currentScreen s = "loading"%string)
  /\ (renderScreen s = ResultScreen <-> currentScreen s = "result"%string).
Proof.
  cbv zeta.
  assert (Inv : flow_invariant getDownloadURL
                  (run Math_atan2 uploadString getDownloadURL events)).
  { unfold run.
    assert (H0 : flow_invariant getDownloadURL initialApp)
      by (repeat split; simpl; auto).
    revert H0. generalize initialApp.
    induction events as [|event rest IH]; intros s Hs; [exact Hs|].
    apply IH. now apply step_flow_invariant. }
  split; [exact Inv|]. destruct Inv as [Hscreen _]. unfold renderScreen.
  destruct Hscreen as [<-|[<-|[<-|[<-|[]]]]]; simpl;
    repeat split; intros; try reflexivity; discriminate.
Qed.

Lemma reset_consistent (r : FaceRegistry) :
  consistent r -> consistent (reset r).
Proof.
  intros C. apply mkConsistent; simpl.
  - constructor.
  - intros k [].
  - apply (some_mask C).
  - intros m [].
  - constructor.
Qed.

Lemma step_overlay_invariant (s : AppState) (event : Event) :
  overlay_invariant s ->
  overlay_invariant (step Math_atan2 uploadString getDownloadURL s event).
Proof.
  intros [C [Hmax Hmasks]].
  destruct event; cbn [step];
    try (split; [exact C|]; split; [exact Hmax|exact Hmasks]).
  - destruct results_faceLandmarks as [[|a l]|];
      try (split; [exact C|]; split; [exact Hmax|]; intros f []).
    destruct (detectFaces_faces Math_atan2 now g (a :: l) s)
      as [r' [res [Hp [Hr' [_ Hout]]]]]; [discriminate|].
    destruct (processDetections_returns Math_atan2 now (faceRegistry s)
                (a :: l)) as [ds [_ [_ Hp']]].
    assert (Hout' : trackDetections now (faceRegistry s)
                      (List.length (a :: l)) ds = (r', res)) by congruence.
    assert (Hr : r' = fst (trackDetections now (faceRegistry s)
                             (List.length (a :: l)) ds))
      by (now rewrite Hout').
    assert (Hres : res = snd (trackDetections now (faceRegistry s)
                                (List.length (a :: l)) ds))
      by (now rewrite Hout').
    clear Hout' Hp Hp'.
    unfold overlay_invariant. rewrite Hr', Hout. split; [|split].
    + rewrite Hr. now apply trackDetections_consistent.
    + rewrite Hr.
      destruct (trackDetections_settings now (faceRegistry s)
                  (List.length (a :: l)) ds) as [-> _].
      exact Hmax.
    + intros f Hin. apply in_map_iff in Hin. destruct Hin as [e [<- Hin]].
      destruct (smooth_tags (prevFaceData s) g e) as [_ ->].
      rewrite <- Hmax. rewrite Hres in Hin.
      exact (trackDetections_results_masks now (faceRegistry s)
               (List.length (a :: l)) ds e C Hin).
  - unfold uploadToFirebase.
    destruct (uploadString _ _); [destruct (getDownloadURL _)|];
      (split; [exact C|]; split; [exact Hmax|exact Hmasks]).
  - split; [now apply reset_consistent|]. split; [exact Hmax|].
    intros f [].
  - split; [now apply reset_consistent|]. split; [exact Hmax|exact Hmasks].
Qed.

(** Whatever happens and in whatever order (frames with or without faces,
    captures, new photos, clean-ups), every mask the overlay draws is one
    of the five images [/mask/mask1.png] .. [/mask/mask5.png], and the
    registry behind it keeps its invariants. *)
Theorem overlay_images_exist (events : list Event) :
  let s := run Math_atan2 uploadString getDownloadURL events in
  consistent (faceRegistry s)
  /\ maxFaces (faceRegistry s) = 5
  /\ forall faceData, In faceData (app_smoothFaces s) ->
       In (maskSrc faceData)
         ["/mask/mask1.png"; "/mask/mask2.png"; "/mask/mask3.png";
          "/mask/mask4.png"; "/mask/mask5.png"]%string.
Proof.
  cbv zeta.
  assert (Inv : overlay_invariant
                  (run Math_atan2 uploadString getDownloadURL events)).
  { unfold run.
    assert (H0 : overlay_invariant initialApp).
    { split; [apply constructor_consistent|]. split; [reflexivity|].
      intros f []. }
    revert H0. generalize initialApp.
    induction events as [|event rest IH]; intros s Hs; [exact Hs|].
    apply IH. now apply step_overlay_invariant. }
  destruct Inv as [C [Hmax Hmasks]].
  split; [exact C|]. split; [exact Hmax|].
  intros f Hin. apply maskSrc_range. now apply Hmasks.
Qed.

End PhotoFlow.

(** ** The uploaded file *)

Lemma append_length (s t : string) :
  String.length (s ++ t) = String.length s + String.length t.
Proof. induction s as [|c s IH]; simpl; [reflexivity|now rewrite IH]. Qed.

Lemma append_cancel_r (s1 s2 t : string) :
  (s1 ++ t = s2 ++ t)%string -> s1 = s2.
Proof.
  revert s2. induction s1 as [|c s1 IH]; intros [|c2 s2] H; simpl in H.
  - reflexivity.
  - apply (f_equal String.length) in H. simpl in H.
    rewrite append_length in H. lia.
  - apply (f_equal String.length) in H. simpl in H.
    rewrite append_length in H. lia.
  - injection H as -> H. f_equal. now apply IH.
Qed.

Lemma to_int_printable (z : Z) :
  Z.to_int z <> Decimal.Pos Decimal.Nil
  /\ Z.to_int z <> Decimal.Neg Decimal.Nil.
Proof.
  destruct z as [|p|p]; simpl; split; try discriminate;
    intros [= H]; now apply DecimalPos.Unsigned.to_uint_nonnil in H.
Qed.

(** Two uploads write to the same file exactly when [Date.now()] gave
    them the same reading: the path is [photos/photo-<timestamp>.png]
    with the reading in decimal. *)
Theorem upload_path_by_timestamp (t1 t2 : Z) :
  (storagePath t1 = storagePath t2 <-> t1 = t2)
  /\ storagePath 1700000000123 = "photos/photo-1700000000123.png"%string.
Proof.
  split; [|reflexivity]. split; [|now intros ->].
  unfold storagePath, fileName. intros H. simpl in H.
  repeat match type of H with
         | String _ _ = String _ _ => injection H as H
         end.
  apply append_cancel_r in H.
  destruct (to_int_printable t1) as [H1 H1'].
  destruct (to_int_printable t2) as [H2 H2'].
  apply DecimalZ.to_int_inj.
  assert (E : Some (Z.to_int t1) = Some (Z.to_int t2)).
  { rewrite <- (NilZero.isi _ H1 H1'), <- (NilZero.isi _ H2 H2').
    now rewrite H. }
  now injection E.
Qed.

Lemma split_no_separator (separator : ascii) (s : string) :
  (forall c, In c (list_ascii_of_string s) -> c <> separator) ->
  split separator s = [s].
Proof.
  induction s as [|c s IH]; intros H; simpl; [reflexivity|].
  destruct (Ascii.eqb_spec c separator) as [E|_].
  - exfalso. apply (H c); [now left|exact E].
  - rewrite IH; [reflexivity|]. intros c' Hin. apply H. now right.
Qed.

Lemma split_nonempty (separator : ascii) (s : string) :
  split separator s <> [].
Proof.
  destruct s as [|c s]; simpl; [discriminate|].
  destruct (Ascii.eqb c separator); [discriminate|].
  destruct (split separator s); discriminate.
Qed.

Lemma split_prefix (separator : ascii) (prefix rest : string) :
  (forall c, In c (list_ascii_of_string prefix) -> c <> separator) ->
  split separator (prefix ++ String separator rest)
  = prefix :: split separator rest.
Proof.
  induction prefix as [|c p IH]; intros H; simpl.
  - now rewrite Ascii.eqb_refl.
  - destruct (Ascii.eqb_spec c separator) as [E|_].
    + exfalso. apply (H c); [now left|exact E].
    + rewrite IH; [reflexivity|]. intros c' Hin. apply H. now right.
Qed.

(** What is uploaded: for a data URL, a prefix without a comma, a comma
    and a payload without a comma (Base64 has none), the payload whole;
    for a string without a comma, [undefined]. *)
Theorem base64_of_data_url (prefix payload : string) :
  (forall c, In c (list_ascii_of_string prefix) -> c <> ","%char) ->
  (forall c, In c (list_ascii_of_string payload) -> c <> ","%char) ->
  base64Data (prefix ++ String "," payload) = Some payload
  /\ base64Data prefix = None.
Proof.
  intros Hprefix Hpayload. unfold base64Data. split.
  - rewrite split_prefix by exact Hprefix.
    now rewrite split_no_separator by exact Hpayload.
  - now rewrite split_no_separator by exact Hprefix.
Qed.

Lemma base64_of_data_url_witness :
  base64Data "data:image/png;base64,iVBORw0KGgo=" = Some "iVBORw0KGgo="%string
  /\ base64Data "data:image/png;base64" = None.
Proof.
  apply (base64_of_data_url "data:image/png;base64" "iVBORw0KGgo=");
    intros c Hin; simpl in Hin;
    repeat (destruct Hin as [<-|Hin]; [discriminate|]); contradiction.
Defined.

(** ** The life of a tracked face *)

(** One detection leaves the mask number and [firstSeen] of every tracked
    face as they are. *)
Lemma matchDetection_life (now : Z) (st : Loop) (d : NewFace.t) (k : string)
  (t : TrackedFace.t) :
  consistent (registry st) ->
  JsMap.get (trackedFaces (registry st)) k = Some t ->
  exists t',
    JsMap.get (trackedFaces (registry (matchDetection now st d))) k = Some t'
    /\ TrackedFace.maskNumber t' = TrackedFace.maskNumber t
    /\ TrackedFace.firstSeen t' = TrackedFace.firstSeen t.
Proof.
  intros C Hget. unfold matchDetection.
  destruct (findBestMatch (registry st) d) as [m|] eqn:E; simpl.
  - destruct (findBestMatch_some _ _ _ E) as [Hold _].
    destruct (String.eqb_spec k (m_faceId m)) as [->|Hne].
    + apply (JsMap_In_get _ _ _ (keys_unique C)) in Hold.
      assert (m_trackedFace m = t) by congruence. subst t.
      rewrite JsMap_get_set_same. eexists. repeat split.
    + rewrite JsMap_get_set_other by exact Hne. now exists t.
  - assert (Hne : k <> face_ (nextFaceId (registry st))).
    { intros ->. apply get_is_key, JsMap_has_keys in Hget.
      rewrite (ids_below_fresh _ (keys_issued C)) in Hget. discriminate. }
    rewrite JsMap_get_set_other by exact Hne. now exists t.
Qed.

Lemma matchLoop_life (now : Z) (ds : list NewFace.t) (st : Loop) (k : string)
  (t : TrackedFace.t) :
  consistent (registry st) ->
  JsMap.get (trackedFaces (registry st)) k = Some t ->
  exists t',
    JsMap.get
      (trackedFaces (registry (fold_left (matchDetection now) ds st))) k
    = Some t'
    /\ TrackedFace.maskNumber t' = TrackedFace.maskNumber t
    /\ TrackedFace.firstSeen t' = TrackedFace.firstSeen t.
Proof.
  revert st t. induction ds as [|d ds IH]; intros st t C Hget; simpl;
    [now exists t|].
  destruct (matchDetection_life now st d k t C Hget) as [t1 [H1 [Hm Hf]]].
  destruct (IH _ t1 (matchDetection_consistent now st d C) H1)
    as [t' [H' [Hm' Hf']]].
  exists t'. split; [exact H'|]. split; congruence.
Qed.

Lemma trackDetections_life (now : Z) (r : FaceRegistry) (n : nat)
  (ds : list NewFace.t) (k : string) (t t' : TrackedFace.t) :
  consistent r ->
  JsMap.get (trackedFaces r) k = Some t ->
  JsMap.get (trackedFaces (fst (trackDetections now r n ds))) k = Some t' ->
  TrackedFace.maskNumber t' = TrackedFace.maskNumber t
  /\ TrackedFace.firstSeen t' = TrackedFace.firstSeen t.
Proof.
  intros C Hget. unfold trackDetections.
  destruct (n =? 0)%nat; cbn [fst].
  - rewrite clear_tracked. discriminate.
  - intros Hget'.
    pose proof (matchLoop_consistent now ds (mkLoop r [] []) C) as C'.
    destruct (matchLoop_life now ds (mkLoop r [] []) k t C Hget)
      as [t1 [H1 [Hm Hf]]].
    apply JsMap_get_In in Hget'.
    destruct (sweep_survivor _ _ _ _ _ (keys_unique C') Hget')
      as [t2 [Hin [-> _]]].
    apply (JsMap_In_get _ _ _ (keys_unique C')) in Hin.
    assert (t2 = t1) by congruence. subst t2.
    destruct (Set_has _ k); simpl; split; assumption.
Qed.

Section Life.
Variable Math_atan2 : float -> float -> float.

(** From the registry before a session to the registry after it. *)
Lemma session_life (frames : list Frame) (r r' : FaceRegistry) :
  consistent r -> session Math_atan2 r frames = Normal r' ->
  consistent r'
  /\ nextFaceId r <= nextFaceId r'
  /\ (forall k, In k (JsMap.keys (trackedFaces r')) ->
        In k (JsMap.keys (trackedFaces r))
        \/ exists i, nextFaceId r <= i /\ k = face_ i)
  /\ (forall k t t',
        JsMap.get (trackedFaces r) k = Some t ->
        JsMap.get (trackedFaces r') k = Some t' ->
        TrackedFace.maskNumber t' = TrackedFace.maskNumber t
        /\ TrackedFace.firstSeen t' = TrackedFace.firstSeen t).
Proof.
  revert r. induction frames as [|[now faces] rest IH]; intros r C Hs.
  - simpl in Hs. injection Hs as <-. split; [exact C|]. split; [lia|].
    split; [now left|]. intros k t t' H1 H2.
    assert (t' = t) by congruence. subst. now split.
  - cbn [session] in Hs.
    destruct (processDetections_returns Math_atan2 now r faces)
      as [ds [_ [_ Hp]]].
    rewrite Hp in Hs. cbn [bind] in Hs.
    set (r1 := fst (trackDetections now r (List.length faces) ds)) in *.
    pose proof (trackDetections_consistent now r (List.length faces) ds C)
      as C1. fold r1 in C1.
    pose proof (trackDetections_nextFaceId now r (List.length faces) ds)
      as Hn1. fold r1 in Hn1.
    destruct (IH r1 C1 Hs) as [C' [Hn [Hkeys Hlife]]].
    assert (Hkeys' : forall k, In k (JsMap.keys (trackedFaces r')) ->
              In k (JsMap.keys (trackedFaces r))
              \/ exists i, nextFaceId r <= i /\ k = face_ i).
    { intros k Hk. destruct (Hkeys k Hk) as [Hk1|[i [Hi ->]]].
      - exact (trackDetections_keys now r (List.length faces) ds k C Hk1).
      - right. exists i. split; [lia|reflexivity]. }
    split; [exact C'|]. split; [lia|]. split; [exact Hkeys'|].
    intros k t t' Hget Hget'.
    destruct (Hkeys k (get_is_key _ _ _ Hget')) as [Hk1|[i [Hi Hki]]].
    + destruct (JsMap_key_get _ _ Hk1) as [t1 Hget1].
      destruct (trackDetections_life now r (List.length faces) ds k t t1
                  C Hget Hget1) as [Hm1 Hf1].
      destruct (Hlife k t1 t' Hget1 Hget') as [Hm Hf].
      split; congruence.
    + exfalso.
      destruct (keys_issued C k (get_is_key _ _ _ Hget)) as [n [Hlt Hkn]].
      rewrite Hkn in Hki. apply face_inj in Hki. lia.
Qed.

Lemma session_returns (frames : list Frame) (r : FaceRegistry) :
  consistent r ->
  exists r', session Math_atan2 r frames = Normal r' /\ consistent r'.
Proof.
  intros C.
  apply (session_invariant Math_atan2 consistent); [|exact C].
  intros now r0 n ds. apply trackDetections_consistent.
Qed.

(** An id is never issued twice: through any session that starts from a
    new registry, a tracked face that has been removed does not come back,
    and no later face gets its id.  The counter never goes down. *)
Theorem ids_never_reused (before between after : list Frame) :
  exists r1 r2 r3,
    session Math_atan2 constructor before = Normal r1
    /\ session Math_atan2 r1 between = Normal r2
    /\ session Math_atan2 r2 after = Normal r3
    /\ nextFaceId r1 <= nextFaceId r2 <= nextFaceId r3
    /\ forall k,
         In k (JsMap.keys (trackedFaces r1)) ->
         ~ In k (JsMap.keys (trackedFaces r2)) ->
         ~ In k (JsMap.keys (trackedFaces r3)).
Proof.
  destruct (session_returns before constructor constructor_consistent)
    as [r1 [H1 C1]].
  destruct (session_returns between r1 C1) as [r2 [H2 C2]].
  destruct (session_returns after r2 C2) as [r3 [H3 C3]].
  exists r1, r2, r3. split; [exact H1|]. split; [exact H2|].
  split; [exact H3|].
  destruct (session_life between r1 r2 C1 H2) as [_ [Hn12 _]].
  destruct (session_life after r2 r3 C2 H3) as [_ [Hn23 [Hkeys _]]].
  split; [lia|]. intros k Hk1 Hnot Hk3.
  destruct (Hkeys k Hk3) as [Hk2|[i [Hi Hki]]]; [now apply Hnot|].
  destruct (keys_issued C1 k Hk1) as [n [Hlt Hkn]].
  rewrite Hkn in Hki. apply face_inj in Hki. lia.
Qed.

(** Persistence: through any session, a face that is still tracked under
    the same id has the mask number it had before, and the [firstSeen] it
    had before. *)
Theorem mask_kept_for_life (before later : list Frame) :
  exists r1 r2,
    session Math_atan2 constructor before = Normal r1
    /\ session Math_atan2 r1 later = Normal r2
    /\ forall k t t',
         JsMap.get (trackedFaces r1) k = Some t ->
         JsMap.get (trackedFaces r2) k = Some t' ->
         TrackedFace.maskNumber t' = TrackedFace.maskNumber t
         /\ TrackedFace.firstSeen t' = TrackedFace.firstSeen t.
Proof.
  destruct (session_returns before constructor constructor_consistent)
    as [r1 [H1 C1]].
  destruct (session_returns later r1 C1) as [r2 [H2 C2]].
  exists r1, r2. split; [exact H1|]. split; [exact H2|].
  apply (session_life later r1 r2 C1 H2).
Qed.

End Life.

(** ** The landmarks the extractors read *)

Section FewLandmarks.
Variable Math_atan2 : float -> float -> float.

(** Of the landmarks of a detection the extractors read nine: the centre
    depends on the eye corners 33, 133, 362, 263 and the nose tip 1, the
    rotation on the four eye corners, the size on the outline points 10,
    152, 234, 454.  Two arrays that are not empty and agree there give the
    same detection, whatever their other entries and their lengths. *)
Theorem extractors_read_few_landmarks (l l' : list Landmark) :
  l <> [] -> l' <> [] ->
  ((forall i, In i [1; 33; 133; 263; 362] -> at_index l i = at_index l' i) ->
   calculateFaceCenter (Some l) = calculateFaceCenter (Some l'))
  /\ ((forall i, In i [33; 133; 263; 362] -> at_index l i = at_index l' i) ->
      calculateHeadRotation Math_atan2 (Some l)
      = calculateHeadRotation Math_atan2 (Some l'))
  /\ ((forall i, In i [10; 152; 234; 454] -> at_index l i = at_index l' i) ->
      calculateFaceSize (Some l) = calculateFaceSize (Some l')).
Proof.
  intros Hl Hl'.
  assert (E : (List.length l =? 0)%nat = false)
    by (destruct l; [contradiction|reflexivity]).
  assert (E' : (List.length l' =? 0)%nat = false)
    by (destruct l'; [contradiction|reflexivity]).
  unfold calculateFaceCenter, calculateHeadRotation, calculateFaceSize.
  rewrite E, E'. split; [|split]; intros H.
  - rewrite (H 1), (H 33), (H 133), (H 263), (H 362) by (simpl; tauto).
    reflexivity.
  - rewrite (H 33), (H 133), (H 263), (H 362) by (simpl; tauto).
    reflexivity.
  - rewrite (H 10), (H 152), (H 234), (H 454) by (simpl; tauto).
    reflexivity.
Qed.

End FewLandmarks.

Lemma extractors_read_few_landmarks_witness :
  calculateFaceCenter faceA
  = calculateFaceCenter
      (Some (List.map (landmarkAt 0.125 0.25 0.5 0.03125) (seq 0 400))).
Proof.
  assert (Hl : List.map (landmarkAt 0.125 0.25 0.125 0.03125) (seq 0 478)
               <> []) by discriminate.
  assert (Hl' : List.map (landmarkAt 0.125 0.25 0.5 0.03125) (seq 0 400)
                <> []) by discriminate.
  apply (proj1 (extractors_read_few_landmarks atan2_level _ _ Hl Hl')).
  intros i Hin. simpl in Hin.
  repeat (destruct Hin as [<-|Hin]; [vm_compute; reflexivity|]).
  contradiction.
Defined.

(** ** A face created in a call, until it is removed *)

(** The id of a new face is not put in [matchedFaceIds]: unless a later
    detection of the same frame matches it, the clean-up of the call that
    created it already counts a missed frame.  The face, created by any
    detection of the frame, ends that call with [framesMissing = 1]; it is
    still tracked then when [maxFramesMissing >= 1] and [maxFaceAge >= 0];
    and with [maxFramesMissing <= 1], as in a new registry, the next call
    that does not match it removes it: after one missed frame, not two. *)
Lemma created_face_already_missed (now : Z) (r : FaceRegistry) (n : nat)
  (pre post : list NewFace.t) (newFace : NewFace.t) :
  consistent r -> n <> 0 ->
  let st := fold_left (matchDetection now) pre (mkLoop r [] []) in
  let faceId := face_ (nextFaceId (registry st)) in
  let detections := pre ++ newFace :: post in
  findBestMatch (registry st) newFace = None ->
  Set_has (matchedIn now r detections) faceId = false ->
  let r' := fst (trackDetections now r n detections) in
  (forall t',
     JsMap.get (trackedFaces r') faceId = Some t' ->
     TrackedFace.framesMissing t' = 1)
  /\ (1 <= maxFramesMissing r -> (0 <= maxFaceAge r)%Z ->
      exists t',
        JsMap.get (trackedFaces r') faceId = Some t'
        /\ TrackedFace.framesMissing t' = 1
        /\ TrackedFace.maskNumber t' = getNextMaskNumber (registry st))
  /\ (maxFramesMissing r <= 1 ->
      forall now2 n2 detections2,
        Set_has (matchedIn now2 r' detections2) faceId = false ->
        ~ In faceId
            (JsMap.keys
               (trackedFaces
                  (fst (trackDetections now2 r' n2 detections2))))).
Proof.
  intros C Hn st faceId detections Hnone Hun r'.
  pose proof (matchLoop_consistent now pre (mkLoop r [] []) C) as Cst.
  fold st in Cst.
  pose proof (matchDetection_consistent now st newFace Cst) as Cst1.
  set (st1 := matchDetection now st newFace) in *.
  pose proof (matchLoop_consistent now post st1 Cst1) as CstF.
  set (stF := fold_left (matchDetection now) post st1) in *.
  assert (EF : fold_left (matchDetection now) detections (mkLoop r [] [])
               = stF).
  { unfold detections. rewrite fold_left_app. reflexivity. }
  set (newT := newTrackedFace now faceId (getNextMaskNumber (registry st))
                 newFace).
  assert (Hget1 : JsMap.get (trackedFaces (registry st1)) faceId = Some newT).
  { unfold st1, matchDetection. rewrite Hnone. simpl.
    apply JsMap_get_set_same. }
  unfold matchedIn in Hun. rewrite EF in Hun.
  pose proof (matchLoop_unmatched now post st1 faceId newT
                (keys_issued Cst1) Hget1 Hun) as HgetF.
  fold stF in HgetF.
  assert (Er' : r' = sweep (registry stF) (matchedFaceIds stF) now).
  { unfold r', trackDetections. rewrite EF.
    destruct (Nat.eqb_spec n 0); [contradiction|reflexivity]. }
  assert (Hone : forall t',
            JsMap.get (trackedFaces r') faceId = Some t' ->
            t' = missedFrame newT).
  { intros t' Hget. rewrite Er' in Hget. apply JsMap_get_In in Hget.
    destruct (sweep_survivor _ _ _ _ _ (keys_unique CstF) Hget)
      as [t [Hin [Ht' _]]].
    rewrite Hun in Ht'. subst t'.
    apply (JsMap_In_get _ _ _ (keys_unique CstF)) in Hin.
    congruence. }
  assert (Hset : same_settings r (registry stF)).
  { rewrite <- EF.
    exact (matchLoop_settings now detections (mkLoop r [] [])). }
  destruct Hset as [_ [_ [Hmiss Hage]]].
  assert (C' : consistent r').
  { rewrite Er'. now apply sweep_consistent. }
  split; [|split].
  - intros t' Hget. now rewrite (Hone t' Hget).
  - intros Hfm Hold. exists (missedFrame newT).
    split; [|split; reflexivity].
    apply (JsMap_In_get _ _ _ (keys_unique C')). rewrite Er'.
    apply sweep_keeps;
      [apply (keys_unique CstF)|now apply JsMap_get_In|exact Hun| |].
    + rewrite Hmiss. simpl. lia.
    + rewrite Hage. simpl. lia.
  - intros Hfm now2 n2 detections2 Hun2 Hin.
    destruct (trackDetections_keys now2 r' n2 detections2 faceId C' Hin)
      as [Hk|[i [Hi Hki]]].
    + destruct (JsMap_key_get _ _ Hk) as [t' Hget].
      destruct (trackDetections_unmatched now2 r' n2 detections2 faceId t'
                  C' Hget Hun2) as [Hgone _].
      rewrite (Hone t' Hget) in Hgone.
      assert (Hmiss' : maxFramesMissing r' = maxFramesMissing r).
      { rewrite Er'. simpl. exact Hmiss. }
      assert (Hlt : maxFramesMissing r'
                    < S (TrackedFace.framesMissing (missedFrame newT)))
        by (rewrite Hmiss'; simpl; lia).
      exact (proj1 (Hgone Hlt) Hin).
    + apply face_inj in Hki.
      assert (Hcount : S (nextFaceId (registry st)) <= nextFaceId r').
      { rewrite Er'. simpl.
        pose proof (matchLoop_nextFaceId now post st1) as Hle.
        fold stF in Hle.
        assert (E1 : nextFaceId (registry st1)
                     = S (nextFaceId (registry st))).
        { unfold st1, matchDetection. now rewrite Hnone. }
        lia. }
      lia.
Qed.

Lemma created_face_already_missed_witness :
  (exists t',
     JsMap.get
       (trackedFaces
          (fst (trackDetections 0 constructor 2 [detectionA; detectionB])))
       "face_1" = Some t'
     /\ TrackedFace.framesMissing t' = 1)
  /\ ~ In "face_1"%string
         (JsMap.keys
            (trackedFaces
               (fst (trackDetections 33
                       (fst (trackDetections 0 constructor 2
                               [detectionA; detectionB]))
                       1 [detectionB])))).
Proof.
  assert (Hnone : findBestMatch constructor detectionA = None)
    by reflexivity.
  assert (Hun : Set_has (matchedIn 0 constructor [detectionA; detectionB])
                  "face_1" = false) by (vm_compute; reflexivity).
  destruct (created_face_already_missed 0 constructor 2 [] [detectionB]
              detectionA constructor_consistent (Nat.neq_succ_0 1)
              Hnone Hun) as [_ [Hkept Hgone]].
  split.
  - destruct Hkept as [t' [Hget [Hfm _]]]; [simpl; lia|simpl; lia|].
    exists t'. split; [exact Hget|exact Hfm].
  - apply (Hgone (le_n 1) 33%Z 1 [detectionB]). vm_compute. reflexivity.
Defined.

(** ** Smoothing, frame after frame *)

Lemma is_nan_spec (a : float) : is_nan a = true <-> Prim2SF a = S754_nan.
Proof.
  unfold is_nan. rewrite FloatAxioms.eqb_spec. unfold SFeqb, SFcompare.
  destruct (Prim2SF a) as [[]|[]| |[] m e]; simpl;
    try (split; [discriminate|discriminate]);
    try (split; reflexivity);
    rewrite Z.compare_refl;
    change (PosDef.Pos.compare_cont Eq) with Pos.compare;
    rewrite Pos.compare_refl; split; discriminate.
Qed.

Lemma is_finite_spec (a : float) :
  is_finite a = true ->
  (exists s, Prim2SF a = S754_zero s)
  \/ exists s m e, Prim2SF a = S754_finite s m e.
Proof.
  unfold is_finite, is_infinity. intros H. apply negb_true_iff in H.
  apply orb_false_iff in H. destruct H as [Hnan Hinf].
  rewrite FloatAxioms.eqb_spec, abs_spec in Hinf.
  destruct (Prim2SF a) as [s|s| |s m e] eqn:E.
  - left. now exists s.
  - destruct s; discriminate.
  - assert (is_nan a = true) by (now apply is_nan_spec). congruence.
  - right. now exists s, m, e.
Qed.

(** Over the numbers of the program a value at its target is at rest: the
    difference is an exact zero. *)
Lemma lerp_rest (b : float) :
  is_finite b = true -> (lerp b b 0.2 =? b)%float = true.
Proof.
  intros H. unfold lerp. cbn [add sub mul number_arithmetic].
  rewrite FloatAxioms.eqb_spec, add_spec, mul_spec, sub_spec.
  destruct (is_finite_spec b H) as [[s E]|[s [m [e E]]]]; rewrite E.
  - destruct s; reflexivity.
  - unfold SF64sub, SFsub. cbv zeta.
    rewrite Z.sub_diag. cbn [binary_normalize].
    assert (E2 : exists m2 e2, Prim2SF 0.2 = S754_finite false m2 e2)
      by (vm_compute; eauto).
    destruct E2 as [m2 [e2 ->]].
    unfold SF64mul. cbn [SFmul xorb]. unfold SF64add. cbn [SFadd].
    unfold SFeqb, SFcompare. rewrite Z.compare_refl.
    change (PosDef.Pos.compare_cont Eq) with Pos.compare.
    rewrite Pos.compare_refl. destruct s; reflexivity.
Qed.

(** A NaN, cached or raw, gives a NaN. *)
Lemma lerp_nan (a b t : float) :
  is_nan a = true \/ is_nan b = true -> is_nan (lerp a b t) = true.
Proof.
  intros H. unfold lerp. cbn [add sub mul number_arithmetic].
  apply is_nan_spec. rewrite add_spec, mul_spec, sub_spec.
  destruct H as [H|H]; apply is_nan_spec in H; rewrite H.
  - reflexivity.
  - replace (SF64sub S754_nan (Prim2SF a)) with S754_nan by reflexivity.
    unfold SF64mul, SF64add. cbn [SFmul].
    destruct (Prim2SF a) as [[]|[]| |[] m e]; reflexivity.
Qed.

Lemma held_shift {N : Type} `{Arithmetic N} (alpha target s0 : N) (n : nat) :
  held alpha target n (lerp s0 target alpha) = held alpha target (S n) s0.
Proof. unfold held. now rewrite Nat.iter_succ_r. Qed.

(** ** Rounding: how far a number of the program is from the exact value *)

(** The operations on the numbers of the program are the IEEE ones,
    specified by [SFadd], [SFsub] and [SFmul]: the exact result, rounded by
    [binary_round_aux].  The lemmas of this section bound the distance
    between the rounded and the exact result, first on mantissas, then on
    values, then for [lerp] and for [held]. *)

Section Rounding.
Local Open Scope Z_scope.

(** [digits2_pos m] is the number of binary digits of [m]. *)
Lemma digits2_pos_spec (m : positive) :
  2 ^ (Z.pos (digits2_pos m) - 1) <= Z.pos m < 2 ^ Z.pos (digits2_pos m).
Proof.
  induction m as [m IH|m IH|]; cbn [digits2_pos].
  - change (PosDef.Pos.succ (digits2_pos m)) with (Pos.succ (digits2_pos m)).
    rewrite Pos2Z.inj_succ, Z.pow_succ_r by lia.
    replace (Z.succ (Z.pos (digits2_pos m)) - 1) with (Z.succ (Z.pos (digits2_pos m) - 1)) by lia.
    rewrite Z.pow_succ_r by lia. lia.
  - change (PosDef.Pos.succ (digits2_pos m)) with (Pos.succ (digits2_pos m)).
    rewrite Pos2Z.inj_succ, Z.pow_succ_r by lia.
    replace (Z.succ (Z.pos (digits2_pos m)) - 1) with (Z.succ (Z.pos (digits2_pos m) - 1)) by lia.
    rewrite Z.pow_succ_r by lia. lia.
  - simpl. lia.
Qed.

(** Shifting a mantissa right by [p] bits divides it by [2 ^ p]. *)
Lemma shr_1_m (r : shr_record) :
  0 <= shr_m r -> shr_m (shr_1 r) = shr_m r / 2.
Proof.
  destruct r as [m rb sb]. cbn [shr_m]. intros H.
  destruct m as [|[q|q|]|q]; cbn [shr_1 shr_m]; try lia.
  - reflexivity.
  - rewrite Pos2Z.inj_xI. apply Z.div_unique with 1; lia.
  - rewrite Pos2Z.inj_xO. apply Z.div_unique with 0; lia.
  - reflexivity.
Qed.

Lemma iter_shr_1_m (p : positive) : forall r : shr_record,
  0 <= shr_m r -> shr_m (SpecFloat.iter_pos shr_1 p r) = shr_m r / 2 ^ Z.pos p.
Proof.
  assert (P2 : forall q, 0 < 2 ^ Z.pos q) by (intros q; apply Z.pow_pos_nonneg; lia).
  induction p as [p IH|p IH|]; intros r H; cbn [SpecFloat.iter_pos].
  - assert (H1 : 0 <= shr_m (shr_1 r)).
    { rewrite shr_1_m by exact H. apply Z.div_pos; lia. }
    assert (H2 : 0 <= shr_m (SpecFloat.iter_pos shr_1 p (shr_1 r))).
    { rewrite IH by exact H1. apply Z.div_pos; [exact H1|apply P2]. }
    rewrite IH by exact H2. rewrite IH by exact H1. rewrite shr_1_m by exact H.
    pose proof (P2 p).
    rewrite !Z.div_div by lia.
    f_equal. rewrite Pos2Z.inj_xI.
    replace (2 * Z.pos p + 1) with (1 + Z.pos p + Z.pos p) by lia.
    rewrite !Z.pow_add_r by lia. rewrite Z.pow_1_r. lia.
  - assert (H2 : 0 <= shr_m (SpecFloat.iter_pos shr_1 p r)).
    { rewrite IH by exact H. apply Z.div_pos; [exact H|apply P2]. }
    rewrite IH by exact H2. rewrite IH by exact H.
    pose proof (P2 p).
    rewrite !Z.div_div by lia.
    f_equal. rewrite <- Z.pow_add_r by lia. f_equal. lia.
  - rewrite shr_1_m by exact H. rewrite Z.pow_1_r. reflexivity.
Qed.

Lemma round_nearest_even_cases (q : Z) (l : location) :
  round_nearest_even q l = q \/ round_nearest_even q l = q + 1.
Proof.
  unfold round_nearest_even. destruct l as [|[| |]]; auto.
  destruct (Z.even q); auto.
Qed.

Lemma fexp_eq (x : Z) : fexp prec emax x = Z.max (x - 53) (-1074).
Proof. reflexivity. Qed.

Lemma Zdigits2_le (m : Z) (x : Z) : 0 <= x -> 0 <= m < 2 ^ x -> Zdigits2 m <= x.
Proof.
  intros Hx [H0 H]. destruct m as [|m|m]; cbn [Zdigits2]; try lia.
  pose proof (digits2_pos_spec m) as [Hlo _].
  assert (2 ^ (Z.pos (digits2_pos m) - 1) < 2 ^ x) by lia.
  apply Z.pow_lt_mono_r_iff in H1; lia.
Qed.

(** Rounding the mantissa [M] at the exponent [e]: either nothing is
    shifted out and the mantissa is kept, or [k] bits are, the exponent
    reached is that of the format for a number one binary digit longer at
    most, and the mantissa kept is within two units of [M / 2 ^ k]. *)
Lemma round_aux_Z (s : bool) (M : positive) (e : Z) :
  exists m2 k,
    0 <= m2 /\ 0 <= k
    /\ ((k = 0 /\ m2 = Z.pos M)
        \/ (0 < k
            /\ e + k <= Z.max (Z.pos (digits2_pos M) + e - 52) (-1074)
            /\ Z.abs (m2 * 2 ^ k - Z.pos M) <= 2 * 2 ^ k))
    /\ binary_round_aux prec emax s (Z.pos M) e loc_Exact = rounded s m2 (e + k).
Proof.
  unfold binary_round_aux, shr_fexp. cbn [Zdigits2 shr_record_of_loc].
  rewrite fexp_eq.
  pose proof (digits2_pos_spec M) as [HMlo HMhi].
  set (dM := Z.pos (digits2_pos M)) in *.
  destruct (Z.max (dM + e - 53) (-1074) - e) as [|p|p] eqn:En.
  - cbn [shr shr_m loc_of_shr_record round_nearest_even Zdigits2 shr_record_of_loc].
    fold dM. rewrite fexp_eq, En. cbn [shr shr_m].
    exists (Z.pos M), 0. rewrite Z.add_0_r.
    split; [lia|]. split; [lia|]. split; [left; split; reflexivity|reflexivity].
  - cbn [shr].
    set (mrs := SpecFloat.iter_pos shr_1 p _).
    assert (Hq : shr_m mrs = Z.pos M / 2 ^ Z.pos p).
    { unfold mrs. rewrite iter_shr_1_m; cbn [shr_m]; [reflexivity|lia]. }
    assert (P2 : 0 < 2 ^ Z.pos p) by (apply Z.pow_pos_nonneg; lia).
    pose proof (Z.div_mod (Z.pos M) (2 ^ Z.pos p) ltac:(lia)) as Hdm.
    pose proof (Z.mod_pos_bound (Z.pos M) (2 ^ Z.pos p) P2) as Hmb.
    assert (Hq0 : 0 <= shr_m mrs) by (rewrite Hq; apply Z.div_pos; lia).
    set (m1 := round_nearest_even (shr_m mrs) (loc_of_shr_record mrs)).
    assert (Hm1 : m1 = shr_m mrs \/ m1 = shr_m mrs + 1) by apply round_nearest_even_cases.
    assert (Herr1 : Z.abs (m1 * 2 ^ Z.pos p - Z.pos M) <= 2 ^ Z.pos p).
    { rewrite Hq in Hm1. destruct Hm1 as [-> | ->]; nia. }
    assert (Hm1pos : 0 <= m1) by lia.
    assert (Hd1 : Z.pos p < dM -> Zdigits2 m1 <= dM - Z.pos p + 1).
    { intros Hp. apply Zdigits2_le; [lia|]. split; [exact Hm1pos|].
      assert (Z.pos M / 2 ^ Z.pos p < 2 ^ (dM - Z.pos p)).
      { apply Z.div_lt_upper_bound; [exact P2|].
        rewrite <- Z.pow_add_r by lia. replace (Z.pos p + (dM - Z.pos p)) with dM by lia.
        exact HMhi. }
      rewrite Z.pow_add_r by lia. rewrite Z.pow_1_r. rewrite Hq in Hm1. lia. }
    assert (Hd1' : dM <= Z.pos p -> Zdigits2 m1 <= 1).
    { intros Hp. apply Zdigits2_le; [lia|]. split; [exact Hm1pos|].
      assert (Z.pos M / 2 ^ Z.pos p = 0).
      { apply Z.div_small. split; [lia|].
        apply Z.lt_le_trans with (2 ^ dM); [exact HMhi|].
        apply Z.pow_le_mono_r; lia. }
      rewrite Hq in Hm1. rewrite Z.pow_1_r. lia. }
    rewrite fexp_eq.
    destruct (Z.max (Zdigits2 m1 + (e + Z.pos p) - 53) (-1074) - (e + Z.pos p))
      as [|p2|p2] eqn:En2.
    + cbn [shr shr_m]. exists m1, (Z.pos p).
      split; [lia|]. split; [lia|]. split; [right; lia|reflexivity].
    + cbn [shr].
      set (mrs2 := SpecFloat.iter_pos shr_1 p2 _).
      assert (Hq2 : shr_m mrs2 = m1 / 2 ^ Z.pos p2).
      { unfold mrs2. rewrite iter_shr_1_m; cbn [shr_m]; [reflexivity|lia]. }
      assert (P22 : 0 < 2 ^ Z.pos p2) by (apply Z.pow_pos_nonneg; lia).
      pose proof (Z.div_mod m1 (2 ^ Z.pos p2) ltac:(lia)) as Hdm2.
      pose proof (Z.mod_pos_bound m1 (2 ^ Z.pos p2) P22) as Hmb2.
      assert (Hq20 : 0 <= shr_m mrs2) by (rewrite Hq2; apply Z.div_pos; lia).
      exists (shr_m mrs2), (Z.pos p + Z.pos p2).
      split; [exact Hq20|]. split; [lia|]. split.
      * right. split; [lia|]. split.
        { destruct (Z.lt_ge_cases (Z.pos p) dM) as [Hp|Hp].
          - specialize (Hd1 Hp). lia.
          - specialize (Hd1' Hp). lia. }
        rewrite Z.pow_add_r by lia. rewrite Hq2.
        set (A := 2 ^ Z.pos p) in *. set (B := 2 ^ Z.pos p2) in *.
        set (q2 := m1 / B) in *. set (r2 := m1 mod B) in *.
        nia.
      * rewrite Z.add_assoc. reflexivity.
    + cbn [shr shr_m]. exists m1, (Z.pos p).
      split; [lia|]. split; [lia|]. split; [right; lia|reflexivity].
  - cbn [shr shr_m loc_of_shr_record round_nearest_even Zdigits2 shr_record_of_loc].
    fold dM. rewrite fexp_eq, En. cbn [shr shr_m].
    exists (Z.pos M), 0. rewrite Z.add_0_r.
    split; [lia|]. split; [lia|]. split; [left; split; reflexivity|reflexivity].
Qed.

Local Open Scope Q_scope.

Lemma pow2_pos (e : Z) : 0 < 2 ^ e.
Proof. apply Qpower_0_lt. reflexivity. Qed.

Lemma pow2_add (a b : Z) : 2 ^ (a + b) == 2 ^ a * 2 ^ b.
Proof. apply Qpower_plus. discriminate. Qed.

Lemma pow2_Z (k : Z) : (0 <= k)%Z -> inject_Z (2 ^ k) == 2 ^ k.
Proof. intros H. exact (Zpower_Qpower 2 k H). Qed.

Lemma pow2_le (a b : Z) : (a <= b)%Z -> 2 ^ a <= 2 ^ b.
Proof. intros H. apply Qpower_le_compat_l; [exact H|discriminate]. Qed.

Lemma Qabs_cond_Zopp (s : bool) (z : Z) (P : Q) :
  0 <= P -> Qabs (inject_Z (cond_Zopp s z) * P) == inject_Z (Z.abs z) * P.
Proof.
  intros H. rewrite Qabs_Qmult, (Qabs_pos P H).
  assert (E : Qabs (inject_Z (cond_Zopp s z)) = inject_Z (Z.abs z)).
  { unfold inject_Z, Qabs. f_equal. destruct s; simpl; [apply Z.abs_opp|reflexivity]. }
  rewrite E. reflexivity.
Qed.

Lemma cond_Zopp_sub (s : bool) (a b : Z) :
  cond_Zopp s (a - b) = (cond_Zopp s a - cond_Zopp s b)%Z.
Proof. destruct s; simpl; lia. Qed.

Lemma cond_Zopp_mul (s : bool) (a b : Z) :
  cond_Zopp s (a * b) = (cond_Zopp s a * b)%Z.
Proof. destruct s; simpl; lia. Qed.

Lemma rounded_SF2Q (s : bool) (m2 e2 : Z) :
  (0 <= m2)%Z -> (e2 <= 971)%Z ->
  SF_finite (rounded s m2 e2) = true
  /\ SF2Q (rounded s m2 e2) == inject_Z (cond_Zopp s m2) * 2 ^ e2.
Proof.
  intros Hm He. unfold rounded. destruct m2 as [|m|m]; [| |lia].
  - split; [reflexivity|]. destruct s; simpl; ring.
  - change (emax - prec)%Z with 971%Z.
    apply Z.leb_le in He. rewrite He. split; reflexivity.
Qed.

(** Rounding a positive integer times a power of two, below [2 ^ K], to a
    double moves it by at most two units of the last place kept. *)
Lemma round_aux_Q (s : bool) (M : positive) (e K : Z) :
  (Z.pos (digits2_pos M) + e <= K)%Z -> (K <= 972)%Z ->
  let r := binary_round_aux prec emax s (Z.pos M) e loc_Exact in
  SF_finite r = true
  /\ Qabs (SF2Q r - inject_Z (cond_Zopp s (Z.pos M)) * 2 ^ e)
     <= 2 * 2 ^ Z.max (K - 52) (-1074).
Proof.
  intros HK HK2 r.
  destruct (round_aux_Z s M e) as [m2 [k [Hm2 [Hk [Hcase Er]]]]].
  unfold r. rewrite Er. clear r Er.
  assert (Hpos : 0 < 2 * 2 ^ Z.max (K - 52) (-1074)).
  { apply Qmult_lt_0_compat; [reflexivity|apply pow2_pos]. }
  destruct Hcase as [[-> ->]|[Hk0 [He Herr]]].
  - rewrite Z.add_0_r.
    pose proof (Pos2Z.is_pos (digits2_pos M)).
    destruct (rounded_SF2Q s (Z.pos M) e) as [Hf Hv]; [lia|lia|].
    split; [exact Hf|]. rewrite Hv.
    setoid_replace (inject_Z (cond_Zopp s (Z.pos M)) * 2 ^ e
                    - inject_Z (cond_Zopp s (Z.pos M)) * 2 ^ e) with 0 by ring.
    simpl. apply Qlt_le_weak. exact Hpos.
  - destruct (rounded_SF2Q s m2 (e + k)) as [Hf Hv]; [lia|lia|].
    split; [exact Hf|]. rewrite Hv.
    rewrite pow2_add, <- (pow2_Z k) by lia.
    setoid_replace (inject_Z (cond_Zopp s m2) * (2 ^ e * inject_Z (2 ^ k))
                    - inject_Z (cond_Zopp s (Z.pos M)) * 2 ^ e)
      with (inject_Z (cond_Zopp s (m2 * 2 ^ k - Z.pos M)) * 2 ^ e).
    2:{ rewrite cond_Zopp_sub, cond_Zopp_mul.
        unfold Zminus. rewrite inject_Z_plus, inject_Z_opp, inject_Z_mult. ring. }
    rewrite Qabs_cond_Zopp by (apply Qlt_le_weak, pow2_pos).
    apply Qle_trans with (inject_Z (2 * 2 ^ k) * 2 ^ e).
    + apply Qmult_le_compat_r; [|apply Qlt_le_weak, pow2_pos].
      rewrite <- Zle_Qle. exact Herr.
    + rewrite inject_Z_mult, pow2_Z by lia.
      setoid_replace (inject_Z 2 * 2 ^ k * 2 ^ e) with (2 * (2 ^ e * 2 ^ k)) by ring.
      rewrite <- pow2_add.
      apply Qmult_le_l; [reflexivity|]. apply pow2_le. lia.
Qed.

(** A value below [2 ^ K] has its digits and exponent sum to at most [K]. *)
Lemma dexp_bound (M : positive) (e K : Z) :
  inject_Z (Z.pos M) * 2 ^ e < 2 ^ K ->
  (Z.pos (digits2_pos M) + e <= K)%Z.
Proof.
  intros H. pose proof (digits2_pos_spec M) as [Hlo _].
  pose proof (Pos2Z.is_pos (digits2_pos M)) as Hd.
  rewrite Zle_Qle, pow2_Z in Hlo by lia.
  assert (H2 : 2 ^ (Z.pos (digits2_pos M) - 1 + e) < 2 ^ K).
  { rewrite pow2_add. eapply Qle_lt_trans; [|exact H].
    apply Qmult_le_compat_r; [exact Hlo|apply Qlt_le_weak, pow2_pos]. }
  apply Qpower_lt_compat_l_inv in H2; [lia|reflexivity].
Qed.

(** Aligning a mantissa to a smaller exponent keeps the value. *)
Lemma shl_align_value (mx : positive) (ex ez : Z) :
  inject_Z (Z.pos (fst (shl_align mx ex ez))) * 2 ^ snd (shl_align mx ex ez)
  == inject_Z (Z.pos mx) * 2 ^ ex.
Proof.
  unfold shl_align. destruct (ez - ex)%Z as [|d|d] eqn:E; cbn [fst snd];
    try reflexivity.
  change (PosDef.Pos.iter xO mx d) with (shift_pos d mx).
  rewrite shift_pos_correct.
  change (Z.pow_pos 2 d) with (2 ^ Z.pos d)%Z.
  rewrite inject_Z_mult, pow2_Z by lia.
  replace ex with (Z.pos d + ez)%Z by lia.
  rewrite pow2_add. ring.
Qed.

Lemma shl_align_snd (mx : positive) (ex ez : Z) :
  (ez <= ex)%Z -> snd (shl_align mx ex ez) = ez.
Proof.
  intros H. unfold shl_align. destruct (ez - ex)%Z as [|d|d] eqn:E; cbn [snd]; lia.
Qed.

Lemma inject_cond_Zopp (s : bool) (z : Z) :
  inject_Z (cond_Zopp s z) == (if s then - inject_Z z else inject_Z z).
Proof. destruct s; simpl; [rewrite inject_Z_opp|]; reflexivity. Qed.

Lemma binary_round_Q (s : bool) (M : positive) (e K : Z) :
  inject_Z (Z.pos M) * 2 ^ e < 2 ^ K -> (K <= 972)%Z ->
  let r := binary_round prec emax s M e in
  SF_finite r = true
  /\ Qabs (SF2Q r - inject_Z (cond_Zopp s (Z.pos M)) * 2 ^ e)
     <= 2 * 2 ^ Z.max (K - 52) (-1074).
Proof.
  intros H HK r. unfold r, binary_round.
  pose proof (shl_align_value M e (fexp prec emax (Z.pos (digits2_pos M) + e)))
    as Hv.
  destruct (shl_align M e (fexp prec emax (Z.pos (digits2_pos M) + e)))
    as [mz ez]. cbn [fst snd] in Hv.
  assert (Hd : (Z.pos (digits2_pos mz) + ez <= K)%Z).
  { apply dexp_bound. now rewrite Hv. }
  destruct (round_aux_Q s mz ez K Hd HK) as [Hf Herr].
  split; [exact Hf|].
  assert (E : inject_Z (cond_Zopp s (Z.pos M)) * 2 ^ e
              == inject_Z (cond_Zopp s (Z.pos mz)) * 2 ^ ez).
  { rewrite !inject_cond_Zopp. destruct s.
    - setoid_replace (- inject_Z (Z.pos M) * 2 ^ e)
        with (- (inject_Z (Z.pos M) * 2 ^ e)) by ring.
      rewrite <- Hv. ring.
    - now rewrite Hv. }
  rewrite E. exact Herr.
Qed.

Lemma binary_normalize_Q (m e K : Z) :
  Qabs (inject_Z m * 2 ^ e) < 2 ^ K -> (K <= 972)%Z ->
  let r := binary_normalize prec emax m e false in
  SF_finite r = true
  /\ Qabs (SF2Q r - inject_Z m * 2 ^ e) <= 2 * 2 ^ Z.max (K - 52) (-1074).
Proof.
  intros H HK r. unfold r, binary_normalize. destruct m as [|m|m].
  - split; [reflexivity|]. simpl SF2Q.
    setoid_replace (0 - inject_Z 0 * 2 ^ e) with 0 by ring.
    simpl. apply Qlt_le_weak, Qmult_lt_0_compat; [reflexivity|apply pow2_pos].
  - apply (binary_round_Q false m e K); [|exact HK].
    rewrite Qabs_pos in H; [exact H|].
    apply Qmult_le_0_compat; [discriminate|apply Qlt_le_weak, pow2_pos].
  - apply (binary_round_Q true m e K); [|exact HK].
    change (Z.neg m) with (cond_Zopp true (Z.pos m)) in H.
    rewrite Qabs_cond_Zopp in H by (apply Qlt_le_weak, pow2_pos).
    exact H.
Qed.

Lemma SF2Q_aligned (s : bool) (m : positive) (e ez : Z) :
  (ez <= e)%Z ->
  inject_Z (cond_Zopp s (Z.pos (fst (shl_align m e ez)))) * 2 ^ ez
  == SF2Q (S754_finite s m e).
Proof.
  intros H. pose proof (shl_align_value m e ez) as Hv.
  rewrite (shl_align_snd m e ez H) in Hv. cbn [SF2Q].
  rewrite !inject_cond_Zopp. destruct s.
  - setoid_replace (- inject_Z (Z.pos m) * 2 ^ e)
      with (- (inject_Z (Z.pos m) * 2 ^ e)) by ring.
    rewrite <- Hv. ring.
  - exact Hv.
Qed.

Lemma zero_error (K : Z) (x y : Q) :
  x == y -> Qabs (x - y) <= 2 * 2 ^ Z.max (K - 52) (-1074).
Proof.
  intros E. setoid_replace (x - y) with 0 by (rewrite E; ring).
  simpl. apply Qlt_le_weak, Qmult_lt_0_compat; [reflexivity|apply pow2_pos].
Qed.

(** The three operations [lerp] uses: for finite operands whose exact
    result is below [2 ^ K] in magnitude, the result is finite and within
    [2 * 2 ^ max (K - 52) (-1074)] of the exact one. *)
Lemma SFadd_Q (x y : spec_float) (K : Z) :
  SF_finite x = true -> SF_finite y = true ->
  Qabs (SF2Q x + SF2Q y) < 2 ^ K -> (K <= 972)%Z ->
  let r := SFadd prec emax x y in
  SF_finite r = true
  /\ Qabs (SF2Q r - (SF2Q x + SF2Q y)) <= 2 * 2 ^ Z.max (K - 52) (-1074).
Proof.
  intros Hx Hy H HK r. unfold r.
  destruct x as [sx|sx| |sx mx ex]; try discriminate;
    destruct y as [sy|sy| |sy my ey]; try discriminate.
  - split; [destruct sx, sy; reflexivity|].
    apply zero_error. destruct sx, sy; simpl; ring.
  - split; [reflexivity|]. apply zero_error. cbn [SFadd SF2Q]. ring.
  - split; [reflexivity|]. apply zero_error. cbn [SFadd SF2Q]. ring.
  - cbn [SFadd]. cbv zeta.
    set (ez := IntDef.Z.min ex ey).
    assert (Hez : (ez <= ex /\ ez <= ey)%Z) by (unfold ez; change IntDef.Z.min with Z.min; lia).
    assert (E : inject_Z (cond_Zopp sx (Z.pos (fst (shl_align mx ex ez)))
                          + cond_Zopp sy (Z.pos (fst (shl_align my ey ez))))
                * 2 ^ ez
                == SF2Q (S754_finite sx mx ex) + SF2Q (S754_finite sy my ey)).
    { rewrite inject_Z_plus, Qmult_plus_distr_l.
      rewrite !SF2Q_aligned by lia. reflexivity. }
    rewrite <- E in H |- *.
    apply binary_normalize_Q; assumption.
Qed.

Lemma SFsub_Q (x y : spec_float) (K : Z) :
  SF_finite x = true -> SF_finite y = true ->
  Qabs (SF2Q x - SF2Q y) < 2 ^ K -> (K <= 972)%Z ->
  let r := SFsub prec emax x y in
  SF_finite r = true
  /\ Qabs (SF2Q r - (SF2Q x - SF2Q y)) <= 2 * 2 ^ Z.max (K - 52) (-1074).
Proof.
  intros Hx Hy H HK r. unfold r.
  destruct x as [sx|sx| |sx mx ex]; try discriminate;
    destruct y as [sy|sy| |sy my ey]; try discriminate.
  - split; [destruct sx, sy; reflexivity|].
    apply zero_error. destruct sx, sy; simpl; ring.
  - split; [reflexivity|]. apply zero_error. cbn [SFsub SF2Q].
    rewrite !inject_cond_Zopp. destruct sy; simpl; ring.
  - split; [reflexivity|]. apply zero_error. cbn [SFsub SF2Q]. ring.
  - cbn [SFsub]. cbv zeta.
    set (ez := IntDef.Z.min ex ey).
    assert (Hez : (ez <= ex /\ ez <= ey)%Z) by (unfold ez; change IntDef.Z.min with Z.min; lia).
    assert (E : inject_Z (cond_Zopp sx (Z.pos (fst (shl_align mx ex ez)))
                          - cond_Zopp sy (Z.pos (fst (shl_align my ey ez))))
                * 2 ^ ez
                == SF2Q (S754_finite sx mx ex) - SF2Q (S754_finite sy my ey)).
    { unfold Zminus. rewrite inject_Z_plus, inject_Z_opp.
      setoid_replace ((inject_Z (cond_Zopp sx (Z.pos (fst (shl_align mx ex ez))))
                       + - inject_Z (cond_Zopp sy (Z.pos (fst (shl_align my ey ez)))))
                      * 2 ^ ez)
        with (inject_Z (cond_Zopp sx (Z.pos (fst (shl_align mx ex ez)))) * 2 ^ ez
              - inject_Z (cond_Zopp sy (Z.pos (fst (shl_align my ey ez)))) * 2 ^ ez)
        by ring.
      rewrite !SF2Q_aligned by lia. reflexivity. }
    rewrite <- E in H |- *.
    apply binary_normalize_Q; assumption.
Qed.

Lemma SFmul_Q (x y : spec_float) (K : Z) :
  SF_finite x = true -> SF_finite y = true ->
  Qabs (SF2Q x * SF2Q y) < 2 ^ K -> (K <= 972)%Z ->
  let r := SFmul prec emax x y in
  SF_finite r = true
  /\ Qabs (SF2Q r - SF2Q x * SF2Q y) <= 2 * 2 ^ Z.max (K - 52) (-1074).
Proof.
  intros Hx Hy H HK r. unfold r.
  destruct x as [sx|sx| |sx mx ex]; try discriminate;
    destruct y as [sy|sy| |sy my ey]; try discriminate.
  - split; [reflexivity|]. apply zero_error. simpl. ring.
  - split; [reflexivity|]. apply zero_error. simpl. ring.
  - split; [reflexivity|]. apply zero_error. cbn [SFmul SF2Q]. ring.
  - cbn [SFmul].
    assert (E : inject_Z (cond_Zopp (xorb sx sy) (Z.pos (mx * my))) * 2 ^ (ex + ey)
                == SF2Q (S754_finite sx mx ex) * SF2Q (S754_finite sy my ey)).
    { cbn [SF2Q]. rewrite pow2_add, !inject_cond_Zopp, Pos2Z.inj_mul, inject_Z_mult.
      destruct sx, sy; simpl; ring. }
    rewrite <- E in H |- *.
    apply round_aux_Q; [|exact HK].
    apply dexp_bound.
    rewrite Qabs_cond_Zopp in H by (apply Qlt_le_weak, pow2_pos).
    exact H.
Qed.

Lemma is_finite_iff (a : float) :
  is_finite a = true <-> SF_finite (Prim2SF a) = true.
Proof.
  unfold is_finite, is_infinity, is_nan.
  rewrite !FloatAxioms.eqb_spec, abs_spec.
  unfold SFeqb, SFcompare.
  destruct (Prim2SF a) as [[]|[]| |[] m e]; simpl;
    try (split; [discriminate|discriminate]);
    try (split; reflexivity);
    rewrite Z.compare_refl;
    change (PosDef.Pos.compare_cont Eq) with Pos.compare;
    rewrite Pos.compare_refl; split; reflexivity.
Qed.

(** The same for the numbers of the program. *)
Lemma number_add (a b : float) (K : Z) :
  is_finite a = true -> is_finite b = true ->
  Qabs (number_value a + number_value b) < 2 ^ K -> (K <= 972)%Z ->
  is_finite (a + b)%float = true
  /\ Qabs (number_value (a + b)%float - (number_value a + number_value b))
     <= 2 * 2 ^ Z.max (K - 52) (-1074).
Proof.
  intros Ha Hb H HK. rewrite is_finite_iff in *. unfold number_value in *.
  rewrite add_spec. now apply SFadd_Q.
Qed.

Lemma number_sub (a b : float) (K : Z) :
  is_finite a = true -> is_finite b = true ->
  Qabs (number_value a - number_value b) < 2 ^ K -> (K <= 972)%Z ->
  is_finite (a - b)%float = true
  /\ Qabs (number_value (a - b)%float - (number_value a - number_value b))
     <= 2 * 2 ^ Z.max (K - 52) (-1074).
Proof.
  intros Ha Hb H HK. rewrite is_finite_iff in *. unfold number_value in *.
  rewrite sub_spec. now apply SFsub_Q.
Qed.

Lemma number_mul (a b : float) (K : Z) :
  is_finite a = true -> is_finite b = true ->
  Qabs (number_value a * number_value b) < 2 ^ K -> (K <= 972)%Z ->
  is_finite (a * b)%float = true
  /\ Qabs (number_value (a * b)%float - number_value a * number_value b)
     <= 2 * 2 ^ Z.max (K - 52) (-1074).
Proof.
  intros Ha Hb H HK. rewrite is_finite_iff in *. unfold number_value in *.
  rewrite mul_spec. now apply SFmul_Q.
Qed.

(** The number 0.2 of the program is not a fifth: it is the double next to
    it, [1 / (5 * 2 ^ 54)] above. *)
Lemma smoothingFactor_value :
  number_value 0.2%float == 7205759403792794 # 36028797018963968.
Proof. vm_compute. reflexivity. Qed.

Lemma pow2_shift (K j : Z) : 2 ^ (K + j) == 2 ^ K * 2 ^ j.
Proof. apply pow2_add. Qed.

(** One [lerp] with the factor 0.2, between numbers of magnitude at most
    [2 * 2 ^ K], is within [2 ^ (K - 48)] of the exact value. *)
Lemma lerp_close (K : Z) (a b : float) :
  (-1022 <= K <= 969)%Z ->
  is_finite a = true -> is_finite b = true ->
  Qabs (number_value a) <= 2 * 2 ^ K -> Qabs (number_value b) <= 2 * 2 ^ K ->
  is_finite (lerp a b 0.2%float) = true
  /\ Qabs (number_value (lerp a b 0.2%float)
           - lerp (number_value a) (number_value b) 0.2)
     <= 2 ^ (K - 48).
Proof.
  intros HK Ha Hb HA HB. unfold lerp.
  cbn [add sub mul number_arithmetic exact_arithmetic].
  pose proof (pow2_pos K) as Hu.
  apply Qabs_Qle_condition in HA, HB.
  assert (Ht : is_finite 0.2%float = true) by reflexivity.
  destruct (number_sub b a (K + 3) Hb Ha) as [Hd Ed]; [|lia|].
  { apply Qabs_Qlt_condition. rewrite pow2_shift.
    change (2 ^ 3) with 8. lra. }
  replace (Z.max (K + 3 - 52) (-1074)) with (K + -49)%Z in Ed by lia.
  rewrite pow2_shift in Ed. change (2 ^ (-49)) with (1 # 562949953421312) in Ed.
  apply Qabs_Qle_condition in Ed.
  set (d := (b - a)%float) in *.
  destruct (number_mul d 0.2%float K Hd Ht) as [Hp Ep]; [|lia|].
  { rewrite smoothingFactor_value. apply Qabs_Qlt_condition. lra. }
  replace (Z.max (K - 52) (-1074)) with (K + -52)%Z in Ep by lia.
  rewrite pow2_shift in Ep.
  change (2 ^ (-52)) with (1 # 4503599627370496) in Ep.
  rewrite smoothingFactor_value in Ep.
  apply Qabs_Qle_condition in Ep.
  set (p := (d * 0.2)%float) in *.
  destruct (number_add a p (K + 2) Ha Hp) as [Hr Er]; [|lia|].
  { apply Qabs_Qlt_condition. rewrite pow2_shift.
    change (2 ^ 2) with 4. lra. }
  replace (Z.max (K + 2 - 52) (-1074)) with (K + -50)%Z in Er by lia.
  rewrite pow2_shift in Er.
  change (2 ^ (-50)) with (1 # 1125899906842624) in Er.
  apply Qabs_Qle_condition in Er.
  split; [exact Hr|].
  replace (K - 48)%Z with (K + -48)%Z by lia.
  rewrite pow2_shift. change (2 ^ (-48)) with (1 # 281474976710656).
  apply Qabs_Qle_condition. lra.
Qed.

(** Over [n] frames towards a fixed raw value, the cached number stays
    within [5 * 2 ^ (K - 48)] of the value exact arithmetic gives. *)
Lemma held_close (K : Z) (target s0 : float) (n : nat) :
  (-1022 <= K <= 969)%Z ->
  is_finite s0 = true -> is_finite target = true ->
  Qabs (number_value s0) <= 2 ^ K ->
  Qabs (number_value target) <= 2 ^ K ->
  is_finite (held 0.2%float target n s0) = true
  /\ Qabs (held 0.2 (number_value target) n (number_value s0)) <= 2 ^ K
  /\ Qabs (number_value (held 0.2%float target n s0)
           - held 0.2 (number_value target) n (number_value s0))
     <= 5 * 2 ^ (K - 48).
Proof.
  intros HK Hs Ht HS HT.
  pose proof (pow2_pos K) as Hu.
  assert (E48 : 2 ^ (K - 48) == 2 ^ K * (1 # 281474976710656)).
  { replace (K - 48)%Z with (K + -48)%Z by lia. now rewrite pow2_shift. }
  induction n as [|n [IHf [IHb IHe]]].
  - split; [exact Hs|]. split; [exact HS|].
    cbn [held Nat.iter].
    setoid_replace (number_value s0 - number_value s0) with 0 by ring.
    rewrite E48. apply Qabs_Qle_condition. lra.
  - rewrite !held_succ.
    set (x := held 0.2%float target n s0) in *.
    set (X := held 0.2 (number_value target) n (number_value s0)) in *.
    rewrite E48 in IHe |- *.
    apply Qabs_Qle_condition in HS, HT, IHb, IHe.
    destruct (lerp_close K x target HK IHf Ht) as [Hf He].
    { apply Qabs_Qle_condition. lra. }
    { apply Qabs_Qle_condition. lra. }
    rewrite E48 in He.
    apply Qabs_Qle_condition in He.
    set (y := lerp x target 0.2%float) in *.
    clearbody y x X.
    unfold lerp in He |- *.
    cbn [add sub mul exact_arithmetic] in He |- *.
    split; [exact Hf|]. split; apply Qabs_Qle_condition; lra.
Qed.

(** The distance to the target, as the program computes it from values of
    magnitude at most [2 ^ K], is within [2 ^ (K - 45)] of the distance at
    the start times [0.8 ^ n]. *)
Lemma held_tolerance (K : Z) (target s0 : float) (n : nat) :
  (-1022 <= K <= 969)%Z ->
  is_finite s0 = true -> is_finite target = true ->
  Qabs (number_value s0) <= 2 ^ K ->
  Qabs (number_value target) <= 2 ^ K ->
  is_finite (held 0.2%float target n s0) = true
  /\ Qabs (Qabs (number_value (held 0.2%float target n s0)
                 - number_value target)
           - Qabs (number_value s0 - number_value target)
             * (1 - 0.2) ^ Z.of_nat n)
     <= 2 ^ (K - 45).
Proof.
  intros HK Hs Ht HS HT.
  destruct (held_close K target s0 n HK Hs Ht HS HT) as [Hf [_ He]].
  split; [exact Hf|].
  assert (Hlaw : Qabs (held 0.2 (number_value target) n (number_value s0)
                       - number_value target)
                 == Qabs (number_value s0 - number_value target)
                    * (1 - 0.2) ^ Z.of_nat n).
  { rewrite held_error, Qabs_Qmult.
    rewrite (Qabs_pos ((1 - 0.2) ^ Z.of_nat n)); [reflexivity|].
    apply Qpower_0_le. discriminate. }
  rewrite <- Hlaw.
  pose proof (pow2_pos K) as Hu.
  replace (K - 48)%Z with (K + -48)%Z in He by lia.
  replace (K - 45)%Z with (K + -45)%Z by lia.
  rewrite pow2_shift in He |- *.
  change (2 ^ (-48)) with (1 # 281474976710656) in He.
  change (2 ^ (-45)) with (1 # 35184372088832).
  set (x := number_value (held 0.2%float target n s0)) in *.
  set (X := held 0.2 (number_value target) n (number_value s0)) in *.
  set (T := number_value target) in *.
  pose proof (Qabs_triangle_reverse (x - T) (X - T)) as H1.
  pose proof (Qabs_triangle_reverse (X - T) (x - T)) as H2.
  setoid_replace (x - T - (X - T)) with (x - X) in H1 by ring.
  setoid_replace (X - T - (x - T)) with (- (x - X)) in H2 by ring.
  rewrite Qabs_opp in H2.
  apply Qabs_Qle_condition.
  generalize dependent (Qabs (x - X)). generalize (Qabs (x - T)).
  generalize (Qabs (X - T)). generalize dependent (2 ^ K).
  intros u Hu v w z Hz H1 H2. lra.
Qed.

End Rounding.

Section SmoothingFrames.
Variable Math_atan2 : float -> float -> float.
Variable g : Geometry.

(** What [applySmoothInterpolation] returns for a frame, entry by entry. *)
Lemma applySmoothInterpolation_entries (now : Z) (r : FaceRegistry)
  (prevFaceData : list PrevData.t) (currentFaces : list Landmarks) :
  exists r' res smoothed cache,
    processDetections Math_atan2 now r currentFaces = Normal (r', res)
    /\ applySmoothInterpolation Math_atan2 now g (r, prevFaceData)
         currentFaces
       = Normal ((r', cache), smoothed)
    /\ List.length smoothed = List.length res
    /\ List.map PrevData.faceId cache = List.map SmoothData.faceId smoothed
    /\ List.map PrevData.x cache = List.map SmoothData.x smoothed
    /\ List.map PrevData.y cache = List.map SmoothData.y smoothed
    /\ List.map PrevData.rotation cache
       = List.map SmoothData.rotation smoothed
    /\ List.map PrevData.size cache = List.map SmoothData.size smoothed
    /\ forall i entry,
         nth_error res i = Some entry ->
         exists face,
           nth_error smoothed i = Some face
           /\ SmoothData.faceId face = Tagged.faceId entry
           /\ SmoothData.maskNumber face = Tagged.maskNumber entry
           /\ (findPrev prevFaceData (Tagged.faceId entry) = None ->
               SmoothData.x face = pixelX (project g entry)
               /\ SmoothData.y face = pixelY (project g entry)
               /\ SmoothData.rotation face
                  = mirroredRotation (project g entry)
               /\ SmoothData.size face = scaledMaskSize (project g entry))
           /\ (forall prevData,
                 findPrev prevFaceData (Tagged.faceId entry)
                 = Some prevData ->
                 SmoothData.x face
                 = (PrevData.x prevData
                    + (pixelX (project g entry) - PrevData.x prevData) * 0.2)
                   %float
                 /\ SmoothData.y face
                    = (PrevData.y prevData
                       + (pixelY (project g entry) - PrevData.y prevData)
                         * 0.2)%float
                 /\ SmoothData.rotation face
                    = (PrevData.rotation prevData
                       + (mirroredRotation (project g entry)
                          - PrevData.rotation prevData) * 0.2)%float
                 /\ SmoothData.size face
                    = (PrevData.size prevData
                       + (scaledMaskSize (project g entry)
                          - PrevData.size prevData) * 0.2)%float).
Proof.
  destruct (applySmoothInterpolation_returns Math_atan2 now g r prevFaceData
              currentFaces) as [r' [res [Hp Ha]]].
  exists r', res, (List.map (smooth prevFaceData g) res),
    (fst (smoothFaces prevFaceData g res)).
  assert (Hcache : fst (smoothFaces prevFaceData g res)
                   = List.map remember
                       (List.map (smooth prevFaceData g) res))
    by (destruct res; reflexivity).
  split; [exact Hp|]. split; [exact Ha|].
  split; [apply length_map|].
  rewrite Hcache.
  split; [now rewrite map_map|]. split; [now rewrite map_map|].
  split; [now rewrite map_map|]. split; [now rewrite map_map|].
  split; [now rewrite map_map|].
  intros i entry Hnth. exists (smooth prevFaceData g entry).
  split; [now apply map_nth_error|].
  split; [apply smooth_tags|]. split; [apply smooth_tags|].
  split.
  - intros E. unfold smooth. rewrite E. repeat split.
  - intros prevData E. rewrite (smooth_cached _ _ _ _ E). repeat split.
Qed.

(** A face that stays matched, frame after frame, with the same raw
    values: what each call hands to [setSmoothFaces]. *)
Lemma smoothSession_steady (face : Landmarks) (newFace : NewFace.t)
  (id : string) (nows : list Z) :
  newDetections Math_atan2 [face] = Normal [newFace] ->
  forall (r : FaceRegistry) (t : TrackedFace.t)
    (prevFaceData : list PrevData.t) (prevData : PrevData.t),
  trackedFaces r = [(id, t)] -> (0 <= maxFaceAge r)%Z ->
  steady r t (List.map (fun now => (now, newFace)) nows) ->
  findPrev prevFaceData id = Some prevData ->
  let target := project g (tag newFace id (TrackedFace.maskNumber t)) in
  exists state',
    smoothSession Math_atan2 g
      (List.map (fun now => (now, [face])) nows) (r, prevFaceData)
    = Normal
        (state',
         List.map
           (fun n =>
              [SmoothData.mk
                 (held 0.2%float (pixelX target) n (PrevData.x prevData))
                 (held 0.2%float (pixelY target) n (PrevData.y prevData))
                 (held 0.2%float (mirroredRotation target) n
                    (PrevData.rotation prevData))
                 (held 0.2%float (scaledMaskSize target) n
                    (PrevData.size prevData))
                 (TrackedFace.maskNumber t) id])
           (seq 1 (List.length nows))).
Proof.
  intros Hds. induction nows as [|now nows IH];
    intros r t prevFaceData prevData Ht Hage Hst Hprev target.
  - eexists. reflexivity.
  - destruct Hst as [Hs Hrest]. cbn [List.map smoothSession].
    set (entry := tag newFace id (TrackedFace.maskNumber t)) in *.
    assert (Hp : processDetections Math_atan2 now r [face]
                 = Normal (set_trackedFaces r [(id, refresh now t newFace)],
                           [entry])).
    { unfold processDetections. rewrite Hds. cbn [bind List.length].
      now rewrite (trackDetections_alone now r id t newFace Ht Hage Hs). }
    assert (Ha : applySmoothInterpolation Math_atan2 now g (r, prevFaceData)
                   [face]
                 = Normal ((set_trackedFaces r [(id, refresh now t newFace)],
                            nextCache g entry prevFaceData),
                           [smooth prevFaceData g entry])).
    { unfold applySmoothInterpolation. rewrite Hp. reflexivity. }
    rewrite Ha. cbn [bind fst snd].
    assert (Hnext : findPrev (nextCache g entry prevFaceData) id
                    = Some (remember (smooth prevFaceData g entry)))
      by (exact (findPrev_nextCache g entry prevFaceData)).
    destruct (IH (set_trackedFaces r [(id, refresh now t newFace)])
                (refresh now t newFace)
                (nextCache g entry prevFaceData)
                (remember (smooth prevFaceData g entry))
                eq_refl Hage
                (steady_settings r
                   (set_trackedFaces r [(id, refresh now t newFace)])
                   (refresh now t newFace) _ eq_refl Hrest)
                Hnext) as [state' Hrun].
    cbv zeta in Hrun.
    change (TrackedFace.maskNumber (refresh now t newFace))
      with (TrackedFace.maskNumber t) in Hrun.
    fold entry in Hrun. fold target in Hrun.
    rewrite Hrun. cbn [bind fst snd].
    exists state'. f_equal. f_equal.
    cbn [List.length seq List.map]. f_equal.
    + f_equal. exact (smooth_cached prevFaceData g entry prevData Hprev).
    + rewrite <- (seq_shift (List.length nows) 1), map_map.
      apply map_ext. intros n.
      rewrite (smooth_cached prevFaceData g entry prevData Hprev).
      unfold remember.
      cbn [SmoothData.x SmoothData.y SmoothData.rotation SmoothData.size
           PrevData.x PrevData.y PrevData.rotation PrevData.size].
      fold target. now rewrite !held_shift.
Qed.


End SmoothingFrames.


